(** * GMB scraper: a shallow embedding of [gmb_scraper.py]

    The development follows the script top-down as it is laid out:

    - [PyStr]      the Python [str] operations the script calls;
    - [Re]         the fragment of Python's [re] the script's patterns use
                   (a backtracking matcher, greedy repetition, groups);
    - [Progress]   [load_completed_keywords] and [save_completed_keyword]
                   over an explicit progress file;
    - [Parser]     [parse_gmb_listing], with the mutable [data] dictionary
                   and the exceptions the [try]/[except] blocks swallow;
    - [Captcha]    [handle_captcha], its clock and its polls;
    - [Orchestrator] the body of the [__main__] block;
    - [Cookies], [Scroll], [SearchBox]  the helpers that drive the
                   browser: [handle_cookie_consent], [scroll_page_down]
                   and [find_and_type_in_search_box] step by step.

    The modules of facts and of claims come after the model, and the
    laws of the single functions and of a whole run at the end.

    Characters are code points below 256 (Latin-1), the type [ascii]; a
    Python [str] is a list of them.  Time is counted in integer ticks. *)

From Stdlib Require Import ZArith QArith Ascii String Lia.
From stdpp Require Import base option list gmap strings.

Local Open Scope Z_scope.
Local Open Scope nat_scope.
Local Open Scope list_scope.

(** A Python [str]. *)
Abbreviation pystr := (list ascii).

(** A literal: [str "abc"] is the Python string ['abc']. *)
Definition str (s : string) : pystr := list_ascii_of_string s.

(* ================================================================== *)
(** ** Exceptions *)
(* ================================================================== *)

(** The exceptions that occur in the script: the two Selenium exceptions
    it names in [except] clauses, the stale-element error every element
    access can end in, and the built-in errors of [int], [float], of
    indexing and of a method call on [None]. *)
Inductive exn : Type :=
| TimeoutException
| NoSuchElementException
| StaleElementReferenceException
| WebDriverException
| ValueError
| TypeError
| AttributeError
| IndexError.

Global Instance exn_eq_dec : EqDecision exn.
Proof. solve_decision. Defined.

(** The outcome of an expression that may raise. *)
Inductive result (A : Type) : Type :=
| Ok (a : A)
| Raise (e : exn).
Arguments Ok {A} a.
Arguments Raise {A} e.

(* ================================================================== *)
(** ** Python strings *)
(* ================================================================== *)

Module PyStr.

Definition code (c : ascii) : nat := nat_of_ascii c.

(** [c.isdecimal()], the class [\d] of a [str] pattern: below 256 the
    decimal digits are ['0'..'9']. *)
Definition is_digit (c : ascii) : bool :=
  (48 <=? code c) && (code c <=? 57).

(** [c.isspace()], the class [\s] of a [str] pattern and the set
    [str.strip()] removes: TAB, LF, VT, FF, CR, FS, GS, RS, US, SPACE,
    NEL (U+0085) and NBSP (U+00A0). *)
Definition is_space (c : ascii) : bool :=
  let n := code c in
  ((9 <=? n) && (n <=? 13)) || ((28 <=? n) && (n <=? 32))
  || (n =? 133) || (n =? 160).

(** [c.lower()]: ['A'..'Z'] and the Latin-1 capitals U+00C0..U+00DE
    (the multiplication sign U+00D7 apart) move up by 32. *)
Definition lower_char (c : ascii) : ascii :=
  let n := code c in
  if ((65 <=? n) && (n <=? 90))
     || ((192 <=? n) && (n <=? 222) && negb (n =? 215))
  then ascii_of_nat (n + 32) else c.

(** [s.lower()] *)
Definition lower (s : pystr) : pystr := map lower_char s.

(** [s.lstrip()] *)
Fixpoint lstrip (s : pystr) : pystr :=
  match s with
  | c :: s' => if is_space c then lstrip s' else s
  | [] => []
  end.

(** [s.rstrip()] *)
Definition rstrip (s : pystr) : pystr := rev (lstrip (rev s)).

(** [s.strip()] *)
Definition strip (s : pystr) : pystr := rstrip (lstrip s).

(** [s.split(sep)] for a separator of one character; the result is
    never the empty list. *)
Fixpoint split (sep : ascii) (s : pystr) : list pystr :=
  match s with
  | [] => [[]]
  | c :: s' =>
      if Ascii.eqb c sep then [] :: split sep s'
      else match split sep s' with
           | h :: t => (c :: h) :: t
           | [] => [[c]]
           end
  end.

(** [s.replace(old, '')] for [old] of one character. *)
Definition remove_char (old : ascii) (s : pystr) : pystr :=
  filter (fun c => c ≠ old) s.

(** [s.startswith(p)] *)
Fixpoint startswith (p s : pystr) : bool :=
  match p, s with
  | [], _ => true
  | a :: p', b :: s' => Ascii.eqb a b && startswith p' s'
  | _ :: _, [] => false
  end.

(** [p in s] *)
Fixpoint contains (p s : pystr) : bool :=
  startswith p s ||
  match s with
  | [] => false
  | _ :: s' => contains p s'
  end.

(** [sep.join(parts)] *)
Fixpoint join (sep : pystr) (parts : list pystr) : pystr :=
  match parts with
  | [] => []
  | [p] => p
  | p :: rest => p ++ sep ++ join sep rest
  end.

(** Truth value of a string: [if s] holds for the non-empty ones. *)
Definition truthy (s : pystr) : bool :=
  match s with [] => false | _ :: _ => true end.

(** The value of a decimal digit. *)
Definition digit_val (c : ascii) : Z := Z.of_nat (code c - 48).

(** The value of a run of decimal digits, most significant first. *)
Definition digits_val (s : pystr) : Z :=
  fold_left (fun acc c => (10 * acc + digit_val c)%Z) s 0%Z.

(** [sys.int_info.default_max_str_digits]: CPython 3.11 (and the
    security releases of 3.7 to 3.10) refuse to convert a decimal
    string of more digits with [ValueError]. *)
Definition max_str_digits : nat := 4300.

(** [int(s)] on the strings the review-count rule passes to it: a run
    of decimal digits.  Anything else is answered with [ValueError]
    (signs, blanks and underscores never reach the call: the
    group is cut from digits and commas, and the commas are removed). *)
Definition py_int (s : pystr) : result Z :=
  if truthy s && forallb is_digit s then
    if max_str_digits <? length s then Raise ValueError
    else Ok (digits_val s)
  else Raise ValueError.

(** [float(s)] on the strings the rating rule passes to it: digit,
    point, digit.  The value is kept as the exact decimal, in lowest
    terms; rounding to binary64 is not modelled. *)
Definition py_float (s : pystr) : result Q :=
  match s with
  | [a; p; b] =>
      if is_digit a && Ascii.eqb p "."%char && is_digit b
      then Ok (Qred (Qplus (inject_Z (digit_val a)) (Qmake (digit_val b) 10)))
      else Raise ValueError
  | _ => Raise ValueError
  end.

(** The middle dot U+00B7 that separates the parts of a rating line. *)
Definition middle_dot : ascii := "183"%char.

End PyStr.

(* ================================================================== *)
(** ** Regular expressions *)
(* ================================================================== *)

Module Re.
Import PyStr.

(** The syntax the script's five patterns are written in.  [Rep a lo hi]
    is the greedy repetition [a{lo,hi}] ([hi = None] for no upper bound:
    [a*] is [Rep a 0 None], [a+] is [Rep a 1 None], [a?] is
    [Rep a 0 (Some 1)]); [Grp n a] is the [n]-th capturing group. *)
Inductive regex : Type :=
| Eps
| Chr (c : ascii)
| Cls (f : ascii -> bool)
| Seq (a b : regex)
| Alt (a b : regex)
| Rep (a : regex) (lo : nat) (hi : option nat)
| Grp (n : nat) (a : regex).

(** A literal word, one [Chr] after the other. *)
Fixpoint Lit (w : pystr) : regex :=
  match w with
  | [] => Eps
  | c :: w' => Seq (Chr c) (Lit w')
  end.

(** Groups that took part in a match, the latest binding first. *)
Definition caps := list (nat * pystr).

Fixpoint lookup_cap (n : nat) (cs : caps) : option pystr :=
  match cs with
  | [] => None
  | (i, w) :: cs' => if i =? n then Some w else lookup_cap n cs'
  end.

(** A literal character under [re.IGNORECASE] or without it. *)
Definition chr_eq (icase : bool) (c x : ascii) : bool :=
  if icase then Ascii.eqb (lower_char x) (lower_char c) else Ascii.eqb x c.

(** Whether a repetition may run once more. *)
Definition may_repeat (hi : option nat) : bool :=
  match hi with Some 0 => false | _ => true end.

Section Matcher.
Context {A : Type}.
Variable icase : bool.

(** A matcher takes the rest of the subject, the groups so far and
    what is to be done after it; [None] makes the caller backtrack. *)
Definition cont := pystr -> caps -> option A.

(** Greedy repetition: one more round first, and only when that
    fails the way out.  A round has to consume a character, so the
    length of the subject bounds the rounds. *)
Fixpoint rep_loop (step : pystr -> caps -> cont -> option A)
    (fuel lo : nat) (hi : option nat) (s : pystr) (cs : caps) (k : cont)
    : option A :=
  let leave := match lo with 0 => k s cs | S _ => None end in
  match fuel with
  | 0 => leave
  | S fuel' =>
      if may_repeat hi then
        match step s cs (fun s' cs' =>
                 if length s' <? length s
                 then rep_loop step fuel' (pred lo) (pred <$> hi) s' cs' k
                 else None) with
        | Some r => Some r
        | None => leave
        end
      else leave
  end.

Fixpoint run (r : regex) (s : pystr) (cs : caps) (k : cont) : option A :=
  match r with
  | Eps => k s cs
  | Chr c =>
      match s with
      | x :: s' => if chr_eq icase c x then k s' cs else None
      | [] => None
      end
  | Cls f =>
      match s with
      | x :: s' => if f x then k s' cs else None
      | [] => None
      end
  | Seq a b => run a s cs (fun s1 cs1 => run b s1 cs1 k)
  | Alt a b =>
      match run a s cs k with
      | Some r => Some r
      | None => run b s cs k
      end
  | Rep a lo hi => rep_loop (run a) (length s) lo hi s cs k
  | Grp n a =>
      run a s cs
        (fun s1 cs1 => k s1 ((n, take (length s - length s1) s) :: cs1))
  end.
End Matcher.

(** A match object: where the match starts, its text ([group(0)]), the
    rest of the subject behind it, and the numbered groups. *)
Record re_match : Type := MkMatch {
  m_start : nat;
  m_text : pystr;
  m_rest : pystr;
  m_caps : caps
}.

(** [m.group(n)]; [None] for a group that took no part. *)
Definition group (n : nat) (m : re_match) : option pystr :=
  match n with
  | 0 => Some (m_text m)
  | S _ => lookup_cap n (m_caps m)
  end.

(** A match that starts at the head of [s]. *)
Definition match_here (icase : bool) (r : regex) (s : pystr)
    : option (pystr * caps) :=
  run icase r s [] (fun s' cs => Some (s', cs)).

(** [re.search]: the first position, from the left, at which the
    pattern matches; the end of the subject is tried too. *)
Fixpoint search_from (icase : bool) (r : regex) (i : nat) (s : pystr)
    : option re_match :=
  match match_here icase r s with
  | Some (rest, cs) =>
      Some (MkMatch i (take (length s - length rest) s) rest cs)
  | None =>
      match s with
      | [] => None
      | _ :: s' => search_from icase r (S i) s'
      end
  end.

Definition search (icase : bool) (r : regex) (s : pystr) : option re_match :=
  search_from icase r 0 s.

(** [re.sub(r, '', s)]: every match of [r], from the left and without
    overlap, is cut out.  The patterns it is called with match no empty
    word, so a position without a match keeps its character. *)
Fixpoint delete_matches (icase : bool) (r : regex) (fuel : nat) (s : pystr)
    : pystr :=
  match fuel with
  | 0 => s
  | S fuel' =>
      match s with
      | [] => []
      | c :: s' =>
          match match_here icase r s with
          | Some (rest, _) =>
              if length rest <? length s
              then delete_matches icase r fuel' rest
              else c :: delete_matches icase r fuel' s'
          | None => c :: delete_matches icase r fuel' s'
          end
      end
  end.

Definition sub_empty (icase : bool) (r : regex) (s : pystr) : pystr :=
  delete_matches icase r (length s) s.

(** The words of a pattern. *)
Definition within (hi : option nat) (n : nat) : Prop :=
  match hi with Some h => n ≤ h | None => True end.

Fixpoint lang (icase : bool) (r : regex) (w : pystr) : Prop :=
  match r with
  | Eps => w = []
  | Chr c => ∃ x, w = [x] ∧ chr_eq icase c x = true
  | Cls f => ∃ x, w = [x] ∧ f x = true
  | Seq a b => ∃ u v, w = u ++ v ∧ lang icase a u ∧ lang icase b v
  | Alt a b => lang icase a w ∨ lang icase b w
  | Rep a lo hi =>
      ∃ ws, w = concat ws ∧ Forall (lang icase a) ws
            ∧ lo ≤ length ws ∧ within hi (length ws)
  | Grp _ a => lang icase a w
  end.

(** What group [n] of pattern [r] can hold. *)
Fixpoint grp_lang (icase : bool) (r : regex) (n : nat) (w : pystr) : Prop :=
  match r with
  | Eps | Chr _ | Cls _ => False
  | Seq a b | Alt a b => grp_lang icase a n w ∨ grp_lang icase b n w
  | Rep a _ _ => grp_lang icase a n w
  | Grp i a => (i = n ∧ lang icase a w) ∨ grp_lang icase a n w
  end.

End Re.

(* ================================================================== *)
(** ** The listing parser *)
(* ================================================================== *)

Module Parser.
Import PyStr Re.

(** [\d] and [\s] *)
Definition digit : regex := Cls is_digit.
Definition space : regex := Cls is_space.

(** [r'(\d\.\d)'] *)
Definition rating_re : regex :=
  Grp 1 (Seq digit (Seq (Chr ".") digit)).

(** [r'\((\d{1,3}(,\d{3})*|\d+)\)'] *)
Definition reviews_re : regex :=
  Seq (Chr "(")
    (Seq (Grp 1 (Alt (Seq (Rep digit 1 (Some 3))
                        (Rep (Grp 2 (Seq (Chr ",") (Rep digit 3 (Some 3))))
                           0 None))
                     (Rep digit 1 None)))
         (Chr ")")).

(** [r'(\d+\+?)\+?\s+years in business'], used with [re.IGNORECASE] *)
Definition years_re : regex :=
  Seq (Grp 1 (Seq (Rep digit 1 None) (Rep (Chr "+") 0 (Some 1))))
    (Seq (Rep (Chr "+") 0 (Some 1))
       (Seq (Rep space 1 None) (Lit (str "years in business")))).

(** [r'(\d{5}\s\d{5}|\d{10}|[0-9\s]{8,})'] *)
Definition phone_re : regex :=
  Grp 1 (Alt (Seq (Rep digit 5 (Some 5)) (Seq space (Rep digit 5 (Some 5))))
          (Alt (Rep digit 10 (Some 10))
               (Rep (Cls (fun c => is_digit c || is_space c)) 8 None))).

(** [r'\s+'] *)
Definition spaces_re : regex := Rep space 1 None.

(** The [data] dictionary: its eight keys are fixed, and [None] is the
    value of a field that was not extracted. *)
Record ListingData : Type := MkData {
  Keyword : pystr;
  Name : option pystr;
  Rating : option Q;
  Number_of_Reviews : option Z;
  Category : option pystr;
  Years_in_Business : option pystr;
  Address : option pystr;
  Phone_Number : option pystr
}.

(** One listing fragment, as the three queries of the parser see it:
    each may raise, and so may the [.text] of each child block. *)
Record WebElement : Type := MkElement {
  (** [element.find_element(By.CSS_SELECTOR, "div.dbg0pd span").text] *)
  name_span : result pystr;
  (** [element.find_element(By.CSS_SELECTOR, "span.Y0A0hc").text] *)
  rating_span : result pystr;
  (** [element.find_elements(By.XPATH, "./div")], each with its [.text] *)
  child_divs : result (list (result pystr))
}.

(** Statements over the dictionary: they read and update [data] and
    may raise; what was stored before an exception stays stored. *)
Definition M (A : Type) : Type := ListingData -> ListingData * result A.

Global Instance M_ret : MRet M := fun A a d => (d, Ok a).
Global Instance M_bind : MBind M := fun A B f m d =>
  match m d with
  | (d', Ok a) => f a d'
  | (d', Raise e) => (d', Raise e)
  end.

(** An expression that may raise. *)
Definition lift {A} (r : result A) : M A := fun d => (d, r).

(** The dictionary as it stands. *)
Definition get : M ListingData := fun d => (d, Ok d).

Definition modify (f : ListingData -> ListingData) : M unit :=
  fun d => (f d, Ok tt).

(** [try: body] followed by [except: pass]. *)
Definition try_pass (body : M unit) : M unit :=
  fun d => (fst (body d), Ok tt).

(** [data[key] = v], key by key. *)
Definition set_Name (v : option pystr) : M unit :=
  modify (fun d => MkData (Keyword d) v (Rating d) (Number_of_Reviews d)
    (Category d) (Years_in_Business d) (Address d) (Phone_Number d)).
Definition set_Rating (v : option Q) : M unit :=
  modify (fun d => MkData (Keyword d) (Name d) v (Number_of_Reviews d)
    (Category d) (Years_in_Business d) (Address d) (Phone_Number d)).
Definition set_Number_of_Reviews (v : option Z) : M unit :=
  modify (fun d => MkData (Keyword d) (Name d) (Rating d) v
    (Category d) (Years_in_Business d) (Address d) (Phone_Number d)).
Definition set_Category (v : option pystr) : M unit :=
  modify (fun d => MkData (Keyword d) (Name d) (Rating d)
    (Number_of_Reviews d) v (Years_in_Business d) (Address d)
    (Phone_Number d)).
Definition set_Years_in_Business (v : option pystr) : M unit :=
  modify (fun d => MkData (Keyword d) (Name d) (Rating d)
    (Number_of_Reviews d) (Category d) v (Address d) (Phone_Number d)).
Definition set_Address (v : option pystr) : M unit :=
  modify (fun d => MkData (Keyword d) (Name d) (Rating d)
    (Number_of_Reviews d) (Category d) (Years_in_Business d) v
    (Phone_Number d)).
Definition set_Phone_Number (v : option pystr) : M unit :=
  modify (fun d => MkData (Keyword d) (Name d) (Rating d)
    (Number_of_Reviews d) (Category d) (Years_in_Business d) (Address d) v).

(** [l[i]] *)
Definition item {A} (i : nat) (l : list A) : result A :=
  match l !! i with Some a => Ok a | None => Raise IndexError end.

(** A use of [m.group(n)] that fails with [e] when the group is [None]. *)
Definition group_or (e : exn) (n : nat) (m : re_match) : result pystr :=
  match group n m with Some w => Ok w | None => Raise e end.

(** Line 204. *)
Definition name_block (element : WebElement) : M unit :=
  n ← lift (name_span element);
  set_Name (Some n).

(** Lines 207 to 211. *)
Definition rating_block (element : WebElement) : M unit :=
  rating_line ← lift (rating_span element);
  let parts := split middle_dot rating_line in
  p0 ← lift (item 0 parts);
  match search false rating_re p0 with
  | Some r_match =>
      g ← lift (group_or TypeError 1 r_match);
      v ← lift (py_float g);
      set_Rating (Some v)
  | None => mret tt
  end;;
  match search false reviews_re p0 with
  | Some rev_match =>
      g ← lift (group_or AttributeError 1 rev_match);
      n ← lift (py_int (remove_char "," g));
      set_Number_of_Reviews (Some n)
  | None => mret tt
  end;;
  if 1 <? length parts then
    p1 ← lift (item 1 parts);
    set_Category (Some (strip p1))
  else mret tt.

(** [[div.text for div in details_divs if div.text]] *)
Fixpoint div_texts (details_divs : list (result pystr)) : M (list pystr) :=
  match details_divs with
  | [] => mret []
  | div :: rest =>
      c ← lift div;
      if truthy c then
        t ← lift div;
        ts ← div_texts rest;
        mret (t :: ts)
      else div_texts rest
  end.

(** The test of line 222 that makes the address scan pass a block by. *)
Definition skipped (data : ListingData) (text : pystr) : bool :=
  negb (truthy text)
  || contains (str "years in business") (lower text)
  || match Phone_Number data with
     | Some p => truthy p && contains p text
     | None => false
     end
  || contains [middle_dot] text
  || contains (str "Open") text
  || contains (str "Closes") text
  || contains (str "On-site services") text.

(** Lines 220 to 225. *)
Fixpoint address_loop (details_divs : list (result pystr)) : M unit :=
  match details_divs with
  | [] => mret tt
  | div :: rest =>
      t ← lift div;
      let text := strip t in
      data ← get;
      if skipped data text then address_loop rest
      else if 15 <? length text then set_Address (Some text)
      else address_loop rest
  end.

(** Line 216. *)
Definition years_stmt (full_text : pystr) : M unit :=
  match search true years_re full_text with
  | Some y_match => set_Years_in_Business (group 1 y_match)
  | None => mret tt
  end.

(** Lines 217 to 219. *)
Definition phone_stmt (full_text : pystr) : M unit :=
  match search false phone_re full_text with
  | Some p_match =>
      let phone := strip (sub_empty false spaces_re (m_text p_match)) in
      if 8 <=? length phone
      then set_Phone_Number (Some (strip (m_text p_match)))
      else mret tt
  | None => mret tt
  end.

(** Lines 214 to 225. *)
Definition details_block (element : WebElement) : M unit :=
  details_divs ← lift (child_divs element);
  texts ← div_texts details_divs;
  let full_text := join (str " ") texts in
  years_stmt full_text;;
  phone_stmt full_text;;
  address_loop details_divs.

(** Line 203. *)
Definition fresh (keyword : pystr) : ListingData :=
  MkData keyword None None None None None None None.

Definition parse_gmb_listing (element : WebElement) (keyword : pystr)
    : result ListingData :=
  snd ((try_pass (name_block element);;
        try_pass (rating_block element);;
        try_pass (details_block element);;
        get) (fresh keyword)).

End Parser.

(* ================================================================== *)
(** ** The progress store *)
(* ================================================================== *)

Module Progress.
Import PyStr.

Definition LF : ascii := "010"%char.
Definition CR : ascii := "013"%char.

(** The progress file: [None] while it does not exist, its text
    otherwise. *)
Definition file := option pystr.

(** What [open(path, 'r')] hands to the reader: in text mode with the
    default [newline=None] a CR LF pair and a lone CR both arrive as
    LF. *)
Fixpoint universal_newlines (s : pystr) : pystr :=
  match s with
  | [] => []
  | c :: s' =>
      if Ascii.eqb c CR then
        LF :: match s' with
              | d :: s'' =>
                  if Ascii.eqb d LF then universal_newlines s''
                  else universal_newlines s'
              | [] => []
              end
      else c :: universal_newlines s'
  end.

(** [for line in f]: the text cut behind every LF, each line with its
    LF; a last line without one is a line too. *)
Fixpoint readlines (s : pystr) : list pystr :=
  match s with
  | [] => []
  | c :: s' =>
      if Ascii.eqb c LF then [LF] :: readlines s'
      else match readlines s' with
           | [] => [[c]]
           | l :: ls => (c :: l) :: ls
           end
  end.

(** Lines 74 to 81. *)
Definition load_completed_keywords (f : file) : gset pystr :=
  match f with
  | Some text =>
      list_to_set (strip <$> readlines (universal_newlines text))
  | None => ∅
  end.

(** Lines 83 to 87: [open(path, 'a')] creates the file when it is
    missing. *)
Definition save_completed_keyword (keyword : pystr) (f : file) : file :=
  Some (default [] f ++ keyword ++ [LF]).

(** The store after a run of saves, the first keyword saved first. *)
Definition saves (keywords : list pystr) (f : file) : file :=
  foldl (fun f k => save_completed_keyword k f) f keywords.

(** A keyword without blanks around it and without a line break in it. *)
Definition no_linebreak (k : pystr) : Prop := (LF ∉ k) ∧ (CR ∉ k).
Definition clean (k : pystr) : Prop := strip k = k ∧ no_linebreak k.

End Progress.

(* ================================================================== *)
(** ** Configuration, notifications and the CAPTCHA wait *)
(* ================================================================== *)

(** The values the script reads from its [config] module, which is not
    part of the sources; times are in ticks. *)
Record Config : Type := MkConfig {
  ENABLE_EMAIL_NOTIFICATIONS : bool;
  CAPTCHA_WAIT_TIMEOUT : Z;
  CAPTCHA_CHECK_INTERVAL : Z
}.

(** What a run leaves behind besides its files: the lines it logs that
    the properties speak about, and the messages it hands to the mail
    relay. *)
Inductive event : Type :=
| EvConsoleAlert (keyword : pystr)      (* the ACTION REQUIRED banner *)
| EvEmail (subject body : pystr)        (* [server.sendmail] *)
| EvSaved (keyword : pystr)             (* "Saved ... to progress file." *)
| EvPage (keyword : pystr) (page_num : nat) (* "--- Scraping GMB Page ..." *)
| EvSkipped (keyword : pystr)           (* "Skipping already completed ..." *)
| EvCrashed (e : exn).                  (* "A critical, unhandled error ..." *)

Module Notify.

(** Lines 59 to 72: nothing happens unless notifications are enabled;
    a failure of the relay is logged and goes no further. *)
Definition send_error_email (cfg : Config) (subject body : pystr)
    : list event :=
  if ENABLE_EMAIL_NOTIFICATIONS cfg then [EvEmail subject body] else [].

End Notify.

Module Captcha.
Import Notify.

(** What the handler observes: [clock 0] is the reading that becomes
    [start_time], [clock (S j)] the reading of the loop test before
    round [j], and [iframe_present j] whether the poll of round [j]
    still finds the reCAPTCHA frame. *)
Record Env : Type := MkEnv {
  clock : nat -> Z;
  iframe_present : nat -> bool
}.

Definition dq : ascii := "034"%char.

Definition email_subject : pystr :=
  str "GMB Scraper Alert: CAPTCHA - Action Required".

Definition email_body (keyword : pystr) : pystr :=
  str "Hello," ++ [Progress.LF; Progress.LF]
  ++ str "The GMB Scraper has encountered a Google CAPTCHA and is paused."
  ++ [Progress.LF; Progress.LF]
  ++ str "Keyword: " ++ [dq] ++ keyword ++ [dq]
  ++ [Progress.LF; Progress.LF]
  ++ str "Please solve it in the browser. The script will resume automatically.".

(** Lines 103 to 112: the banner and the mail, once. *)
Definition alert (cfg : Config) (keyword : pystr) (alert_sent : bool)
    : list event :=
  if alert_sent then []
  else EvConsoleAlert keyword :: send_error_email cfg email_subject (email_body keyword).

(** Lines 98 to 118, from round [j] on.  The loop ends when the clock
    says so; [fuel] bounds the rounds the model follows, and [None]
    stands for a wait that is still going on when it is used up. *)
Fixpoint wait_loop (cfg : Config) (env : Env) (keyword : pystr)
    (fuel j : nat) (alert_sent : bool) : list event * option bool :=
  match fuel with
  | 0 => ([], None)
  | S fuel' =>
      if (clock env (S j) - clock env 0 <? CAPTCHA_WAIT_TIMEOUT cfg)%Z then
        if negb (iframe_present env j) then ([], Some true)
        else
          let evs := alert cfg keyword alert_sent in
          let '(evs', r) := wait_loop cfg env keyword fuel' (S j) true in
          (evs ++ evs', r)
      else ([], Some false)
  end.

(** Lines 93 to 118. *)
Definition handle_captcha (cfg : Config) (env : Env) (keyword : pystr)
    (fuel : nat) : list event * option bool :=
  wait_loop cfg env keyword fuel 0 false.

(** The alerts among some events. *)
Definition is_alert (ev : event) : bool :=
  match ev with EvConsoleAlert _ => true | _ => false end.
Definition is_email (ev : event) : bool :=
  match ev with EvEmail _ _ => true | _ => false end.
Definition alerts (evs : list event) : nat :=
  length (List.filter is_alert evs).
Definition emails (evs : list event) : nat :=
  length (List.filter is_email evs).

(** Round [j] is entered when the clock allows it. *)
Definition in_time (cfg : Config) (env : Env) (j : nat) : Prop :=
  (clock env (S j) - clock env 0 < CAPTCHA_WAIT_TIMEOUT cfg)%Z.




End Captcha.

(* ================================================================== *)
(** ** The main block *)
(* ================================================================== *)

Module Orchestrator.
Import PyStr Parser Progress Notify Captcha.

Definition MAX_GMB_PAGES_TO_SCRAPE : nat := 10.

(** A results page as the pagination loop meets it: the fragments
    [find_elements] returns for [GMB_LISTING_CONTAINER], and the search
    for [GMB_NEXT_PAGE_BUTTON] with the click on it. *)
Record Page : Type := MkPage {
  listings : list WebElement;
  next_button : result unit
}.

(** What the browser does while one keyword is worked on. *)
Record Session : Type := MkSession {
  (** [driver.get(config.SEARCH_URL)] (line 249), which raises when the
      page does not load within the time line 156 allows; the handling
      of the cookie banner that follows catches its own exceptions *)
  page_load : result unit;
  (** the wait for the search box and the typing (lines 174 to 179) *)
  search_box : result unit;
  (** whether line 256 finds the reCAPTCHA frame *)
  captcha_detected : bool;
  (** what [handle_captcha] then observes *)
  captcha : Env;
  (** the wait for the "More businesses" link and the click (263, 264) *)
  more_button : result unit;
  (** the page shown in round [j] of the pagination loop, from 0 *)
  pages : nat -> Page
}.

(** What the run has built up so far. *)
Record RunState : Type := MkState {
  progress_file : file;
  all_gmb_data : list ListingData;
  trace : list event
}.

Definition log (evs : list event) (st : RunState) : RunState :=
  MkState (progress_file st) (all_gmb_data st) (trace st ++ evs).

(** Lines 83 to 87, on the run's state. *)
Definition save (keyword : pystr) (st : RunState) : RunState :=
  MkState (save_completed_keyword keyword (progress_file st))
    (all_gmb_data st) (trace st ++ [EvSaved keyword]).

(** Lines 166 to 170. *)
Definition get_keywords_from_sheet (col_values : list pystr) : list pystr :=
  strip <$> filter (fun kw => truthy (strip kw)) (drop 1 col_values).

(** Lines 172 to 183. *)
Definition find_and_type_in_search_box (s : Session) : result bool :=
  match search_box s with
  | Ok _ => Ok true
  | Raise TimeoutException => Ok false
  | Raise e => Raise e
  end.

(** [parsed_data.get("Name")] as a condition. *)
Definition has_name (d : ListingData) : bool :=
  match Name d with Some n => truthy n | None => false end.

(** Lines 278 to 280. *)
Fixpoint collect (keyword : pystr) (elements : list WebElement)
    (data : list ListingData) : result (list ListingData) :=
  match elements with
  | [] => Ok data
  | listing_element :: rest =>
      match parse_gmb_listing listing_element keyword with
      | Ok parsed_data =>
          collect keyword rest
            (if has_name parsed_data then data ++ [parsed_data] else data)
      | Raise e => Raise e
      end
  end.

(** Lines 271 to 287, over the page numbers still to come.  The result
    says whether an exception left the loop. *)
Fixpoint pagination (s : Session) (keyword : pystr) (page_nums : list nat)
    (st : RunState) : RunState * option exn :=
  match page_nums with
  | [] => (st, None)
  | page_num :: later =>
      let st := log [EvPage keyword page_num] st in
      let page := pages s (page_num - 1) in
      match listings page with
      | [] => (st, None)
      | _ :: _ =>
          match collect keyword (listings page) (all_gmb_data st) with
          | Raise e => (st, Some e)
          | Ok data =>
              let st := MkState (progress_file st) data (trace st) in
              match next_button page with
              | Ok _ => pagination s keyword later st
              | Raise NoSuchElementException => (st, None)
              | Raise e => (st, Some e)
              end
          end
      end
  end.

(** How the work on one keyword ended. *)
Inductive outcome : Type :=
| SearchBoxNotFound
| CaptchaTimedOut
| ExpandNotFound
| Scraped
| Crashed (e : exn)
| Waiting.   (* the CAPTCHA wait outlasts the rounds followed *)

(** Lines 261 to 291. *)
Definition expand_and_scrape (s : Session) (keyword : pystr)
    (st : RunState) : outcome * RunState :=
  match more_button s with
  | Raise TimeoutException => (ExpandNotFound, save keyword st)
  | Raise e => (Crashed e, st)
  | Ok _ =>
      match pagination s keyword (seq 1 MAX_GMB_PAGES_TO_SCRAPE) st with
      | (st, Some e) => (Crashed e, st)
      | (st, None) => (Scraped, save keyword st)
      end
  end.

(** Lines 248 to 291: the body of the keyword loop behind the test for
    a completed keyword. *)
Definition process_keyword (cfg : Config) (fuel : nat) (s : Session)
    (keyword : pystr) (st : RunState) : outcome * RunState :=
  match page_load s with
  | Raise e => (Crashed e, st)
  | Ok _ =>
      match find_and_type_in_search_box s with
      | Raise e => (Crashed e, st)
      | Ok false => (SearchBoxNotFound, st)
      | Ok true =>
          if captcha_detected s then
            match handle_captcha cfg (captcha s) keyword fuel with
            | (evs, None) => (Waiting, log evs st)
            | (evs, Some false) =>
                (CaptchaTimedOut, save keyword (log evs st))
            | (evs, Some true) => expand_and_scrape s keyword (log evs st)
            end
          else expand_and_scrape s keyword st
      end
  end.

(** How the keyword loop ended. *)
Inductive ending : Type :=
| Exhausted               (* every keyword was looked at *)
| Aborted (e : exn)       (* an exception reached the outer handler *)
| Stuck.                  (* a CAPTCHA wait outlasts the rounds followed *)

(** Lines 243 to 291.  [world i] is what the browser does for the
    keyword at position [i] of the list. *)
Fixpoint keyword_loop (cfg : Config) (fuel : nat) (world : nat -> Session)
    (completed_keywords : gset pystr) (todo : list (nat * pystr))
    (st : RunState) : ending * RunState :=
  match todo with
  | [] => (Exhausted, st)
  | (i, keyword) :: rest =>
      if decide (keyword ∈ completed_keywords) then
        keyword_loop cfg fuel world completed_keywords rest
          (log [EvSkipped keyword] st)
      else
        match process_keyword cfg fuel (world i) keyword st with
        | (Crashed e, st) => (Aborted e, st)
        | (Waiting, st) => (Stuck, st)
        | (_, st) => keyword_loop cfg fuel world completed_keywords rest st
        end
  end.

(** [enumerate(keywords_to_scrape)] *)
Definition enumerate {A} (l : list A) : list (nat * A) :=
  zip (seq 0 (length l)) l.

(** What a run hands back: how it ended, its state, and the rows written
    to the Excel file, if it wrote one. *)
Record RunResult : Type := MkResult {
  ended : ending;
  final : RunState;
  exported : option (list ListingData)
}.

Definition crash_subject : pystr := str "GMB Scraper Alert: SCRIPT CRASHED".

(** The head of the crash mail; the text of the exception and the
    traceback that follow it in line 303 are left out. *)
Definition crash_body : pystr := str "The GMB Scraper script has crashed.".

(** Lines 232 to 308, from the progress file and the first column of
    the worksheet. *)
Definition main (cfg : Config) (fuel : nat) (world : nat -> Session)
    (progress : file) (col_values : list pystr) : RunResult :=
  let completed_keywords := load_completed_keywords progress in
  let keywords_to_scrape := get_keywords_from_sheet col_values in
  let st := MkState progress [] [] in
  match keyword_loop cfg fuel world completed_keywords
          (enumerate keywords_to_scrape) st with
  | (Exhausted, st) =>
      MkResult Exhausted st
        (match all_gmb_data st with
         | [] => None
         | _ :: _ => Some (all_gmb_data st)
         end)
  | (Aborted e, st) =>
      MkResult (Aborted e)
        (log (EvCrashed e :: send_error_email cfg crash_subject crash_body) st)
        None
  | (Stuck, st) => MkResult Stuck st None
  end.

End Orchestrator.

(* ================================================================== *)
(** ** The helpers that drive the browser *)
(* ================================================================== *)

Module Cookies.

(** A button of the page, as the function uses it. *)
Record Button : Type := MkButton {
  text : result pystr;       (* [button.text] *)
  click : result unit        (* [button.click()] *)
}.

(** The browser, as the function uses it: what
    [driver.find_element(By.XPATH, xpath)] comes back with. *)
Definition Driver := pystr -> result Button.

(** The three XPath expressions of lines 126 to 128, in their order. *)
Definition consent_buttons : list pystr :=
  [str "//button[contains(., 'Accept all')]";
   str "//button[contains(., 'Reject all')]";
   str "//button[contains(., 'I agree')]"].

Inductive cookie_event : Type :=
| CkFound (xpath text : pystr)   (* "Found a cookie consent button ..." *)
| CkClicked (xpath : pystr)      (* [button.click()] came back *)
| CkWarning (e : exn).           (* "Could not handle cookie consent ..." *)

(** Lines 132 to 136, the body of the inner [try]. *)
Definition attempt (page : Driver) (xpath : pystr)
    : list cookie_event * result unit :=
  match page xpath with
  | Raise e => ([], Raise e)
  | Ok button =>
      match text button with
      | Raise e => ([], Raise e)
      | Ok t =>
          match click button with
          | Raise e => ([CkFound xpath t], Raise e)
          | Ok _ => ([CkFound xpath t; CkClicked xpath], Ok tt)
          end
      end
  end.

(** Lines 130 to 138: [return] after the first click, [continue] on
    [NoSuchElementException], and any other exception leaves the loop. *)
Fixpoint consent_loop (page : Driver) (xpaths : list pystr)
    : list cookie_event * result unit :=
  match xpaths with
  | [] => ([], Ok tt)
  | xpath :: rest =>
      match attempt page xpath with
      | (evs, Ok _) => (evs, Ok tt)
      | (evs, Raise NoSuchElementException) =>
          let '(evs', r) := consent_loop page rest in (evs ++ evs', r)
      | (evs, Raise e) => (evs, Raise e)
      end
  end.

(** Lines 120 to 140. *)
Definition handle_cookie_consent (page : Driver) : list cookie_event :=
  match consent_loop page consent_buttons with
  | (evs, Ok _) => evs
  | (evs, Raise e) => evs ++ [CkWarning e]
  end.

Definition is_click (ev : cookie_event) : bool :=
  match ev with CkClicked _ => true | _ => false end.
Definition is_warning (ev : cookie_event) : bool :=
  match ev with CkWarning _ => true | _ => false end.

(** The clicks among some events. *)
Definition clicks (evs : list cookie_event) : nat :=
  length (List.filter is_click evs).

(** A button that is not there, as the loop sees it. *)
Definition passed_by (page : Driver) (xpath : pystr) : Prop :=
  snd (attempt page xpath) = Raise NoSuchElementException.

End Cookies.

Module Scroll.

(** What the page does under [scroll_page_down]: [height j] is the
    [j]-th reading of [document.body.scrollHeight], the one before the
    loop being reading 0, and [scroll_to j] the [j]-th call of
    [window.scrollTo], from 0. *)
Record Window : Type := MkWindow {
  height : nat -> result Z;
  scroll_to : nat -> result unit
}.

Inductive scroll_event : Type :=
| ScScrolled                 (* [window.scrollTo] came back *)
| ScFinished                 (* "Finished scrolling." *)
| ScWarning (e : exn).       (* "Could not scroll the page: ..." *)

(** Lines 189 to 194, with [rounds] rounds of the [for] still to go and
    [j] rounds done. *)
Fixpoint scroll_loop (env : Window) (rounds j : nat) (last_height : Z)
    : list scroll_event * result unit :=
  match rounds with
  | 0 => ([], Ok tt)
  | S rounds' =>
      match scroll_to env j with
      | Raise e => ([], Raise e)
      | Ok _ =>
          match height env (S j) with
          | Raise e => ([ScScrolled], Raise e)
          | Ok new_height =>
              if (new_height =? last_height)%Z then ([ScScrolled], Ok tt)
              else
                let '(evs, r) := scroll_loop env rounds' (S j) new_height in
                (ScScrolled :: evs, r)
          end
      end
  end.

(** Lines 185 to 197. *)
Definition scroll_page_down (env : Window) : list scroll_event :=
  match height env 0 with
  | Raise e => [ScWarning e]
  | Ok last_height =>
      match scroll_loop env 5 0 last_height with
      | (evs, Ok _) => evs ++ [ScFinished]
      | (evs, Raise e) => evs ++ [ScWarning e]
      end
  end.

Definition is_scroll (ev : scroll_event) : bool :=
  match ev with ScScrolled => true | _ => false end.

(** The scrolls among some events. *)
Definition scrolls (evs : list scroll_event) : nat :=
  length (List.filter is_scroll evs).

(** A page whose readings and scrolls all come back, with the heights
    [h]. *)
Definition steady (env : Window) (h : nat -> Z) : Prop :=
  ∀ j, height env j = Ok (h j) ∧ scroll_to env j = Ok tt.

End Scroll.

Module SearchBox.

(** The search box under [find_and_type_in_search_box]: the wait for
    it, [search_box.clear()], and the [j]-th call of
    [search_box.send_keys], from 0. *)
Record Box : Type := MkBox {
  located : result unit;
  cleared : result unit;
  sent : nat -> result unit
}.

(** What [send_keys] is called with: a character of the text, or
    [Keys.RETURN]. *)
Inductive key : Type :=
| KeyChar (c : ascii)
| KeyReturn.

Inductive box_event : Type :=
| BxCleared                  (* [clear()] came back *)
| BxKey (k : key).           (* [send_keys(k)] came back *)

(** Lines 176 to 178, from call [j] of [send_keys] on. *)
Fixpoint type_text (box : Box) (j : nat) (text : pystr)
    : list box_event * result unit :=
  match text with
  | [] => ([], Ok tt)
  | char :: rest =>
      match sent box j with
      | Raise e => ([], Raise e)
      | Ok _ =>
          let '(evs, r) := type_text box (S j) rest in
          (BxKey (KeyChar char) :: evs, r)
      end
  end.

(** Lines 174 to 179, the body of the [try]. *)
Definition typing (box : Box) (text : pystr)
    : list box_event * result unit :=
  match located box with
  | Raise e => ([], Raise e)
  | Ok _ =>
      match cleared box with
      | Raise e => ([], Raise e)
      | Ok _ =>
          match type_text box 0 text with
          | (evs, Raise e) => (BxCleared :: evs, Raise e)
          | (evs, Ok _) =>
              match sent box (length text) with
              | Raise e => (BxCleared :: evs, Raise e)
              | Ok _ => (BxCleared :: evs ++ [BxKey KeyReturn], Ok tt)
              end
          end
      end
  end.

(** Lines 172 to 183. *)
Definition find_and_type_in_search_box (box : Box) (text : pystr)
    : list box_event * result bool :=
  match typing box text with
  | (evs, Ok _) => (evs, Ok true)
  | (evs, Raise TimeoutException) => (evs, Ok false)
  | (evs, Raise e) => (evs, Raise e)
  end.

(** The characters among the keys sent. *)
Definition typed (evs : list box_event) : pystr :=
  omap (fun ev => match ev with BxKey (KeyChar c) => Some c | _ => None end)
    evs.

(** Every step of the typing comes back. *)
Definition responsive (box : Box) (text : pystr) : Prop :=
  located box = Ok tt ∧ cleared box = Ok tt
  ∧ ∀ j, j ≤ length text → sent box j = Ok tt.

End SearchBox.

(* ================================================================== *)
(** * Properties *)
(* ================================================================== *)

(** ** Stripping *)

Module PyStrFacts.
Import PyStr.

(** A string that [strip] leaves alone: empty, or with no blank at
    either end. *)
Definition head_ok (s : pystr) : Prop :=
  match s with [] => True | c :: _ => is_space c = false end.
Definition tight (s : pystr) : Prop := head_ok s ∧ head_ok (rev s).

Definition blank (s : pystr) : Prop := Forall (fun c => is_space c = true) s.

Lemma lstrip_blank pre s : blank pre → lstrip (pre ++ s) = lstrip s.
Proof.
  induction 1 as [|c pre Hc _ IH]; simpl; [done|]. by rewrite Hc.
Qed.

Lemma lstrip_head_ok s : head_ok s → lstrip s = s.
Proof. destruct s as [|c s]; simpl; [done|]. by intros ->. Qed.

Lemma lstrip_split s : ∃ pre, s = pre ++ lstrip s ∧ blank pre.
Proof.
  induction s as [|c s (pre & IH & Hpre)]; simpl.
  - exists []. split; [done | constructor].
  - destruct (is_space c) eqn:E.
    + exists (c :: pre). split; [simpl; congruence | by constructor].
    + exists []. split; [done | constructor].
Qed.

Lemma head_ok_lstrip s : head_ok (lstrip s).
Proof.
  induction s as [|c s IH]; simpl; [done|].
  destruct (is_space c) eqn:E; [done | simpl; done].
Qed.

Lemma blank_rev s : blank s → blank (rev s).
Proof. unfold blank. rewrite !Forall_forall. intros H x Hx. apply H.
       apply list_elem_of_In. apply list_elem_of_In in Hx. by apply in_rev. Qed.

Lemma rstrip_blank s post : blank post → rstrip (s ++ post) = rstrip s.
Proof.
  intros H. unfold rstrip. rewrite rev_app_distr.
  by rewrite lstrip_blank by by apply blank_rev.
Qed.

Lemma rstrip_split s : ∃ post, s = rstrip s ++ post ∧ blank post.
Proof.
  unfold rstrip. destruct (lstrip_split (rev s)) as (pre & E & Hpre).
  exists (rev pre). split; [|by apply blank_rev].
  rewrite <- rev_app_distr, <- E. by rewrite rev_involutive.
Qed.

Lemma strip_split s :
  ∃ pre post, s = pre ++ strip s ++ post ∧ blank pre ∧ blank post.
Proof.
  destruct (lstrip_split s) as (pre & E1 & Hpre).
  destruct (rstrip_split (lstrip s)) as (post & E2 & Hpost).
  exists pre, post. unfold strip. by rewrite <- E2.
Qed.

Lemma tight_strip s : tight (strip s).
Proof.
  unfold strip. split.
  - destruct (rstrip_split (lstrip s)) as (post & E & _).
    destruct (rstrip (lstrip s)) as [|c t] eqn:Er; [done|].
    pose proof (head_ok_lstrip s) as H. rewrite E in H. exact H.
  - unfold rstrip. rewrite rev_involutive. apply head_ok_lstrip.
Qed.

Lemma strip_unique pre mid post :
  blank pre → blank post → tight mid → strip (pre ++ mid ++ post) = mid.
Proof.
  intros Hpre Hpost [Hh Hl]. unfold strip. rewrite lstrip_blank by done.
  destruct mid as [|c m].
  - simpl. rewrite <- (app_nil_r post), lstrip_blank by done. done.
  - rewrite lstrip_head_ok by done. rewrite rstrip_blank by done.
    unfold rstrip. rewrite lstrip_head_ok by done. apply rev_involutive.
Qed.

Lemma strip_tight s : tight s → strip s = s.
Proof.
  intros H. rewrite <- (strip_unique [] s []) at 2; try done; try constructor.
  by rewrite app_nil_r.
Qed.

Lemma strip_idem s : strip (strip s) = strip s.
Proof. apply strip_tight, tight_strip. Qed.

End PyStrFacts.

(** ** The progress file *)

Module ProgressFacts.
Import PyStr Progress PyStrFacts.

(** A text that is empty or ends behind a line feed. *)
Definition closed (t : pystr) : Prop := t = [] ∨ ∃ a, t = a ++ [LF].

Definition closed_file (f : file) : Prop := closed (default [] f).

Lemma closed_save k f : closed_file (save_completed_keyword k f).
Proof. right. exists (default [] f ++ k). simpl. by rewrite <- app_assoc. Qed.

Lemma closed_saves ks f : closed_file f → closed_file (saves ks f).
Proof.
  revert f. induction ks as [|k ks IH]; intros f Hf; simpl; [done|].
  apply IH, closed_save.
Qed.

Lemma closed_missing : closed_file None.
Proof. by left. Qed.

Lemma un_length_ind (P : pystr → Prop) :
  P [] →
  (∀ c s, P s → (∀ d s', s = d :: s' → P s') → P (c :: s)) →
  ∀ s, P s.
Proof.
  intros H0 HS s.
  assert (H : P s ∧ ∀ d s', s = d :: s' → P s'); [|tauto].
  induction s as [|c s [IH1 IH2]]; [split; [done | intros; discriminate]|].
  split; [by apply HS|]. intros d s' [= <- <-]. done.
Qed.

Lemma un_no_CR s : CR ∉ s → universal_newlines s = s.
Proof.
  induction s as [|c s IH]; simpl; [done|].
  intros H. apply not_elem_of_cons in H as [Hc Hs].
  destruct (Ascii.eqb_spec c CR) as [->|_]; [done|]. by rewrite IH.
Qed.

Lemma un_app_closed a b :
  universal_newlines ((a ++ [LF]) ++ b)
  = universal_newlines (a ++ [LF]) ++ universal_newlines b.
Proof.
  revert a. apply (un_length_ind (fun a => _)).
  - done.
  - intros c s IH1 IH2. simpl.
    destruct (Ascii.eqb c CR).
    + destruct s as [|d s']; simpl; [done|].
      destruct (Ascii.eqb d LF).
      * simpl. f_equal. by apply (IH2 d s').
      * simpl in IH1. by rewrite IH1.
    + simpl. by rewrite IH1.
Qed.

Lemma un_closed a : ∃ t, universal_newlines (a ++ [LF]) = t ++ [LF].
Proof.
  revert a. apply (un_length_ind (fun a => _)).
  - by exists [].
  - intros c s [t IH1] IH2. simpl.
    destruct (Ascii.eqb c CR).
    + destruct s as [|d s']; simpl; [by exists []|].
      destruct (Ascii.eqb d LF).
      * destruct (IH2 d s' eq_refl) as [t' E]. exists (LF :: t').
        simpl. by rewrite E.
      * exists (LF :: t). simpl in IH1. simpl. by rewrite IH1.
    + exists (c :: t). simpl. by rewrite IH1.
Qed.

Lemma un_elem s c : c ∈ universal_newlines s → c = LF ∨ (c ∈ s ∧ c ≠ CR).
Proof.
  revert s. apply (un_length_ind (fun s => _ → _)).
  - simpl. by intros ?%elem_of_nil.
  - intros d s IH1 IH2. simpl.
    destruct (Ascii.eqb_spec d CR) as [->|Hd].
    + intros [->|H]%elem_of_cons; [by left|].
      destruct s as [|e s']; [by apply elem_of_nil in H|].
      destruct (Ascii.eqb e LF).
      * destruct (IH2 e s' eq_refl H) as [?|[? ?]]; [by left|].
        right. split; [|done]. by do 2 apply list_elem_of_further.
      * destruct (IH1 H) as [?|[? ?]]; [by left|].
        right. split; [|done]. by apply list_elem_of_further.
    + intros [->|H]%elem_of_cons.
      * right. split; [apply list_elem_of_here | done].
      * destruct (IH1 H) as [?|[? ?]]; [by left|].
        right. split; [|done]. by apply list_elem_of_further.
Qed.

Lemma readlines_nonempty c s : readlines (c :: s) ≠ [].
Proof.
  simpl. destruct (Ascii.eqb c LF); [done|]. by destruct (readlines s).
Qed.

Lemma readlines_app_closed a b :
  readlines ((a ++ [LF]) ++ b) = readlines (a ++ [LF]) ++ readlines b.
Proof.
  induction a as [|c a IH]; simpl; [done|].
  destruct (Ascii.eqb c LF); simpl; [by rewrite IH|].
  rewrite IH. destruct (readlines (a ++ [LF])) eqn:E; [|done].
  destruct a; by apply readlines_nonempty in E.
Qed.

Lemma readlines_single k : LF ∉ k → readlines (k ++ [LF]) = [k ++ [LF]].
Proof.
  induction k as [|c k IH]; simpl; [done|].
  intros H. apply not_elem_of_cons in H as [Hc Hk].
  destruct (Ascii.eqb_spec c LF) as [->|_]; [done|]. by rewrite IH.
Qed.

(** A line holds its line feed at the end and nowhere else. *)
Lemma readlines_shape u l :
  l ∈ readlines u →
  ∃ body, (l = body ∨ l = body ++ [LF]) ∧ (LF ∉ body)
          ∧ ∀ c, c ∈ body → c ∈ u.
Proof.
  revert l. induction u as [|c u IH]; simpl; intros l Hl.
  - by apply elem_of_nil in Hl.
  - destruct (Ascii.eqb_spec c LF) as [->|Hc].
    + apply elem_of_cons in Hl as [->|Hl].
      * exists []. split; [by right|]. split; [apply not_elem_of_nil|].
        by intros ? ?%elem_of_nil.
      * destruct (IH l Hl) as (body & Hb & Hn & Hs).
        exists body. repeat split; auto.
        intros x Hx. by apply list_elem_of_further, Hs.
    + destruct (readlines u) as [|l0 ls] eqn:E.
      * apply list_elem_of_singleton in Hl as ->.
        exists [c]. split; [by left|]. split.
        -- intros H%list_elem_of_singleton. congruence.
        -- intros x ->%list_elem_of_singleton. apply list_elem_of_here.
      * apply elem_of_cons in Hl as [->|Hl].
        -- destruct (IH l0) as (body & Hb & Hn & Hs); [apply list_elem_of_here|].
           exists (c :: body). split; [destruct Hb as [->| ->]; [by left | by right]|].
           split; [by apply not_elem_of_cons|].
           intros x [->|Hx]%elem_of_cons; [apply list_elem_of_here|].
           by apply list_elem_of_further, Hs.
        -- destruct (IH l) as (body & Hb & Hn & Hs);
             [by apply list_elem_of_further|].
           exists body. repeat split; auto.
           intros x Hx. by apply list_elem_of_further, Hs.
Qed.

Lemma blank_LF : blank [LF].
Proof. by repeat constructor. Qed.

Lemma strip_line k : strip (k ++ [LF]) = strip k.
Proof.
  destruct (strip_split k) as (pre & post & E & Hpre & Hpost).
  rewrite E at 1. rewrite <- !app_assoc.
  apply strip_unique; [done| |apply tight_strip].
  apply Forall_app. split; [done | apply blank_LF].
Qed.

Lemma strip_elem s c : c ∈ strip s → c ∈ s.
Proof.
  destruct (strip_split s) as (pre & post & E & _). intros H.
  rewrite E. apply elem_of_app. right. apply elem_of_app. by left.
Qed.

(** Saving a keyword adds its stripped form to what is loaded. *)
Lemma load_save k f :
  closed_file f → no_linebreak k →
  load_completed_keywords (save_completed_keyword k f)
  = load_completed_keywords f ∪ {[strip k]}.
Proof.
  intros Hf [HLF HCR]. unfold load_completed_keywords at 1,
    save_completed_keyword.
  assert (Hk : strip <$> readlines (universal_newlines (k ++ [LF]))
               = [strip k]).
  { rewrite un_no_CR.
    - rewrite readlines_single by done. simpl. by rewrite strip_line.
    - intros [H|H]%elem_of_app; [done|].
      by apply list_elem_of_singleton in H. }
  destruct Hf as [Hf|[a Hf]].
  - rewrite Hf. simpl. rewrite Hk.
    destruct f as [t|]; simpl in *; [subst t|]; simpl; set_solver.
  - rewrite Hf. rewrite un_app_closed.
    destruct (un_closed a) as [t Ht]. rewrite Ht, readlines_app_closed.
    rewrite fmap_app, Hk, list_to_set_app_L.
    destruct f as [t0|]; simpl in Hf; [subst t0|by destruct a].
    simpl. rewrite Ht. by rewrite (right_id_L ∅ (∪)).
Qed.

(** Whatever is loaded is stripped and holds no line break. *)
Lemma loaded_clean f x : x ∈ load_completed_keywords f → clean x.
Proof.
  destruct f as [t|]; simpl; [|by intros ?%elem_of_empty].
  rewrite elem_of_list_to_set, list_elem_of_fmap.
  intros (l & -> & Hl).
  apply readlines_shape in Hl as (body & Hb & Hn & Hs).
  assert (E : strip l = strip body).
  { destruct Hb as [->| ->]; [done | apply strip_line]. }
  rewrite E. split; [apply strip_idem|]. split.
  - intros H%strip_elem. done.
  - intros H%strip_elem. apply Hs, un_elem in H as [H|[_ H]]; done.
Qed.

End ProgressFacts.

(** ** The matcher finds words of its pattern *)

Module ReFacts.
Import PyStr Re.

(** Groups bound after a matcher ran: the old ones, or words of a
    group of the pattern. *)
Definition caps_from (icase : bool) (r : regex) (cs cs' : caps) : Prop :=
  ∀ n u, lookup_cap n cs' = Some u →
         lookup_cap n cs = Some u ∨ grp_lang icase r n u.

Lemma within_pred hi n :
  may_repeat hi = true → within (pred <$> hi) n → within hi (S n).
Proof.
  destruct hi as [[|h]|]; simpl; intros; try done; lia.
Qed.

Lemma within_0 hi : within hi 0.
Proof. destruct hi; simpl; [lia | done]. Qed.

Section Sound.
Context {A : Type}.
Variable icase : bool.

Definition sound_step (a : regex)
    (step : pystr → caps → @cont A → option A) : Prop :=
  ∀ s cs k x, step s cs k = Some x →
    ∃ w s' cs', s = w ++ s' ∧ lang icase a w ∧ k s' cs' = Some x
                ∧ caps_from icase a cs cs'.

Lemma rep_loop_sound a step :
  sound_step a step →
  ∀ fuel lo hi s cs k x,
    rep_loop step fuel lo hi s cs k = Some x →
    ∃ ws s' cs', s = concat ws ++ s' ∧ Forall (lang icase a) ws
                 ∧ lo ≤ length ws ∧ within hi (length ws)
                 ∧ k s' cs' = Some x ∧ caps_from icase a cs cs'.
Proof.
  intros Hstep.
  assert (Hleave : ∀ lo hi s cs (k : @cont A) x,
             match lo with 0 => k s cs | S _ => None end = Some x →
             ∃ ws s' cs', s = concat ws ++ s' ∧ Forall (lang icase a) ws
                 ∧ lo ≤ length ws ∧ within hi (length ws)
                 ∧ k s' cs' = Some x ∧ caps_from icase a cs cs').
  { intros [|lo] hi s cs k x H; [|done].
    exists [], s, cs. repeat split; auto using within_0.
    intros n u Hu. by left. }
  induction fuel as [|fuel IH]; intros lo hi s cs k x H; simpl in H.
  - by apply Hleave.
  - destruct (may_repeat hi) eqn:Hrep; [|by apply Hleave].
    match type of H with
    | match ?e with _ => _ end = _ => destruct e as [y|] eqn:Hs
    end; [|by apply Hleave].
    injection H as ->.
    apply Hstep in Hs as (w & s1 & cs1 & -> & Hw & Hk & Hc).
    destruct (length s1 <? length (w ++ s1)); [|done].
    apply IH in Hk as (ws & s' & cs' & -> & Hws & Hlo & Hhi & Hk & Hc').
    exists (w :: ws), s', cs'. simpl. rewrite <- app_assoc.
    repeat split; auto using within_pred; [lia|].
    intros n u Hu. destruct (Hc' n u Hu) as [H1|H1]; [|by right].
    by apply Hc.
Qed.

Lemma run_sound r : sound_step r (run icase r).
Proof.
  induction r as [|c|f|a IHa b IHb|a IHa b IHb|a IHa lo hi|n a IHa];
    intros s cs k x H; simpl in H.
  - exists [], s, cs. repeat split; auto. intros n u Hu; by left.
  - destruct s as [|y s]; [done|].
    destruct (chr_eq icase c y) eqn:E; [|done].
    exists [y], s, cs. repeat split; simpl; eauto.
    intros n u Hu; by left.
  - destruct s as [|y s]; [done|].
    destruct (f y) eqn:E; [|done].
    exists [y], s, cs. repeat split; simpl; eauto.
    intros n u Hu; by left.
  - apply IHa in H as (u & s1 & cs1 & -> & Hu & H & Hc1).
    apply IHb in H as (v & s2 & cs2 & -> & Hv & H & Hc2).
    exists (u ++ v), s2, cs2. rewrite <- app_assoc.
    repeat split; simpl; eauto.
    intros n w Hw. destruct (Hc2 n w Hw) as [H1|H1]; [|by right; right].
    destruct (Hc1 n w H1); [by left | by right; left].
  - destruct (run icase a s cs k) as [y|] eqn:E.
    + injection H as ->.
      apply IHa in E as (u & s1 & cs1 & -> & Hu & H & Hc1).
      exists u, s1, cs1. repeat split; simpl; auto.
      intros n w Hw. destruct (Hc1 n w Hw); [by left | by right; left].
    + apply IHb in H as (u & s1 & cs1 & -> & Hu & H & Hc1).
      exists u, s1, cs1. repeat split; simpl; auto.
      intros n w Hw. destruct (Hc1 n w Hw); [by left | by right; right].
  - apply (rep_loop_sound a _ IHa) in H
      as (ws & s' & cs' & -> & Hws & Hlo & Hhi & Hk & Hc).
    exists (concat ws), s', cs'. repeat split; simpl; eauto.
  - apply IHa in H as (u & s1 & cs1 & -> & Hu & H & Hc1).
    rewrite length_app, Nat.add_sub, take_app_length in H.
    exists u, s1, ((n, u) :: cs1). repeat split; simpl; auto.
    intros i w Hw. simpl in Hw. destruct (n =? i) eqn:E.
    + apply Nat.eqb_eq in E as ->. injection Hw as ->. right; by left.
    + destruct (Hc1 i w Hw); [by left | by right; right].
Qed.
End Sound.
End ReFacts.

(** ** Searching, and the words of the patterns *)

Module SearchFacts.
Import PyStr Re Parser PyStrFacts ReFacts.

Lemma match_here_sound icase r s rest cs :
  match_here icase r s = Some (rest, cs) →
  ∃ w, s = w ++ rest ∧ lang icase r w
       ∧ ∀ n u, lookup_cap n cs = Some u → grp_lang icase r n u.
Proof.
  unfold match_here. intros H.
  apply run_sound in H as (w & s' & cs' & -> & Hw & [= <- <-] & Hc).
  exists w. repeat split; auto.
  intros n u Hu. by destruct (Hc n u Hu).
Qed.

(** What [re.search] returns is the leftmost match: a word of the
    pattern that stands in the subject at [m_start], with no match
    starting further left. *)
Lemma found_here icase r s rest cs :
  match_here icase r s = Some (rest, cs) →
  s = take (length s - length rest) s ++ rest
  ∧ lang icase r (take (length s - length rest) s)
  ∧ ∀ n u, lookup_cap n cs = Some u → grp_lang icase r n u.
Proof.
  intros (w & -> & Hw & Hc)%match_here_sound.
  by rewrite length_app, Nat.add_sub, take_app_length.
Qed.

Lemma search_from_sound icase r i s m :
  search_from icase r i s = Some m →
  ∃ pre, s = pre ++ m_text m ++ m_rest m
         ∧ m_start m = i + length pre
         ∧ lang icase r (m_text m)
         ∧ (∀ n u, lookup_cap n (m_caps m) = Some u → grp_lang icase r n u)
         ∧ ∀ j, j < length pre → match_here icase r (drop j s) = None.
Proof.
  revert i. induction s as [|c s IH]; intros i; cbn [search_from];
    destruct (match_here icase r _) as [[rest cs]|] eqn:E; try done.
  - intros [= <-]. apply found_here in E as (E & Hw & Hc).
    exists []. cbn [m_text m_rest m_start m_caps length app].
    repeat split; auto; intros; lia.
  - intros [= <-]. apply found_here in E as (E & Hw & Hc).
    exists []. cbn [m_text m_rest m_start m_caps length app].
    repeat split; auto; intros; lia.
  - intros H. apply IH in H as (pre & Es & Hi & Hw & Hc & Hl).
    exists (c :: pre). simpl. rewrite <- Es.
    repeat split; auto; [lia|].
    intros [|j] Hj; simpl; [done|]. apply Hl. lia.
Qed.

Lemma search_sound icase r s m :
  search icase r s = Some m →
  ∃ pre, s = pre ++ m_text m ++ m_rest m
         ∧ m_start m = length pre
         ∧ lang icase r (m_text m)
         ∧ (∀ n u, lookup_cap n (m_caps m) = Some u → grp_lang icase r n u)
         ∧ ∀ j, j < length pre → match_here icase r (drop j s) = None.
Proof. apply search_from_sound. Qed.

(** *** Words of a repeated class *)

Definition all (f : ascii → bool) (w : pystr) : Prop :=
  Forall (fun c => f c = true) w.

Lemma lang_rep_cls icase f lo hi w :
  lang icase (Rep (Cls f) lo hi) w →
  all f w ∧ lo ≤ length w ∧ within hi (length w).
Proof.
  simpl. intros (ws & -> & Hws & Hlo & Hhi).
  assert (H : all f (concat ws) ∧ length (concat ws) = length ws).
  { clear Hlo Hhi. induction Hws as [|w ws (x & -> & Hx) _ [IH1 IH2]]; simpl.
    - split; [constructor | done].
    - split; [by constructor | by rewrite IH2]. }
  destruct H as [H1 H2]. by rewrite H2.
Qed.

(** *** [re.sub(r'\s+', '', s)] deletes the blanks *)

Lemma rep_loop_total {A} (step : pystr → caps → @cont A → option A)
    fuel hi s cs (k : @cont A) :
  (∀ s cs, is_Some (k s cs)) → is_Some (rep_loop step fuel 0 hi s cs k).
Proof.
  intros Hk. revert hi s cs.
  induction fuel as [|fuel IH]; intros hi s cs; simpl; [done|].
  destruct (may_repeat hi); [|done].
  by destruct (step s cs _).
Qed.

Lemma match_spaces_blank c s :
  is_space c = true → is_Some (match_here false spaces_re (c :: s)).
Proof.
  intros Hc. unfold match_here, spaces_re. simpl. rewrite Hc.
  rewrite (proj2 (Nat.ltb_lt _ _)) by lia.
  match goal with
  | |- context [rep_loop ?st ?fu 0 ?hi ?t ?cs ?k] =>
      destruct (rep_loop_total st fu hi t cs k) as [x Hx];
      [by eauto | by rewrite Hx]
  end.
Qed.

Lemma match_spaces_other c s :
  is_space c = false → match_here false spaces_re (c :: s) = None.
Proof.
  intros Hc. unfold match_here, spaces_re. simpl. by rewrite Hc.
Qed.

Definition not_space (c : ascii) : bool := negb (is_space c).

Lemma filter_blank w : all is_space w → List.filter not_space w = [].
Proof.
  induction 1 as [|c w Hc _ IH]; simpl; [done|].
  unfold not_space at 1. by rewrite Hc.
Qed.

Lemma filter_not_space_cons c s :
  List.filter not_space (c :: s)
  = if is_space c then List.filter not_space s
    else c :: List.filter not_space s.
Proof. simpl. unfold not_space at 1. by destruct (is_space c). Qed.

Lemma delete_spaces fuel s :
  length s ≤ fuel →
  delete_matches false spaces_re fuel s = List.filter not_space s.
Proof.
  revert s. induction fuel as [|fuel IH]; intros s Hs.
  - destruct s; [done | simpl in Hs; lia].
  - destruct s as [|c s]; [done|].
    rewrite filter_not_space_cons. cbn [delete_matches].
    simpl in Hs. destruct (is_space c) eqn:Hc.
    + destruct (match_spaces_blank c s Hc) as [[rest cs] E]. rewrite E.
      apply match_here_sound in E as (w & E & Hw & _).
      apply lang_rep_cls in Hw as (Hw & Hlen & _).
      destruct w as [|c' w]; [simpl in Hlen; lia|].
      injection E as <- ->. apply Forall_cons in Hw as [_ Hw].
      rewrite (proj2 (Nat.ltb_lt _ _)) by (simpl; rewrite length_app; lia).
      rewrite IH by (rewrite length_app in Hs; lia).
      rewrite List.filter_app, (filter_blank w Hw). done.
    + rewrite match_spaces_other by done.
      by rewrite IH by lia.
Qed.

Lemma sub_spaces s : sub_empty false spaces_re s = List.filter not_space s.
Proof. by apply delete_spaces. Qed.

End SearchFacts.

(** ** The three blocks of the parser *)

Module ParserFacts.
Import PyStr Re Parser.

(** The three groups of fields, one per [try] block. *)
Definition rating_fields (d : ListingData) :=
  (Rating d, Number_of_Reviews d, Category d).
Definition details_fields (d : ListingData) :=
  (Years_in_Business d, Phone_Number d, Address d).
(** What the rating block leaves alone, and what the details block. *)
Definition beside_rating (d : ListingData) :=
  (Keyword d, Name d, details_fields d).
Definition beside_details (d : ListingData) :=
  (Keyword d, Name d, rating_fields d).

Section Logic.
Context {B : Type} (proj : ListingData → B).

(** A statement that leaves a part of the dictionary as it was,
    however it ends. *)
Definition keeps {A} (m : M A) : Prop :=
  ∀ d, proj (fst (m d)) = proj d.

(** Two statements that do the same to a part of the dictionary,
    and end alike, whenever they start from dictionaries that agree
    on that part. *)
Definition alike {A} (m m' : M A) : Prop :=
  ∀ d d', proj d = proj d' →
          proj (fst (m d)) = proj (fst (m' d')) ∧ snd (m d) = snd (m' d').

Lemma keeps_ret {A} (a : A) : keeps (mret a).
Proof. by intros d. Qed.

Lemma keeps_lift {A} (r : result A) : keeps (lift r).
Proof. by intros d. Qed.

Lemma keeps_get : keeps get.
Proof. by intros d. Qed.

Lemma keeps_modify f : (∀ d, proj (f d) = proj d) → keeps (modify f).
Proof. intros H d. apply H. Qed.

Lemma keeps_bind {A C} (m : M A) (f : A → M C) :
  keeps m → (∀ a, keeps (f a)) → keeps (m ≫= f).
Proof.
  intros Hm Hf d. unfold mbind, M_bind. specialize (Hm d).
  destruct (m d) as [d1 [a|e]]; simpl in *; [|done].
  by rewrite Hf.
Qed.

Lemma keeps_try_pass m : keeps m → keeps (try_pass m).
Proof. intros H d. apply H. Qed.

Lemma alike_ret {A} (a : A) : alike (mret a) (mret a).
Proof. by intros d d' H. Qed.

Lemma alike_lift {A} (r : result A) : alike (lift r) (lift r).
Proof. by intros d d' H. Qed.

Lemma alike_modify f :
  (∀ d d', proj d = proj d' → proj (f d) = proj (f d')) →
  alike (modify f) (modify f).
Proof. intros H d d' E. split; [by apply H | done]. Qed.

Lemma alike_bind {A C} (m m' : M A) (f f' : A → M C) :
  alike m m' → (∀ a, alike (f a) (f' a)) → alike (m ≫= f) (m' ≫= f').
Proof.
  intros Hm Hf d d' E. unfold mbind, M_bind.
  destruct (Hm d d' E) as [E1 E2].
  destruct (m d) as [d1 r1], (m' d') as [d1' r1']; simpl in *. subst r1'.
  destruct r1 as [a|e]; [by apply Hf | done].
Qed.

Lemma alike_get_bind {C} (f f' : ListingData → M C) :
  (∀ x x', proj x = proj x' → alike (f x) (f' x')) →
  alike (get ≫= f) (get ≫= f').
Proof. intros H d d' E. unfold mbind, M_bind, get. by apply H. Qed.

Lemma keeps_alike {A} (m m' : M A) :
  keeps m → keeps m' → (∀ d d', snd (m d) = snd (m' d')) → alike m m'.
Proof. intros H H' Hs d d' E. split; [by rewrite H, H' | done]. Qed.
End Logic.

Ltac step_keeps :=
  first
    [ apply keeps_ret | apply keeps_lift | apply keeps_get
    | apply keeps_modify; intros; reflexivity
    | apply keeps_bind; [|intros ?]
    | match goal with
      | |- keeps _ (match ?x with _ => _ end) => destruct x
      end
    | progress cbv zeta ].
Ltac solve_keeps := cbv zeta; repeat step_keeps.

Ltac step_alike :=
  first
    [ apply alike_ret | apply alike_lift
    | apply alike_modify; intros [] [] ?;
      unfold rating_fields, details_fields in *; simpl in *; congruence
    | apply alike_bind; [|intros ?]
    | match goal with
      | |- alike _ (match ?x with _ => _ end) (match ?x with _ => _ end) =>
          destruct x
      end
    | progress cbv zeta ].
Ltac solve_alike := cbv zeta; repeat step_alike.

Lemma parse_unfold el k :
  parse_gmb_listing el k
  = Ok (fst (details_block el
          (fst (rating_block el (fst (name_block el (fresh k))))))).
Proof. reflexivity. Qed.

(** *** Line 204 *)

Lemma name_block_keeps el :
  keeps (fun d => (Keyword d, rating_fields d, details_fields d))
    (name_block el).
Proof. unfold name_block, set_Name. solve_keeps. Qed.

Lemma name_block_fresh el k :
  Name (fst (name_block el (fresh k)))
  = match name_span el with Ok n => Some n | Raise _ => None end.
Proof.
  unfold name_block, set_Name, mbind, M_bind, lift.
  by destruct (name_span el).
Qed.

(** *** Lines 207 to 211 *)

Lemma rating_block_keeps el : keeps beside_rating (rating_block el).
Proof.
  unfold rating_block, set_Rating, set_Number_of_Reviews, set_Category.
  solve_keeps.
Qed.

Lemma rating_block_alike el el' :
  rating_span el = rating_span el' →
  alike rating_fields (rating_block el) (rating_block el').
Proof.
  intros E. unfold rating_block, set_Rating, set_Number_of_Reviews,
    set_Category. rewrite <- E. solve_alike.
Qed.

Lemma rating_block_absent el e d :
  rating_span el = Raise e → fst (rating_block el d) = d.
Proof. unfold rating_block, mbind, M_bind, lift. by intros ->. Qed.

(** *** Lines 214 to 225 *)

Lemma div_texts_keeps divs : keeps id (div_texts divs).
Proof.
  induction divs as [|div rest IH]; simpl; solve_keeps; apply IH.
Qed.

Lemma div_texts_pure divs d : fst (div_texts divs d) = d.
Proof. apply (div_texts_keeps divs d). Qed.

Lemma div_texts_result divs d d' :
  snd (div_texts divs d) = snd (div_texts divs d').
Proof.
  revert d d'. induction divs as [|div rest IH]; intros d d'; simpl; [done|].
  unfold mbind, M_bind, lift. destruct div as [c|e]; [|done].
  destruct (truthy c); [|apply IH].
  pose proof (div_texts_pure rest d) as K1.
  pose proof (div_texts_pure rest d') as K2.
  specialize (IH d d').
  destruct (div_texts rest d) as [d1 r1], (div_texts rest d') as [d2 r2].
  simpl in *. subst. by destruct r2.
Qed.

Lemma address_loop_keeps divs :
  keeps (fun d => (beside_details d, Years_in_Business d, Phone_Number d))
    (address_loop divs).
Proof.
  induction divs as [|div rest IH]; simpl; unfold set_Address;
    solve_keeps; try apply IH.
  all: destruct (_ <? _); solve_keeps; apply IH.
Qed.

Lemma address_loop_alike divs :
  alike details_fields (address_loop divs) (address_loop divs).
Proof.
  induction divs as [|div rest IH]; simpl; unfold set_Address;
    [apply alike_ret|].
  apply alike_bind; [apply alike_lift | intros t]. cbv zeta.
  apply alike_get_bind. intros x x' [= E1 E2 E3].
  unfold skipped. rewrite E2.
  destruct (_ || _); [apply IH|].
  destruct (_ <? _); [|apply IH]. solve_alike.
Qed.

Lemma details_block_keeps el : keeps beside_details (details_block el).
Proof.
  unfold details_block, years_stmt, phone_stmt, set_Years_in_Business,
    set_Phone_Number.
  solve_keeps.
  - intros d. by rewrite div_texts_pure.
  - intros d.
    match goal with
    | |- context [address_loop ?l] =>
        pose proof (address_loop_keeps l d) as H
    end.
    by apply (f_equal (fun p => p.1.1)) in H.
Qed.

Lemma details_block_alike el el' :
  child_divs el = child_divs el' →
  alike details_fields (details_block el) (details_block el').
Proof.
  intros E. unfold details_block, years_stmt, phone_stmt,
    set_Years_in_Business, set_Phone_Number. rewrite <- E.
  solve_alike.
  - apply keeps_alike; try (intros d; by rewrite div_texts_pure).
    apply div_texts_result.
  - apply address_loop_alike.
Qed.

Lemma details_block_absent el e d :
  child_divs el = Raise e → fst (details_block el d) = d.
Proof. unfold details_block, mbind, M_bind, lift. by intros ->. Qed.

End ParserFacts.

(** ** Greedy repetition, and the years pattern *)

Module GreedyFacts.
Import PyStr Re Parser PyStrFacts ReFacts SearchFacts.







(** *** The years pattern *)

Definition plus_sign (c : ascii) : bool := chr_eq true "+" c.



End GreedyFacts.

(** ** The phone pattern *)

Module PhoneFacts.
Import PyStr Re Parser PyStrFacts ReFacts SearchFacts GreedyFacts ParserFacts.

Definition digit_or_space (c : ascii) : bool := is_digit c || is_space c.

(** The three shapes of a phone token: five digits, a blank, five
    digits; ten digits; eight or more digits and blanks. *)
Definition grouped_digit_token (w : pystr) : Prop :=
  (∃ a s b, w = a ++ [s] ++ b ∧ length a = 5 ∧ all is_digit a
            ∧ is_space s = true ∧ length b = 5 ∧ all is_digit b)
  ∨ (length w = 10 ∧ all is_digit w)
  ∨ (8 ≤ length w ∧ all digit_or_space w).

Lemma lang_seq icase a b w :
  lang icase (Seq a b) w
  ↔ ∃ u v, w = u ++ v ∧ lang icase a u ∧ lang icase b v.
Proof. done. Qed.

Lemma lang_alt icase a b w :
  lang icase (Alt a b) w ↔ lang icase a w ∨ lang icase b w.
Proof. done. Qed.

Lemma lang_cls icase f w :
  lang icase (Cls f) w ↔ ∃ x, w = [x] ∧ f x = true.
Proof. done. Qed.

Lemma lang_grp icase n a w : lang icase (Grp n a) w ↔ lang icase a w.
Proof. done. Qed.

Lemma phone_lang w : lang false phone_re w → grouped_digit_token w.
Proof.
  unfold phone_re, digit, space.
  intros [H|[H|H]%lang_alt]%lang_grp%lang_alt.
  - apply lang_seq in H as (a & v & -> & Ha & H).
    apply lang_seq in H as (s & b & -> & Hs & Hb).
    apply lang_cls in Hs as (x & -> & Hx).
    apply lang_rep_cls in Ha as (Ha & Ha1 & Ha2).
    apply lang_rep_cls in Hb as (Hb & Hb1 & Hb2). simpl in *.
    left. exists a, x, b. repeat split; auto; lia.
  - apply lang_rep_cls in H as (H & H1 & H2). simpl in *.
    right; left. split; [lia | done].
  - apply lang_rep_cls in H as (H & H1 & _).
    right; right. by split.
Qed.

Lemma digit_not_space c : is_digit c = true → is_space c = false.
Proof.
  unfold is_space, is_digit, code.
  destruct c as [[] [] [] [] [] [] [] []]; vm_compute; done.
Qed.

Lemma token_chars w : grouped_digit_token w → all digit_or_space w.
Proof.
  assert (Hd : ∀ u, all is_digit u → all digit_or_space u).
  { intros u Hu. eapply Forall_impl; [exact Hu|].
    intros c Hc. unfold digit_or_space. simpl in Hc. by rewrite Hc. }
  intros [(a & s & b & -> & _ & Ha & Hs & _ & Hb)|[[_ H]|[_ H]]]; auto.
  apply Forall_app. split; [by apply Hd|].
  apply Forall_app. split; [|by apply Hd].
  constructor; [|constructor]. unfold digit_or_space. rewrite Hs.
  apply orb_true_r.
Qed.

(** With the blanks deleted, what is left of a token is its digits. *)
Lemma digits_only w :
  all digit_or_space w → List.filter not_space w = List.filter is_digit w.
Proof.
  induction 1 as [|c w Hc _ IH]; simpl; [done|].
  unfold not_space at 1. unfold digit_or_space in Hc.
  destruct (is_digit c) eqn:Hd.
  - rewrite (digit_not_space c Hd). simpl. by rewrite IH.
  - simpl in Hc. rewrite Hc. simpl. done.
Qed.

Lemma strip_digits w : strip (List.filter is_digit w) = List.filter is_digit w.
Proof.
  apply strip_tight.
  assert (H : ∀ u, Forall (fun c => is_digit c = true) u → head_ok u).
  { intros [|c u] Hu; simpl; [done|].
    apply Forall_cons in Hu as [Hc _]. by apply digit_not_space. }
  split; apply H.
  - apply Forall_forall. intros c Hc%list_elem_of_In.
    by apply List.filter_In in Hc as [_ Hc].
  - apply Forall_forall. intros c Hc%list_elem_of_In.
    apply in_rev in Hc. by apply List.filter_In in Hc as [_ Hc].
Qed.

(** The length the plausibility test of line 219 looks at. *)
Lemma phone_test w :
  grouped_digit_token w →
  strip (sub_empty false spaces_re w) = List.filter is_digit w.
Proof.
  intros H%token_chars. rewrite sub_spaces, digits_only by done.
  apply strip_digits.
Qed.

End PhoneFacts.

(** ** The third block on readable child blocks *)

Module DetailsFacts.
Import PyStr Re Parser PyStrFacts ReFacts SearchFacts GreedyFacts ParserFacts PhoneFacts.

(** Line 215: the texts of the child blocks that have one, joined by
    blanks. *)
Definition full_text (texts : list pystr) : pystr :=
  join (str " ") (List.filter truthy texts).

(** What line 216 stores, and what lines 217 to 219 store. *)
Definition years_value (ft : pystr) : option pystr :=
  match search true years_re ft with
  | Some y_match => group 1 y_match
  | None => None
  end.

Definition phone_value (ft : pystr) : option pystr :=
  match search false phone_re ft with
  | Some p_match =>
      if 8 <=? length (strip (sub_empty false spaces_re (m_text p_match)))
      then Some (strip (m_text p_match))
      else None
  | None => None
  end.

Lemma div_texts_ok texts d :
  div_texts (Ok <$> texts) d = (d, Ok (List.filter truthy texts)).
Proof.
  revert d. induction texts as [|t texts IH]; intros d; [done|].
  cbn [fmap list_fmap div_texts List.filter].
  unfold mbind, M_bind, lift. destruct (truthy t); [|apply IH].
  by rewrite IH.
Qed.

Lemma years_stmt_spec ft d :
  ∃ d', years_stmt ft d = (d', Ok tt)
        ∧ beside_details d' = beside_details d
        ∧ Phone_Number d' = Phone_Number d ∧ Address d' = Address d
        ∧ (Years_in_Business d = None →
           Years_in_Business d' = years_value ft).
Proof.
  unfold years_stmt, years_value, set_Years_in_Business, modify.
  destruct (search true years_re ft); eexists; (split; [reflexivity|]);
    by repeat split.
Qed.

Lemma phone_stmt_spec ft d :
  ∃ d', phone_stmt ft d = (d', Ok tt)
        ∧ beside_details d' = beside_details d
        ∧ Years_in_Business d' = Years_in_Business d
        ∧ Address d' = Address d
        ∧ (Phone_Number d = None → Phone_Number d' = phone_value ft).
Proof.
  unfold phone_stmt, phone_value, set_Phone_Number, modify.
  destruct (search false phone_re ft); [|by eexists].
  destruct (8 <=? _); eexists; (split; [reflexivity|]); by repeat split.
Qed.

(** The dictionary that reaches the third block. *)
Lemma before_details el k :
  details_fields (fst (rating_block el (fst (name_block el (fresh k)))))
  = (None, None, None).
Proof.
  pose proof (rating_block_keeps el (fst (name_block el (fresh k)))) as H1.
  pose proof (name_block_keeps el (fresh k)) as H2.
  apply (f_equal snd) in H1. apply (f_equal snd) in H2.
  simpl in *. by rewrite H1, H2.
Qed.

(** A fragment whose child blocks can all be read. *)
Lemma parse_details el k texts :
  child_divs el = Ok (Ok <$> texts) →
  ∃ r, parse_gmb_listing el k = Ok r
       ∧ Years_in_Business r = years_value (full_text texts)
       ∧ Phone_Number r = phone_value (full_text texts).
Proof.
  intros Hd. rewrite parse_unfold. eexists. split; [reflexivity|].
  pose proof (before_details el k) as H0.
  set (d2 := fst (rating_block el (fst (name_block el (fresh k))))) in *.
  injection H0 as Hy Hp Ha.
  destruct (years_stmt_spec (full_text texts) d2)
    as (d3 & E3 & _ & Hp3 & _ & Hy3).
  destruct (phone_stmt_spec (full_text texts) d3)
    as (d4 & E4 & _ & Hy4 & _ & Hp4).
  assert (E : fst (details_block el d2)
              = fst (address_loop (Ok <$> texts) d4)).
  { unfold details_block. rewrite Hd. unfold mbind, M_bind, lift.
    rewrite div_texts_ok. fold (full_text texts). by rewrite E3, E4. }
  rewrite E.
  pose proof (address_loop_keeps (Ok <$> texts) d4) as K.
  pose proof (f_equal (fun p => p.1.2) K) as K1.
  pose proof (f_equal snd K) as K2. simpl in K1, K2.
  rewrite K1, K2, Hy4, Hy3, Hp4 by congruence. done.
Qed.

(** Every field of the record, block by block: the keyword is the one
    passed in, and the fields of a block are what that block alone
    stores in a fresh dictionary. *)
Lemma parse_fields el k :
  ∃ r, parse_gmb_listing el k = Ok r
       ∧ Keyword r = k
       ∧ Name r = match name_span el with Ok n => Some n | Raise _ => None end
       ∧ rating_fields r = rating_fields (fst (rating_block el (fresh [])))
       ∧ details_fields r
         = details_fields (fst (details_block el (fresh []))).
Proof.
  rewrite parse_unfold. eexists. split; [reflexivity|].
  set (d1 := fst (name_block el (fresh k))).
  set (d2 := fst (rating_block el d1)).
  pose proof (name_block_keeps el (fresh k)) as K1. fold d1 in K1.
  pose proof (rating_block_keeps el d1) as K2. fold d2 in K2.
  pose proof (details_block_keeps el d2) as K3.
  pose proof (f_equal (fun p => p.1.1) K1) as K1k.
  pose proof (f_equal (fun p => p.1.2) K1) as K1r.
  pose proof (f_equal (fun p => p.1.1) K2) as K2k.
  pose proof (f_equal (fun p => p.1.2) K2) as K2n.
  pose proof (f_equal (fun p => p.1.1) K3) as K3k.
  pose proof (f_equal (fun p => p.1.2) K3) as K3n.
  pose proof (f_equal snd K3) as K3r.
  simpl in K1k, K1r, K2k, K2n, K3k, K3n, K3r.
  repeat split.
  - by rewrite K3k, K2k, K1k.
  - rewrite K3n, K2n. apply name_block_fresh.
  - rewrite K3r.
    apply (rating_block_alike el el eq_refl). by rewrite K1r.
  - apply (details_block_alike el el eq_refl).
    unfold d2, d1. by rewrite before_details.
Qed.

End DetailsFacts.

(** ** The record of a listing *)

Module ParserClaims.
Import PyStr Re Parser PyStrFacts ReFacts SearchFacts GreedyFacts ParserFacts PhoneFacts DetailsFacts.

(** *** The inputs of the examples *)

(** ['4.5 (1,234) · Plumber'] *)
Definition rating_line_example : pystr :=
  str "4.5 (1,234) " ++ [middle_dot] ++ str " Plumber".

(** A listing with a name, that rating line and three child blocks. *)
Definition listing_example : WebElement :=
  MkElement (Ok (str "Acme Plumbing")) (Ok rating_line_example)
    (Ok [Ok (str "Acme Plumbing"); Ok (str "12 years in business");
         Ok (str "98765 43210")]).

(** A listing whose second child block has gone stale. *)
Definition stale_blocks : list (result pystr) :=
  [Ok (str "221B Baker Street, London");
   Raise StaleElementReferenceException].

Definition listing_stale : WebElement :=
  MkElement (Ok (str "Baker Street Plumbing"))
    (Raise NoSuchElementException) (Ok stale_blocks).

(** A rating line whose review count has 4301 digits. *)
Definition rating_line_long : pystr :=
  str "4.5 (" ++ repeat "1"%char 4301 ++ str ") " ++ [middle_dot]
  ++ str " Plumber".

Definition listing_long_count : WebElement :=
  MkElement (Ok (str "Acme Plumbing")) (Ok rating_line_long) (Ok []).

(** Child blocks ['Call'] and ['98765 43210']. *)
Definition texts_call : list pystr := [str "Call"; str "98765 43210"].

Definition listing_call : WebElement :=
  MkElement (Ok (str "Acme Plumbing")) (Raise NoSuchElementException)
    (Ok (Ok <$> texts_call)).





Definition kw : pystr := str "plumbers near me".

(** *** Claim C3 *)

(** C3, as the code has it: [parse_gmb_listing] never raises and always
    returns a record that carries the keyword.  Its fault tolerance
    goes by [try] block, not by field: a failed look-up of the name
    leaves the name absent, a failed look-up of the rating line (for
    one, a fragment without that sub-element) leaves the rating, the
    review count and the category absent, a failed look-up of the child
    blocks leaves the years, the phone number and the address absent,
    and the fields of a block depend on nothing but what that block
    looks up, so that no failure in one block reaches another. *)
Theorem parse_gmb_listing_fault_tolerance (el : WebElement) (k : pystr) :
  ∃ r, parse_gmb_listing el k = Ok r
    ∧ Keyword r = k
    ∧ Name r = match name_span el with Ok n => Some n | Raise _ => None end
    ∧ (∀ e, rating_span el = Raise e →
            Rating r = None ∧ Number_of_Reviews r = None
            ∧ Category r = None)
    ∧ (∀ e, child_divs el = Raise e →
            Years_in_Business r = None ∧ Phone_Number r = None
            ∧ Address r = None)
    ∧ (∀ el' k' r', parse_gmb_listing el' k' = Ok r' →
         (name_span el' = name_span el → Name r' = Name r)
         ∧ (rating_span el' = rating_span el →
            rating_fields r' = rating_fields r)
         ∧ (child_divs el' = child_divs el →
            details_fields r' = details_fields r)).
Proof.
  destruct (parse_fields el k) as (r & Hr & Hk & Hn & Hrf & Hdf).
  exists r. repeat split; try done.
  - rewrite (rating_block_absent _ _ _ H) in Hrf. by injection Hrf.
  - rewrite (rating_block_absent _ _ _ H) in Hrf. by injection Hrf.
  - rewrite (rating_block_absent _ _ _ H) in Hrf. by injection Hrf.
  - rewrite (details_block_absent _ _ _ H) in Hdf. by injection Hdf.
  - rewrite (details_block_absent _ _ _ H) in Hdf. by injection Hdf.
  - rewrite (details_block_absent _ _ _ H) in Hdf. by injection Hdf.
  - destruct (parse_fields el' k') as (r2 & Hr2 & _ & Hn2 & _).
    intros E. rewrite Hr2 in H. injection H as <-.
    by rewrite Hn, Hn2, E.
  - destruct (parse_fields el' k') as (r2 & Hr2 & _ & _ & Hrf2 & _).
    intros E. rewrite Hr2 in H. injection H as <-.
    rewrite Hrf, Hrf2. by apply rating_block_alike.
  - destruct (parse_fields el' k') as (r2 & Hr2 & _ & _ & _ & Hdf2).
    intros E. rewrite Hr2 in H. injection H as <-.
    rewrite Hdf, Hdf2. by apply details_block_alike.
Qed.

(** C3 as it is written fails where one child block cannot be read:
    the scan for the address, run by itself, finds the address in the
    first block and never touches the second, yet the record has no
    address, because collecting the text for the years and the phone
    number has ended the whole block. *)
Lemma stale_child_block_loses_address :
  (∃ r, parse_gmb_listing listing_stale kw = Ok r
        ∧ Name r = Some (str "Baker Street Plumbing")
        ∧ Address r = None)
  ∧ Address (fst (address_loop stale_blocks (fresh kw)))
    = Some (str "221B Baker Street, London").
Proof.
  split; [|by vm_compute].
  eexists. split; [by vm_compute|]. by vm_compute.
Qed.

(** The same inside the second block: when the conversion of the
    review count raises, the rating stored before stays, and the
    category, which comes after, is never stored. *)
Example long_review_count_loses_category :
  ∃ r, parse_gmb_listing listing_long_count kw = Ok r
       ∧ Rating r = Some (9 # 2)
       ∧ Number_of_Reviews r = None
       ∧ Category r = None.
Proof. eexists. split; [by vm_compute|]. by vm_compute. Qed.

(** *** Claim C6 *)

(** C6: for the rating line ['4.5 (1,234) · Plumber'] the record has
    the rating 4.5 (as the fraction 9/2), the review count 1234 and the
    category ['Plumber'], whatever else the fragment holds. *)
Theorem rating_line_example_fields (el : WebElement) (k : pystr) :
  rating_span el = Ok rating_line_example →
  ∃ r, parse_gmb_listing el k = Ok r
       ∧ Rating r = Some (9 # 2)
       ∧ Number_of_Reviews r = Some 1234%Z
       ∧ Category r = Some (str "Plumber").
Proof.
  intros H. destruct (parse_fields el k) as (r & Hr & _ & _ & Hrf & _).
  exists r. split; [done|].
  rewrite (proj1 (rating_block_alike el listing_example H
                    (fresh []) (fresh []) eq_refl)) in Hrf.
  vm_compute in Hrf. by injection Hrf.
Qed.

Lemma rating_line_example_witness :
  rating_span listing_example = Ok rating_line_example
  ∧ ∃ r, parse_gmb_listing listing_example kw = Ok r
         ∧ Rating r = Some (9 # 2)
         ∧ Number_of_Reviews r = Some 1234%Z
         ∧ Category r = Some (str "Plumber").
Proof.
  split; [reflexivity|].
  apply (rating_line_example_fields listing_example kw). reflexivity.
Defined.

(** *** Claim C4 *)

(** C4, as the code has it: the phone rule looks at the leftmost
    grouped-digit token of the concatenated child text (five digits, a
    blank, five digits; ten digits; or eight and more digits and
    blanks), takes it only if it holds eight digits or more, and stores
    the token with the blanks at its two ends removed, the blanks
    inside kept; a token that fails the test leaves the field absent. *)
Theorem phone_number_rule (el : WebElement) (k : pystr)
    (texts : list pystr) :
  child_divs el = Ok (Ok <$> texts) →
  ∃ r, parse_gmb_listing el k = Ok r
    ∧ match search false phone_re (full_text texts) with
      | None => Phone_Number r = None
      | Some m =>
          grouped_digit_token (m_text m)
          ∧ (∃ before,
               full_text texts = before ++ m_text m ++ m_rest m
               ∧ ∀ j, j < length before →
                      match_here false phone_re (drop j (full_text texts))
                      = None)
          ∧ Phone_Number r
            = if 8 <=? length (List.filter is_digit (m_text m))
              then Some (strip (m_text m)) else None
      end.
Proof.
  intros Hd. destruct (parse_details el k texts Hd) as (r & Hr & _ & Hp).
  exists r. split; [done|]. unfold phone_value in Hp.
  destruct (search false phone_re (full_text texts)) as [m|] eqn:Hs; [|done].
  apply search_sound in Hs as (before & E & _ & Hw & _ & Hl).
  apply phone_lang in Hw. repeat split; [done|by exists before|].
  by rewrite phone_test in Hp.
Qed.

Lemma phone_number_rule_witness :
  child_divs listing_call = Ok (Ok <$> texts_call)
  ∧ ∃ r, parse_gmb_listing listing_call kw = Ok r
      ∧ match search false phone_re (full_text texts_call) with
        | None => Phone_Number r = None
        | Some m =>
            grouped_digit_token (m_text m)
            ∧ (∃ before,
                 full_text texts_call = before ++ m_text m ++ m_rest m
                 ∧ ∀ j, j < length before →
                        match_here false phone_re
                          (drop j (full_text texts_call)) = None)
            ∧ Phone_Number r
              = if 8 <=? length (List.filter is_digit (m_text m))
                then Some (strip (m_text m)) else None
        end.
Proof.
  split; [reflexivity|].
  apply (phone_number_rule listing_call kw texts_call). reflexivity.
Defined.

(** C4 as it is written fails on the child blocks ['Call'] and
    ['98765 43210']: the match starts at the blank that joins them, and
    what is stored is not the matched text but the matched text
    stripped. *)
Lemma phone_number_is_stripped :
  ∃ m r, search false phone_re (full_text texts_call) = Some m
         ∧ m_text m = str " 98765 43210"
         ∧ parse_gmb_listing listing_call kw = Ok r
         ∧ Phone_Number r = Some (str "98765 43210")
         ∧ Phone_Number r ≠ Some (m_text m).
Proof.
  do 2 eexists. split; [by vm_compute|]. split; [by vm_compute|].
  split; [by vm_compute|]. by vm_compute.
Qed.

(** *** Claim C7 *)





Lemma grp_lang_Lit icase w n u : ¬ grp_lang icase (Lit w) n u.
Proof. induction w as [|c w IH]; simpl; tauto. Qed.

(** What the rule captures, whenever it captures: digits, and at most
    one plus sign behind them. *)
Lemma years_token_shape (ft g : pystr) :
  years_value ft = Some g →
  ∃ ds p, g = ds ++ p ∧ all is_digit ds ∧ ds ≠ []
          ∧ (p = [] ∨ ∃ c, p = [c] ∧ plus_sign c = true).
Proof.
  unfold years_value.
  destruct (search true years_re ft) as [m|] eqn:Hs; [|done].
  apply search_sound in Hs as (_ & _ & _ & _ & Hc & _).
  intros Hg. apply Hc in Hg. unfold years_re, digit in Hg.
  remember (Lit (str "years in business")) as L eqn:HL.
  cbn [grp_lang] in Hg.
  destruct Hg as [[[_ Hg]|[[]|[]]]|[[]|[[]|Hg]]];
    [|subst L; by apply grp_lang_Lit in Hg].
  apply lang_seq in Hg as (ds & p & -> & Hds & Hp).
  apply lang_rep_cls in Hds as (Hds & Hlen & _).
  exists ds, p. repeat split; [done|by destruct ds; simpl in Hlen; [lia|]|].
  destruct Hp as (ws & -> & Hws & _ & Hhi). simpl in Hhi.
  destruct ws as [|w [|w' ws]]; simpl in *; [by left| |lia].
  apply Forall_cons in Hws as [(c & -> & Hc') _].
  right. exists c. by rewrite app_nil_r.
Qed.

End ParserClaims.

(** ** Saving and loading keywords *)

Module ProgressClaims.
Import PyStr Progress PyStrFacts ProgressFacts.

Definition plumbers : pystr := str "plumbers near me".

(** A keyword of two lines, as a cell with a line break gives it. *)
Definition two_lines : pystr := str "plumbers" ++ [LF] ++ str "near me".

Lemma clean_plumbers : clean plumbers.
Proof.
  split; [by vm_compute|]. split; intros H%list_elem_of_In; vm_compute in H;
    repeat (destruct H as [H|H]; [discriminate|]); done.
Qed.

(** *** Claim C9 *)

(** C9, as the code has it: loading a missing progress file gives the
    empty set; and for a keyword with no blank at either end and no
    line break in it, saving it twice and loading gives a set that
    holds the keyword, the two lines of the file having become one
    member: from a missing file the set is the singleton of the
    keyword, and after any saves before, the second save adds nothing
    to what is loaded after the first. *)
Theorem save_twice_load_once (k : pystr) (before : list pystr) :
  clean k →
  load_completed_keywords None = ∅
  ∧ load_completed_keywords
      (save_completed_keyword k (save_completed_keyword k None)) = {[k]}
  ∧ size (load_completed_keywords
            (save_completed_keyword k (save_completed_keyword k None))) = 1
  ∧ k ∈ load_completed_keywords
          (save_completed_keyword k
             (save_completed_keyword k (saves before None)))
  ∧ load_completed_keywords
      (save_completed_keyword k
         (save_completed_keyword k (saves before None)))
    = load_completed_keywords
        (save_completed_keyword k (saves before None)).
Proof.
  intros [Hs Hl].
  assert (H1 : ∀ f, closed_file f →
             load_completed_keywords (save_completed_keyword k f)
             = load_completed_keywords f ∪ {[k]}).
  { intros f Hf. by rewrite load_save, Hs. }
  assert (Hc : closed_file (saves before None)).
  { apply closed_saves, closed_missing. }
  assert (H0 : load_completed_keywords
                 (save_completed_keyword k (save_completed_keyword k None))
               = {[k]}).
  { rewrite !H1 by (try apply closed_save; apply closed_missing).
    change (load_completed_keywords None) with (∅ : gset pystr).
    by rewrite union_empty_l_L, union_idemp_L. }
  split; [done|]. split; [done|].
  split; [by rewrite H0, size_singleton|].
  rewrite (H1 (save_completed_keyword k _)) by apply closed_save.
  rewrite (H1 (saves before None)) by done.
  split.
  - apply elem_of_union. right. by apply elem_of_singleton.
  - by rewrite <- union_assoc_L, union_idemp_L.
Qed.

Lemma save_twice_load_once_witness :
  clean plumbers
  ∧ load_completed_keywords
      (save_completed_keyword plumbers
         (save_completed_keyword plumbers None)) = {[plumbers]}.
Proof.
  split; [exact clean_plumbers|].
  exact (proj1 (proj2 (save_twice_load_once plumbers [] clean_plumbers))).
Defined.

(** C9 as it is written fails for a keyword with a line break in it:
    saved twice and loaded, the set holds its two lines and not the
    keyword. *)
Lemma save_twice_two_lines :
  load_completed_keywords
    (save_completed_keyword two_lines
       (save_completed_keyword two_lines None))
  = {[str "plumbers"; str "near me"]}
  ∧ two_lines ∉ load_completed_keywords
                  (save_completed_keyword two_lines
                     (save_completed_keyword two_lines None)).
Proof.
  split.
  - unfold load_completed_keywords, save_completed_keyword.
    match goal with
    | |- list_to_set ?l = _ =>
        let l' := eval vm_compute in l in change l with l'
    end.
    apply set_eq. intros x.
    rewrite elem_of_list_to_set, elem_of_union, !elem_of_singleton.
    rewrite !elem_of_cons, elem_of_nil. tauto.
  - intros [_ [H _]]%loaded_clean. apply H.
    unfold two_lines. apply elem_of_app. right. apply list_elem_of_here.
Qed.

(** *** Claim C10 *)


End ProgressClaims.

(** ** The CAPTCHA wait *)

Module CaptchaFacts.
Import PyStr Parser Progress Notify Captcha Orchestrator.

Lemma alerts_app evs evs' : alerts (evs ++ evs') = alerts evs + alerts evs'.
Proof. unfold alerts. by rewrite List.filter_app, length_app. Qed.

Lemma emails_app evs evs' : emails (evs ++ evs') = emails evs + emails evs'.
Proof. unfold emails. by rewrite List.filter_app, length_app. Qed.

Lemma alerts_alert cfg kw sent :
  alerts (alert cfg kw sent) = if sent then 0 else 1.
Proof.
  unfold alert, send_error_email.
  destruct sent; [done|]. by destruct (ENABLE_EMAIL_NOTIFICATIONS cfg).
Qed.

Lemma emails_alert cfg kw sent :
  emails (alert cfg kw sent)
  = if ENABLE_EMAIL_NOTIFICATIONS cfg then alerts (alert cfg kw sent) else 0.
Proof.
  unfold alert, send_error_email.
  destruct sent; [by destruct (ENABLE_EMAIL_NOTIFICATIONS cfg)|].
  by destruct (ENABLE_EMAIL_NOTIFICATIONS cfg).
Qed.

(** The alert still owed when the loop is entered. *)
Definition owed (sent : bool) (rounds : nat) : nat :=
  if sent then 0 else Nat.min rounds 1.

(** What the loop does from round [j] on. *)
Lemma wait_loop_spec cfg env kw fuel :
  ∀ j sent,
    let '(evs, r) := wait_loop cfg env kw fuel j sent in
    emails evs
    = (if ENABLE_EMAIL_NOTIFICATIONS cfg then alerts evs else 0)
    ∧ match r with
      | Some true =>
          ∃ n, j ≤ n ∧ (∀ i, j ≤ i ≤ n → in_time cfg env i)
               ∧ (∀ i, j ≤ i < n → iframe_present env i = true)
               ∧ iframe_present env n = false
               ∧ alerts evs = owed sent (n - j)
      | Some false =>
          ∃ n, j ≤ n
               ∧ (∀ i, j ≤ i < n →
                       in_time cfg env i ∧ iframe_present env i = true)
               ∧ ¬ in_time cfg env n
               ∧ alerts evs = owed sent (n - j)
      | None =>
          (∀ i, j ≤ i < j + fuel →
                in_time cfg env i ∧ iframe_present env i = true)
          ∧ alerts evs = owed sent fuel
      end.
Proof.
  induction fuel as [|fuel IH]; intros j sent; simpl.
  - split; [by destruct (ENABLE_EMAIL_NOTIFICATIONS cfg)|].
    split; [intros; lia | by destruct sent].
  - destruct (Z.ltb_spec (clock env (S j) - clock env 0)
                (CAPTCHA_WAIT_TIMEOUT cfg)) as [Ht|Ht].
    + destruct (iframe_present env j) eqn:Hf; simpl.
      * specialize (IH (S j) true).
        destruct (wait_loop cfg env kw fuel (S j) true) as [evs' r].
        destruct IH as [He IH].
        rewrite emails_app, alerts_app, emails_alert, He, alerts_alert.
        split; [by destruct (ENABLE_EMAIL_NOTIFICATIONS cfg), sent|].
        destruct r as [[|]|].
        -- destruct IH as (n & Hn & Hin & Hpr & Hab & Ha).
           exists n. repeat split; try done; try lia.
           ++ intros i Hi. destruct (decide (i = j)) as [->|]; [done|].
              apply Hin. lia.
           ++ intros i Hi. destruct (decide (i = j)) as [->|]; [done|].
              apply Hpr. lia.
           ++ rewrite Ha. unfold owed. destruct sent; [done|].
              destruct (n - j) as [|m] eqn:E; [lia|]. simpl.
              by destruct m.
        -- destruct IH as (n & Hn & Hin & Hout & Ha).
           exists n. repeat split; try done; try lia.
           ++ destruct (decide (i = j)) as [->|]; [done|].
              apply Hin. lia.
           ++ destruct (decide (i = j)) as [->|]; [done|].
              apply Hin. lia.
           ++ rewrite Ha. unfold owed. destruct sent; [done|].
              destruct (n - j) as [|m] eqn:E; [lia|]. simpl.
              by destruct m.
        -- destruct IH as (Hin & Ha).
           repeat split.
           ++ destruct (decide (i = j)) as [->|]; [done|].
              apply Hin. lia.
           ++ destruct (decide (i = j)) as [->|]; [done|].
              apply Hin. lia.
           ++ rewrite Ha. unfold owed. destruct sent; [done|]. simpl.
              by destruct fuel.
      * split; [by destruct (ENABLE_EMAIL_NOTIFICATIONS cfg)|].
        exists j. repeat split; try done; try lia.
        -- intros i Hi. by replace i with j by lia.
        -- rewrite Nat.sub_diag. by destruct sent.
    + split; [by destruct (ENABLE_EMAIL_NOTIFICATIONS cfg)|].
      exists j. repeat split; try done; try lia.
      * unfold in_time. lia.
      * rewrite Nat.sub_diag. by destruct sent.
Qed.



End CaptchaFacts.

(** ** The pagination loop *)

Module PaginationFacts.
Import PyStr Parser Progress Notify Captcha Orchestrator CaptchaFacts ParserFacts DetailsFacts.

(** The pagination loop goes no further than a page without listings,
    and no further than a page on which the search for the next-page
    control does not come back with the control. *)
Definition stop_at (s : Session) (j : nat) : Prop :=
  listings (pages s j) = [] ∨ next_button (pages s j) ≠ Ok tt.

Global Instance stop_at_dec s j : Decision (stop_at s j).
Proof.
  unfold stop_at.
  destruct (listings (pages s j)); [left; by left|].
  destruct (next_button (pages s j)) as [[]|e];
    [right; intros [|]; done | left; by right].
Defined.

(** A record the main loop keeps: of this keyword, and with a name. *)
Definition kept (keyword : pystr) (d : ListingData) : Prop :=
  Keyword d = keyword ∧ has_name d = true.

Lemma collect_spec keyword elements :
  ∀ data, ∃ new, collect keyword elements data = Ok (data ++ new)
                 ∧ Forall (kept keyword) new.
Proof.
  induction elements as [|el els IH]; intros data; cbn [collect].
  - exists []. by rewrite app_nil_r.
  - destruct (parse_fields el keyword) as (r & -> & Hk & _).
    destruct (has_name r) eqn:Hn.
    + destruct (IH (data ++ [r])) as (new & -> & Hnew).
      exists (r :: new). rewrite <- app_assoc. split; [done|].
      by constructor.
    + apply IH.
Qed.

(** The loop over page numbers [a], [a + 1], ... *)
Lemma pagination_spec s keyword len :
  ∀ a st, 1 ≤ a →
    ∃ n new,
      trace (fst (pagination s keyword (seq a len) st))
      = trace st ++ (EvPage keyword <$> seq a n)
      ∧ progress_file (fst (pagination s keyword (seq a len) st))
        = progress_file st
      ∧ all_gmb_data (fst (pagination s keyword (seq a len) st))
        = all_gmb_data st ++ new
      ∧ Forall (kept keyword) new
      ∧ n ≤ len
      ∧ (∀ j, S j < n → ¬ stop_at s (a + j - 1))
      ∧ (n < len → stop_at s (a + n - 2))
      ∧ (0 < len → 0 < n).
Proof.
  induction len as [|len IH]; intros a st Ha.
  - exists 0, []. cbn. rewrite !app_nil_r.
    repeat split; try done; intros; lia.
  - cbn [seq pagination].
    destruct (listings (pages s (a - 1))) as [|el els] eqn:Hl.
    + exists 1, []. cbn. rewrite app_nil_r.
      repeat split; try done; try lia.
      intros _. left. by replace (a + 1 - 2) with (a - 1) by lia.
    + rewrite <- Hl.
      destruct (collect_spec keyword (listings (pages s (a - 1)))
                  (all_gmb_data (log [EvPage keyword a] st)))
        as (new & Hc & Hnew).
      rewrite Hc.
      destruct (next_button (pages s (a - 1))) as [[]|e] eqn:Hb.
      * match goal with
        | |- context [pagination s keyword (seq (S a) len) ?st1] =>
            destruct (IH (S a) st1) as
              (n & new' & Ht & Hp & Hd & Hk & Hn & Hno & Hstop & Hpos);
            [lia|]
        end.
        exists (S n), (new ++ new').
        rewrite Ht, Hp, Hd. cbn. rewrite <- !app_assoc.
        repeat split; try done; try lia.
        -- by apply Forall_app.
        -- intros j Hj Hs. destruct j as [|j].
           ++ replace (a + 0 - 1) with (a - 1) in Hs by lia.
              destruct Hs as [Hs|Hs]; congruence.
           ++ apply (Hno j); [lia|].
              by replace (S a + j - 1) with (a + S j - 1) by lia.
        -- intros Hlt.
           replace (a + S n - 2) with (S a + n - 2) by lia.
           apply Hstop. lia.
      * assert (Hstop : stop_at s (a + 1 - 2)).
        { right. replace (a + 1 - 2) with (a - 1) by lia. by rewrite Hb. }
        exists 1, new.
        assert (E : fst (match e with
                         | NoSuchElementException =>
                             (MkState (progress_file (log [EvPage keyword a] st))
                                (all_gmb_data (log [EvPage keyword a] st) ++ new)
                                (trace (log [EvPage keyword a] st)), None)
                         | _ =>
                             (MkState (progress_file (log [EvPage keyword a] st))
                                (all_gmb_data (log [EvPage keyword a] st) ++ new)
                                (trace (log [EvPage keyword a] st)), Some e)
                         end)
                    = MkState (progress_file st) (all_gmb_data st ++ new)
                        (trace st ++ [EvPage keyword a])).
        { by destruct e. }
        rewrite E. cbn.
        repeat split; try done; try lia.
Qed.

End PaginationFacts.

(** ** What a run adds to the result set *)

Module RunFacts.
Import PyStr Parser Progress Notify Captcha Orchestrator CaptchaFacts ParserFacts DetailsFacts PaginationFacts.

(** What a step of the run may do to the result set: add records of
    one keyword that have a name. *)
Definition grows (keyword : pystr) (st st' : RunState) : Prop :=
  ∃ new, all_gmb_data st' = all_gmb_data st ++ new
         ∧ Forall (kept keyword) new.

Lemma grows_refl keyword st : grows keyword st st.
Proof. exists []. by rewrite app_nil_r. Qed.

Lemma grows_trans keyword st1 st2 st3 :
  grows keyword st1 st2 → grows keyword st2 st3 → grows keyword st1 st3.
Proof.
  intros (n1 & E1 & H1) (n2 & E2 & H2). exists (n1 ++ n2).
  rewrite E2, E1, <- app_assoc. split; [done | by apply Forall_app].
Qed.

Lemma grows_log keyword evs st : grows keyword st (log evs st).
Proof. exists []. by rewrite app_nil_r. Qed.

Lemma grows_save keyword st : grows keyword st (save keyword st).
Proof. exists []. by rewrite app_nil_r. Qed.

Lemma grows_pagination s keyword nums len a st :
  nums = seq a len → 1 ≤ a →
  grows keyword st (fst (pagination s keyword nums st)).
Proof.
  intros -> Ha.
  destruct (pagination_spec s keyword len a st Ha)
    as (n & new & _ & _ & Hd & Hk & _).
  by exists new.
Qed.

Lemma grows_expand s keyword st :
  grows keyword st (snd (expand_and_scrape s keyword st)).
Proof.
  unfold expand_and_scrape.
  pose proof (grows_pagination s keyword _ MAX_GMB_PAGES_TO_SCRAPE 1 st
                eq_refl (le_n 1)) as H.
  destruct (more_button s) as [[]|e].
  - destruct (pagination s keyword _ st) as [st' [e|]]; simpl in *; [done|].
    eapply grows_trans; [exact H | apply grows_save].
  - destruct e; simpl; try apply grows_refl. apply grows_save.
Qed.

Lemma grows_process cfg fuel s keyword st :
  grows keyword st (snd (process_keyword cfg fuel s keyword st)).
Proof.
  unfold process_keyword.
  destruct (page_load s) as [[]|e0]; [|apply grows_refl].
  destruct (find_and_type_in_search_box s) as [[|]|e];
    simpl; try apply grows_refl.
  destruct (captcha_detected s); [|apply grows_expand].
  destruct (handle_captcha cfg (captcha s) keyword fuel) as [evs [[|]|]];
    simpl.
  - eapply grows_trans; [apply (grows_log keyword evs) | apply grows_expand].
  - eapply grows_trans; [apply (grows_log keyword evs) | apply grows_save].
  - apply grows_log.
Qed.

(** A record the run keeps: of a keyword on the list that was not
    completed before, and with a name. *)
Definition produced (todo : list (nat * pystr)) (completed : gset pystr)
    (d : ListingData) : Prop :=
  (∃ i, (i, Keyword d) ∈ todo) ∧ (Keyword d ∉ completed)
  ∧ has_name d = true.

Lemma keyword_loop_data cfg fuel world completed todo :
  ∀ st, ∃ new,
    all_gmb_data (snd (keyword_loop cfg fuel world completed todo st))
    = all_gmb_data st ++ new
    ∧ Forall (produced todo completed) new.
Proof.
  induction todo as [|[i keyword] rest IH]; intros st; cbn [keyword_loop].
  - exists []. by rewrite app_nil_r.
  - assert (Hw : ∀ new, Forall (produced rest completed) new →
                        Forall (produced ((i, keyword) :: rest) completed) new).
    { intros new Hnew. eapply Forall_impl; [exact Hnew|].
      intros d ([j Hj] & Hc & Hn).
      split; [|done]. exists j. by apply list_elem_of_further. }
    destruct (decide (keyword ∈ completed)) as [Hin|Hout].
    + destruct (IH (log [EvSkipped keyword] st)) as (new & E & H).
      exists new. split; [done | by apply Hw].
    + destruct (grows_process cfg fuel (world i) keyword st)
        as (new1 & E1 & H1).
      assert (H1' : Forall (produced ((i, keyword) :: rest) completed) new1).
      { eapply Forall_impl; [exact H1|]. intros d [<- Hn].
        split; [|done]. exists i. apply list_elem_of_here. }
      destruct (process_keyword cfg fuel (world i) keyword st)
        as [o st1]. simpl in E1.
      destruct (IH st1) as (new2 & E2 & H2).
      assert (Hgo : ∃ new,
                 all_gmb_data
                   (snd (keyword_loop cfg fuel world completed rest st1))
                 = all_gmb_data st ++ new
                 ∧ Forall (produced ((i, keyword) :: rest) completed) new).
      { exists (new1 ++ new2). rewrite E2, E1, <- app_assoc.
        split; [done|]. apply Forall_app. split; [done | by apply Hw]. }
      destruct o; simpl; try exact Hgo; by exists new1.
Qed.

Lemma enumerate_elem {A} (l : list A) i x :
  (i, x) ∈ enumerate l → x ∈ l.
Proof.
  unfold enumerate. intros H. apply list_elem_of_lookup in H as [j Hj].
  apply lookup_zip_with_Some in Hj as (a & b & [= <- <-] & _ & Hb).
  by apply list_elem_of_lookup_2 in Hb.
Qed.


End RunFacts.

(** ** The run *)

Module RunClaims.
Import PyStr Parser Progress Notify Captcha Orchestrator CaptchaFacts ParserFacts DetailsFacts PaginationFacts RunFacts.

(** *** The runs of the examples *)

Definition config_example : Config := MkConfig true 300 5.

(** A clock that shows five ticks more at every reading. *)
Definition ticking (j : nat) : Z := (5 * Z.of_nat j)%Z.

(** The frame is gone when the handler first looks. *)
Definition env_gone : Env := MkEnv ticking (fun _ => false).
(** The frame is there at the first poll and gone at the second. *)
Definition env_solved : Env := MkEnv ticking (fun j => j =? 0).

Definition no_pages (j : nat) : Page :=
  MkPage [] (Raise NoSuchElementException).

Definition kw : pystr := str "plumbers near me".

Definition listing_named : WebElement :=
  MkElement (Ok (str "Acme Plumbing")) (Raise NoSuchElementException)
    (Ok []).
Definition listing_unnamed : WebElement :=
  MkElement (Ok []) (Raise NoSuchElementException) (Ok []).

(** One page with a named and an unnamed listing, and no next page. *)
Definition one_page (j : nat) : Page :=
  MkPage [listing_named; listing_unnamed] (Raise NoSuchElementException).

Definition session_scraped : Session :=
  MkSession (Ok tt) (Ok tt) false env_gone (Ok tt) one_page.
Definition session_captcha_solved : Session :=
  MkSession (Ok tt) (Ok tt) true env_solved (Ok tt) one_page.
Definition session_no_page : Session :=
  MkSession (Raise TimeoutException) (Ok tt) false env_gone (Ok tt) no_pages.

Definition start : RunState := MkState None [] [].

Definition sheet : list pystr := [str "Keywords"; kw].

(** *** Claim C5 *)

(** C5: for every keyword the pagination loop scrapes the pages
    numbered 1 to [n], where [n] is at most the maximum of ten, no page
    before the last one scraped is without listings or without the
    next-page control, and when [n] stays below the maximum the last
    page scraped is one of the two: the loop ends at the first such
    page. *)
Theorem pagination_stops (s : Session) (keyword : pystr) (st : RunState) :
  ∃ n,
    trace (fst (pagination s keyword (seq 1 MAX_GMB_PAGES_TO_SCRAPE) st))
    = trace st ++ (EvPage keyword <$> seq 1 n)
    ∧ MAX_GMB_PAGES_TO_SCRAPE = 10
    ∧ 1 ≤ n ∧ n ≤ MAX_GMB_PAGES_TO_SCRAPE
    ∧ (∀ j, stop_at s j → n ≤ S j)
    ∧ (n < MAX_GMB_PAGES_TO_SCRAPE → stop_at s (n - 1)).
Proof.
  destruct (pagination_spec s keyword MAX_GMB_PAGES_TO_SCRAPE 1 st (le_n 1))
    as (n & new & Ht & _ & _ & _ & Hn & Hno & Hstop & Hpos).
  exists n. split; [done|]. split; [done|].
  split; [apply Hpos; unfold MAX_GMB_PAGES_TO_SCRAPE; lia|].
  split; [done|]. split.
  - intros j Hj. destruct (decide (n ≤ S j)) as [|Hgt]; [done|].
    exfalso. apply (Hno j); [lia|].
    by replace (1 + j - 1) with j by lia.
  - intros Hlt. replace (n - 1) with (1 + n - 2) by lia. by apply Hstop.
Qed.

(** *** Claim C8 *)



(** *** Claim C1 *)








(** A page that does not load within the time allowed is another
    matter: the exception of line 249 is caught by no handler but the
    outer one, the run ends there, and the crash is reported. *)
Example page_load_timeout_ends_the_run :
  process_keyword config_example 100 session_no_page kw start
  = (Crashed TimeoutException, start)
  ∧ ended (main config_example 100 (fun _ => session_no_page) None sheet)
    = Aborted TimeoutException
  ∧ trace (final (main config_example 100 (fun _ => session_no_page)
                    None sheet))
    = [EvCrashed TimeoutException; EvEmail crash_subject crash_body]
  ∧ progress_file
      (final (main config_example 100 (fun _ => session_no_page)
                None sheet)) = None.
Proof. repeat split; by vm_compute. Qed.

(** *** Claim C2 *)







(** A CAPTCHA solved between the first and the second poll: one banner
    and one mail, and the keyword is scraped as if nothing had been in
    the way. *)
Example captcha_solved_at_second_poll :
  handle_captcha config_example (captcha session_captcha_solved) kw 100
  = ([EvConsoleAlert kw; EvEmail email_subject (email_body kw)], Some true)
  ∧ fst (process_keyword config_example 100 session_captcha_solved kw start)
    = Scraped
  ∧ Name <$> all_gmb_data
      (snd (process_keyword config_example 100 session_captcha_solved kw
              start))
    = [Some (str "Acme Plumbing")]
  ∧ load_completed_keywords
      (progress_file
         (snd (process_keyword config_example 100 session_captcha_solved kw
                 start)))
    = {[kw]}.
Proof.
  split; [by vm_compute|]. split; [by vm_compute|]. split; [by vm_compute|].
  assert (E : progress_file
                (snd (process_keyword config_example 100
                        session_captcha_solved kw start))
              = save_completed_keyword kw None) by (by vm_compute).
  rewrite E.
  destruct ProgressClaims.clean_plumbers as [Ek Hnl].
  rewrite ProgressFacts.load_save; [|by left|exact Hnl].
  change (strip kw) with (strip ProgressClaims.plumbers). rewrite Ek.
  change (load_completed_keywords None) with (∅ : gset pystr).
  by rewrite (left_id_L ∅ (∪)).
Qed.

End RunClaims.

(** ** The helpers that drive the browser *)

Module BrowserLaws.
Import PyStr Orchestrator.

(** *** The cookie banner *)

Section Consent.
Import Cookies.

Lemma attempt_clicks page x :
  clicks (fst (attempt page x)) ≤ 1
  ∧ (snd (attempt page x) = Ok tt →
     fst (attempt page x)
     = match page x with
       | Ok b => match text b with
                 | Ok t => [CkFound x t; CkClicked x]
                 | Raise _ => []
                 end
       | Raise _ => []
       end
     ∧ ∃ b, page x = Ok b ∧ click b = Ok tt)
  ∧ (snd (attempt page x) ≠ Ok tt → clicks (fst (attempt page x)) = 0).
Proof.
  unfold attempt. destruct (page x) as [b|e]; [|by repeat split; auto].
  destruct (text b) as [t|e]; [|by repeat split; auto].
  destruct (click b) as [[]|e] eqn:Hc; simpl.
  - repeat split; auto; [by exists b | by intros []].
  - repeat split; auto; done.
Qed.

(** What the loop does over any list of buttons. *)
Lemma consent_loop_spec page xpaths :
  let '(evs, r) := consent_loop page xpaths in
  match r with
  | Ok _ =>
      (Forall (passed_by page) xpaths ∧ clicks evs = 0
       ∧ (Forall (fun x => page x = Raise NoSuchElementException) xpaths →
          evs = []))
      ∨ ∃ before x after b t,
          xpaths = before ++ x :: after
          ∧ Forall (passed_by page) before
          ∧ page x = Ok b ∧ text b = Ok t ∧ click b = Ok tt
          ∧ List.filter is_click evs = [CkClicked x]
          ∧ last evs = Some (CkClicked x)
  | Raise e =>
      e ≠ NoSuchElementException
      ∧ clicks evs = 0
      ∧ ∃ before x after,
          xpaths = before ++ x :: after
          ∧ Forall (passed_by page) before
          ∧ snd (attempt page x) = Raise e
  end.
Proof.
  induction xpaths as [|x rest IH]; cbn [consent_loop].
  - left. by repeat split.
  - pose proof (attempt_clicks page x) as (_ & Hok & Hno).
    destruct (attempt page x) as [evs0 r0] eqn:Ha. simpl in Hok, Hno.
    destruct r0 as [[]|e].
    + destruct (Hok eq_refl) as (E & b & Hb & Hc). right.
      rewrite Hb in E. destruct (text b) as [t|e] eqn:Ht.
      * exists [], x, rest, b, t. subst evs0. by repeat split.
      * exfalso. unfold attempt in Ha. rewrite Hb, Ht in Ha. done.
    + assert (H0 : clicks evs0 = 0) by (apply Hno; done).
      assert (Hp : e = NoSuchElementException → passed_by page x).
      { intros ->. unfold passed_by. by rewrite Ha. }
      assert (Hf : List.filter is_click evs0 = []).
      { unfold clicks in H0. by apply length_zero_iff_nil. }
      destruct (decide (e = NoSuchElementException)) as [->|Hne].
      * destruct (consent_loop page rest) as [evs r].
        destruct r as [[]|e'].
        -- destruct IH as [(Hall & Hz & Hnone)
                          |(before & y & after & b & t & -> & Hb
                            & Hy & Ht & Hc & Hf' & Hl)].
           ++ left. split; [constructor; auto|]. split.
              ** unfold clicks in *.
                 rewrite List.filter_app, length_app. lia.
              ** intros [Hx Hr]%Forall_cons. rewrite (Hnone Hr), app_nil_r.
                 unfold attempt in Ha. rewrite Hx in Ha.
                 by injection Ha as <-.
           ++ right. exists (x :: before), y, after, b, t.
              repeat split; try done.
              ** constructor; auto.
              ** by rewrite List.filter_app, Hf.
              ** rewrite last_app, Hl. done.
        -- destruct IH as (Hne & Hz & before & y & after & -> & Hb & Hy).
           split; [done|]. split.
           ++ unfold clicks in *. rewrite List.filter_app, length_app. lia.
           ++ exists (x :: before), y, after. repeat split; try done.
              constructor; auto.
      * assert (E : (match e with
                     | NoSuchElementException =>
                         let '(evs', r) := consent_loop page rest in
                         (evs0 ++ evs', r)
                     | _ => (evs0, Raise e)
                     end) = (evs0, Raise e)) by (by destruct e).
        rewrite E. split; [done|]. split; [done|].
        exists [], x, rest. repeat split; [constructor|]. by rewrite Ha.
Qed.

Lemma consent_loop_quiet page xpaths :
  Forall (fun ev => is_warning ev = false) (fst (consent_loop page xpaths)).
Proof.
  induction xpaths as [|x rest IH]; cbn [consent_loop]; [constructor|].
  assert (Ha : Forall (fun ev => is_warning ev = false)
                 (fst (attempt page x))).
  { unfold attempt. destruct (page x) as [b|]; [|constructor].
    destruct (text b); [|constructor].
    destruct (click b) as [[]|]; by repeat constructor. }
  destruct (attempt page x) as [evs0 [[]|e]]; simpl in *; [done|].
  destruct (consent_loop page rest) as [evs r]; simpl in IH.
  destruct e; simpl; try done. by apply Forall_app.
Qed.

Lemma click_counted evs x : CkClicked x ∈ evs → 0 < clicks evs.
Proof.
  intros H. unfold clicks.
  assert (Hin : In (CkClicked x) (List.filter is_click evs)).
  { apply filter_In. split; [by apply list_elem_of_In | done]. }
  destruct (List.filter is_click evs); [done | simpl; lia].
Qed.

(** X1: [handle_cookie_consent] clicks at most one button, and that one is
    the first, in the order ['Accept all'], ['Reject all'], ['I agree'],
    that the page has: the buttons before it were looked for and not
    found, and with the click the function is done.  When no button is
    found nothing happens at all.  An exception that is not
    [NoSuchElementException] ends the search with a warning: no later
    button is tried and nothing is clicked. *)
Theorem cookie_consent_clicks_first_found (page : Driver) :
  clicks (handle_cookie_consent page) ≤ 1
  ∧ (∀ x, CkClicked x ∈ handle_cookie_consent page →
       last (handle_cookie_consent page) = Some (CkClicked x)
       ∧ ∃ before after b,
           consent_buttons = before ++ x :: after
           ∧ Forall (passed_by page) before
           ∧ page x = Ok b ∧ click b = Ok tt)
  ∧ (Forall (fun x => page x = Raise NoSuchElementException)
       consent_buttons →
     handle_cookie_consent page = [])
  ∧ (∀ e, CkWarning e ∈ handle_cookie_consent page →
       e ≠ NoSuchElementException
       ∧ clicks (handle_cookie_consent page) = 0
       ∧ last (handle_cookie_consent page) = Some (CkWarning e)
       ∧ ∃ before x after,
           consent_buttons = before ++ x :: after
           ∧ Forall (passed_by page) before
           ∧ snd (attempt page x) = Raise e).
Proof.
  unfold handle_cookie_consent.
  pose proof (consent_loop_spec page consent_buttons) as H.
  pose proof (consent_loop_quiet page consent_buttons) as Hq.
  destruct (consent_loop page consent_buttons) as [evs [[]|e]];
    simpl in Hq.
  - assert (Hw : ∀ e, CkWarning e ∉ evs).
    { intros e He. rewrite Forall_forall in Hq. by apply Hq in He. }
    destruct H as [(Hall & Hz & Hnone)
                  |(before & x & after & b & t & E & Hb & Hx & Ht & Hc
                    & Hf & Hl)].
    + split; [lia|]. split.
      { intros x Hx%click_counted. lia. }
      split; [done|]. intros e He. by apply Hw in He.
    + split; [unfold clicks; by rewrite Hf|]. split.
      { intros y Hy.
        assert (Hin : In (CkClicked y) (List.filter is_click evs)).
        { apply filter_In. split; [by apply list_elem_of_In | done]. }
        rewrite Hf in Hin. destruct Hin as [[= <-]|[]].
        split; [done|]. by exists before, after, b. }
      split.
      { intros Hnone. exfalso. rewrite E in Hnone.
        apply Forall_app in Hnone as [_ [Hn _]%Forall_cons]. congruence. }
      intros e He. by apply Hw in He.
  - destruct H as (Hne & Hz & before & x & after & E & Hb & Hx).
    assert (Hc : clicks (evs ++ [CkWarning e]) = 0).
    { unfold clicks in *. rewrite List.filter_app, length_app. simpl. lia. }
    split; [lia|]. split.
    { intros y Hy%click_counted. lia. }
    split.
    { intros Hnone. exfalso. rewrite E in Hnone.
      apply Forall_app in Hnone as [_ [Hn _]%Forall_cons].
      unfold attempt in Hx. rewrite Hn in Hx. simpl in Hx. congruence. }
    intros e' [He|He%list_elem_of_singleton]%elem_of_app.
    + rewrite Forall_forall in Hq. by apply Hq in He.
    + injection He as ->. split; [done|]. split; [done|].
      split; [by rewrite last_snoc|]. by exists before, x, after.
Qed.

(** A banner that offers ['Reject all'] and nothing else. *)
Definition banner_reject_only : Driver :=
  fun xpath =>
    if decide (xpath = str "//button[contains(., 'Reject all')]")
    then Ok (MkButton (Ok (str "Reject all")) (Ok tt))
    else Raise NoSuchElementException.

Lemma cookie_consent_clicks_first_found_witness :
  handle_cookie_consent banner_reject_only
  = [CkFound (str "//button[contains(., 'Reject all')]") (str "Reject all");
     CkClicked (str "//button[contains(., 'Reject all')]")]
  ∧ clicks (handle_cookie_consent banner_reject_only) ≤ 1.
Proof.
  split; [by vm_compute|].
  exact (proj1 (cookie_consent_clicks_first_found banner_reject_only)).
Defined.

End Consent.

(** *** Scrolling *)

Section Scrolling.
Import Scroll.

Lemma scrolls_repeat n : scrolls (repeat ScScrolled n) = n.
Proof.
  unfold scrolls. induction n as [|n IH]; [done|]. simpl. by rewrite IH.
Qed.

Lemma scroll_loop_bound env rounds :
  ∀ j last, ∃ n, fst (scroll_loop env rounds j last) = repeat ScScrolled n
                 ∧ n ≤ rounds.
Proof.
  induction rounds as [|rounds IH]; intros j last; cbn [scroll_loop].
  - by exists 0.
  - destruct (scroll_to env j) as [[]|e]; [|exists 0; split; [done|lia]].
    destruct (height env (S j)) as [new|e]; [|exists 1; split; [done|lia]].
    destruct (new =? last)%Z; [exists 1; split; [done|lia]|].
    destruct (IH (S j) new) as (n & E & Hn).
    destruct (scroll_loop env rounds (S j) new) as [evs r]. simpl in E.
    exists (S n). subst evs. split; [done|lia].
Qed.

Lemma scroll_loop_steady env h rounds :
  steady env h →
  ∀ j, ∃ n, scroll_loop env rounds j (h j) = (repeat ScScrolled n, Ok tt)
            ∧ n ≤ rounds ∧ (0 < rounds → 0 < n)
            ∧ (∀ i, S i < n → h (S (j + i)) ≠ h (j + i))
            ∧ (n < rounds → h (j + n) = h (j + n - 1)).
Proof.
  intros Hs. induction rounds as [|rounds IH]; intros j; cbn [scroll_loop].
  - exists 0. repeat split; try done; lia.
  - destruct (Hs j) as [_ ->]. destruct (Hs (S j)) as [-> _].
    destruct (Z.eqb_spec (h (S j)) (h j)) as [E|E].
    + exists 1. repeat split; try done; try lia.
      intros _. by replace (j + 1 - 1) with j by lia;
        replace (j + 1) with (S j) by lia.
    + destruct (IH (S j)) as (n & -> & Hn & Hpos & Hch & Hst).
      exists (S n). repeat split; try done; try lia.
      * intros i Hi. destruct i as [|i].
        -- by rewrite Nat.add_0_r.
        -- replace (j + S i) with (S j + i) by lia. apply Hch. lia.
      * intros Hlt. replace (j + S n) with (S j + n) by lia.
        replace (S j + n - 1) with (j + n) by lia.
        destruct n as [|n]; [lia|].
        replace (j + S n) with (S j + S n - 1) by lia. apply Hst. lia.
Qed.

(** X2: [scroll_page_down] scrolls five times at most and ends with one
    line in the log, ["Finished scrolling."] or the warning, whatever
    the page does.  On a page whose readings and scrolls all come back
    it scrolls at least once, goes on as long as each reading differs
    from the one before, and stops after the first scroll that leaves
    the height as it was. *)
Theorem scroll_stops_when_height_is_stable (env : Window) :
  (∃ n fin, scroll_page_down env = repeat ScScrolled n ++ [fin]
            ∧ n ≤ 5 ∧ (fin = ScFinished ∨ ∃ e, fin = ScWarning e))
  ∧ scrolls (scroll_page_down env) ≤ 5
  ∧ ∀ h, steady env h →
      ∃ n, scroll_page_down env = repeat ScScrolled n ++ [ScFinished]
           ∧ 1 ≤ n ∧ n ≤ 5
           ∧ (∀ i, 1 ≤ i → i < n → h i ≠ h (i - 1))
           ∧ (n < 5 → h n = h (n - 1)).
Proof.
  assert (H1 : ∃ n fin, scroll_page_down env = repeat ScScrolled n ++ [fin]
                        ∧ n ≤ 5
                        ∧ (fin = ScFinished ∨ ∃ e, fin = ScWarning e)).
  { unfold scroll_page_down. destruct (height env 0) as [h0|e].
    - destruct (scroll_loop_bound env 5 0 h0) as (n & E & Hn).
      destruct (scroll_loop env 5 0 h0) as [evs [[]|e]]; simpl in E;
        subst evs.
      + exists n, ScFinished. repeat split; [done|by left].
      + exists n, (ScWarning e). repeat split; [done|right; by exists e].
    - exists 0, (ScWarning e). repeat split; [lia|right; by exists e]. }
  split; [done|]. split.
  - destruct H1 as (n & fin & -> & Hn & Hfin). unfold scrolls.
    rewrite List.filter_app, length_app. fold (scrolls (repeat ScScrolled n)).
    rewrite scrolls_repeat.
    destruct Hfin as [->|[e ->]]; simpl; lia.
  - intros h Hs. unfold scroll_page_down.
    destruct (Hs 0) as [-> _].
    destruct (scroll_loop_steady env h 5 Hs 0)
      as (n & -> & Hn & Hpos & Hch & Hst).
    exists n. split; [done|]. split; [lia|]. split; [done|]. split.
    + intros i Hi Hlt. destruct i as [|i]; [lia|].
      replace (S i - 1) with i by lia. apply (Hch i). lia.
    + intros Hlt. by apply Hst in Hlt.
Qed.

(** A page that grows twice and then stays as it is. *)
Definition heights_grow_twice (j : nat) : Z :=
  (Z.of_nat (Nat.min j 2) * 100)%Z.
Definition env_grows_twice : Window :=
  MkWindow (fun j => Ok (heights_grow_twice j)) (fun _ => Ok tt).

Lemma scroll_stops_when_height_is_stable_witness :
  steady env_grows_twice heights_grow_twice
  ∧ scroll_page_down env_grows_twice
    = [ScScrolled; ScScrolled; ScScrolled; ScFinished]
  ∧ ∃ n, scroll_page_down env_grows_twice
         = repeat ScScrolled n ++ [ScFinished]
         ∧ 1 ≤ n ∧ n ≤ 5
         ∧ (∀ i, 1 ≤ i → i < n →
                 heights_grow_twice i ≠ heights_grow_twice (i - 1))
         ∧ (n < 5 → heights_grow_twice n = heights_grow_twice (n - 1)).
Proof.
  split; [done|]. split; [reflexivity|].
  apply (proj2 (proj2 (scroll_stops_when_height_is_stable env_grows_twice))
           heights_grow_twice).
  done.
Defined.

End Scrolling.

(** *** Typing the keyword *)

Section Typing.
Import SearchBox.

(** The keys of a word, as events. *)
Definition keys (w : pystr) : list box_event :=
  (fun c => BxKey (KeyChar c)) <$> w.

Lemma typed_keys w : typed (keys w) = w.
Proof.
  induction w as [|c w IH]; [done|].
  change (typed (keys (c :: w))) with (c :: typed (keys w)). by rewrite IH.
Qed.

Lemma type_text_spec box text :
  ∀ j, ∃ w, fst (type_text box j text) = keys w
            ∧ w `prefix_of` text
            ∧ match snd (type_text box j text) with
              | Ok _ => w = text ∧ ∀ i, i < length text → sent box (j + i) = Ok tt
              | Raise e => length w < length text
                           ∧ sent box (j + length w) = Raise e
              end.
Proof.
  induction text as [|c text IH]; intros j; cbn [type_text].
  - exists []. repeat split; try done. intros i Hi. simpl in Hi. lia.
  - destruct (sent box j) as [[]|e] eqn:Hj.
    + destruct (IH (S j)) as (w & E & Hp & Hr).
      destruct (type_text box (S j) text) as [evs r]. simpl in *.
      exists (c :: w). subst evs. split; [done|].
      split; [by apply prefix_cons|].
      destruct r as [[]|e].
      * destruct Hr as [-> Hall]. split; [done|].
        intros i Hi. destruct i as [|i]; [by rewrite Nat.add_0_r|].
        replace (j + S i) with (S j + i) by lia. apply Hall. simpl in Hi. lia.
      * destruct Hr as [Hlt Hs]. simpl. split; [lia|].
        by replace (j + S (length w)) with (S j + length w) by lia.
    + exists []. simpl. split; [done|]. split; [apply prefix_nil|].
      split; [lia|]. by rewrite Nat.add_0_r.
Qed.

Lemma return_not_typed w : BxKey KeyReturn ∉ keys w.
Proof.
  unfold keys. intros (c & [=] & _)%list_elem_of_fmap.
Qed.

Lemma typing_spec box text :
  ∃ w, w `prefix_of` text
       ∧ match snd (typing box text) with
         | Ok _ =>
             fst (typing box text) = BxCleared :: keys text ++ [BxKey KeyReturn]
         | Raise e =>
             fst (typing box text) = []
             ∨ fst (typing box text) = BxCleared :: keys w
         end.
Proof.
  unfold typing.
  destruct (located box) as [[]|e]; [|exists []; split; [apply prefix_nil|by left]].
  destruct (cleared box) as [[]|e]; [|exists []; split; [apply prefix_nil|by left]].
  destruct (type_text_spec box text 0) as (w & E & Hp & Hr).
  destruct (type_text box 0 text) as [evs [[]|e]]; simpl in *; subst evs.
  - destruct Hr as [-> _].
    destruct (sent box (length text)) as [[]|e]; exists text; simpl;
      (split; [done|]); [done | by right].
  - exists w. split; [done | by right].
Qed.

(** The steps of the typing, in their order: the wait for the box, the
    clearing, and one call of [send_keys] for every character and for
    [Keys.RETURN]. *)
Definition steps (box : Box) (text : pystr) : list (result unit) :=
  located box :: cleared box :: (sent box <$> seq 0 (S (length text))).

(** The exception of the first step that does not come back. *)
Fixpoint first_failure (rs : list (result unit)) : option exn :=
  match rs with
  | [] => None
  | Ok _ :: rs' => first_failure rs'
  | Raise e :: _ => Some e
  end.

Lemma first_failure_app rs rs' :
  first_failure (rs ++ rs')
  = match first_failure rs with
    | Some e => Some e
    | None => first_failure rs'
    end.
Proof. induction rs as [|[[]|e] rs IH]; simpl; auto. Qed.

Lemma type_text_outcome box text :
  ∀ j, snd (type_text box j text)
       = match first_failure (sent box <$> seq j (length text)) with
         | None => Ok tt
         | Some e => Raise e
         end.
Proof.
  induction text as [|c text IH]; intros j; cbn [type_text]; [done|].
  cbn [length seq fmap list_fmap first_failure].
  destruct (sent box j) as [[]|e]; [|done].
  rewrite <- IH. by destruct (type_text box (S j) text).
Qed.

Lemma typing_outcome box text :
  snd (typing box text)
  = match first_failure (steps box text) with
    | None => Ok tt
    | Some e => Raise e
    end.
Proof.
  unfold typing, steps. cbn [first_failure].
  destruct (located box) as [[]|e]; [|done].
  destruct (cleared box) as [[]|e]; [|done].
  rewrite seq_S, fmap_app, first_failure_app. simpl.
  pose proof (type_text_outcome box text 0) as H.
  destruct (type_text box 0 text) as [evs [[]|e]]; simpl in H.
  - destruct (first_failure (sent box <$> seq 0 (length text))); [done|].
    by destruct (sent box (length text)) as [[]|e].
  - by destruct (first_failure (sent box <$> seq 0 (length text)));
      [injection H as <-|].
Qed.

(** X3: [find_and_type_in_search_box] sends the characters of the text in
    their order, one call each, and [Keys.RETURN] after the last one:
    whatever the browser does, what was typed is a beginning of the
    text, and the search is submitted exactly when the function returns
    [True], the whole text having been typed into the cleared box.  The
    first step that does not come back decides the rest: a
    [TimeoutException], of the wait or of any later call, makes the
    function return [False], any other exception leaves it.  The body
    of the main block sees of all this what its model of the search box
    says. *)
Theorem search_is_submitted_after_the_whole_text (box : Box) (text : pystr) :
  typed (fst (find_and_type_in_search_box box text)) `prefix_of` text
  ∧ (BxKey KeyReturn ∈ fst (find_and_type_in_search_box box text)
     ↔ snd (find_and_type_in_search_box box text) = Ok true)
  ∧ (snd (find_and_type_in_search_box box text) = Ok true →
     fst (find_and_type_in_search_box box text)
     = BxCleared :: keys text ++ [BxKey KeyReturn])
  ∧ snd (find_and_type_in_search_box box text)
    = match first_failure (steps box text) with
      | None => Ok true
      | Some TimeoutException => Ok false
      | Some e => Raise e
      end
  ∧ ∀ page_load captcha_detected captcha more_button pages,
      Orchestrator.find_and_type_in_search_box
        (MkSession page_load (snd (typing box text)) captcha_detected
           captcha more_button pages)
      = snd (find_and_type_in_search_box box text).
Proof.
  unfold find_and_type_in_search_box, Orchestrator.find_and_type_in_search_box.
  pose proof (typing_outcome box text) as Ho.
  destruct (typing_spec box text) as (w & Hp & Hs).
  destruct (typing box text) as [evs r]. cbn [fst snd] in *.
  assert (Hk : ∀ u, typed (BxCleared :: keys u) = u).
  { intros u. change (typed (BxCleared :: keys u)) with (typed (keys u)).
    apply typed_keys. }
  destruct r as [[]|e].
  - subst evs. cbn [fst snd]. repeat split.
    + change (typed (BxCleared :: keys text ++ [BxKey KeyReturn]))
        with (typed (keys text ++ [BxKey KeyReturn])).
      unfold typed. rewrite omap_app. fold (typed (keys text)).
      rewrite typed_keys. simpl. by rewrite app_nil_r.
    + intros _. apply list_elem_of_further, elem_of_app. right.
      apply list_elem_of_here.
    + by destruct (first_failure (steps box text)).
  - assert (Hno : BxKey KeyReturn ∉ evs).
    { destruct Hs as [->| ->]; [apply not_elem_of_nil|].
      intros [[=]|H]%elem_of_cons. by apply return_not_typed in H. }
    assert (Ht : typed evs `prefix_of` text).
    { destruct Hs as [->| ->]; [apply prefix_nil | by rewrite Hk]. }
    destruct (first_failure (steps box text)) as [e'|]; [|done].
    injection Ho as ->.
    destruct e'; simpl; repeat split; try done.
Qed.

(** A box that takes three keys and then times out. *)
Definition box_slow : Box :=
  MkBox (Ok tt) (Ok tt)
    (fun j => if j <? 3 then Ok tt else Raise TimeoutException).

Lemma search_is_submitted_after_the_whole_text_witness :
  find_and_type_in_search_box box_slow (str "plumbers")
  = (BxCleared :: keys (str "plu"), Ok false)
  ∧ typed (fst (find_and_type_in_search_box box_slow (str "plumbers")))
    `prefix_of` str "plumbers".
Proof.
  split; [by vm_compute|].
  exact (proj1 (search_is_submitted_after_the_whole_text box_slow
                  (str "plumbers"))).
Defined.

End Typing.

End BrowserLaws.

(** ** The keywords of the sheet *)

Module SheetLaws.
Import PyStr Progress Orchestrator PyStrFacts.

Lemma truthy_spec (s : pystr) : truthy s ↔ s ≠ [].
Proof. by destruct s. Qed.

Lemma sheet_keywords_cells (cells : list pystr) (header : pystr) :
  get_keywords_from_sheet (header :: cells)
  = strip <$> filter (fun kw => truthy (strip kw)) cells.
Proof. reflexivity. Qed.

Lemma stripped_keywords_stay (ks : list pystr) :
  Forall (fun k => strip k = k ∧ k ≠ []) ks →
  strip <$> filter (fun kw => truthy (strip kw)) ks = ks.
Proof.
  induction 1 as [|k ks [Hk Hne] _ IH]; [done|].
  rewrite filter_cons, Hk.
  destruct (decide (truthy k)) as [_|Hno].
  - rewrite fmap_cons, Hk. by f_equal.
  - by destruct Hno; apply truthy_spec.
Qed.

Lemma sheet_keyword_cell (col_values : list pystr) (k : pystr) :
  k ∈ get_keywords_from_sheet col_values
  ↔ ∃ cell, cell ∈ drop 1 col_values ∧ strip cell = k ∧ k ≠ [].
Proof.
  unfold get_keywords_from_sheet. rewrite list_elem_of_fmap. split.
  - intros (cell & -> & [Ht Hin]%list_elem_of_filter).
    exists cell. repeat split; [done|]. by apply truthy_spec.
  - intros (cell & Hin & <- & Hne). exists cell. split; [done|].
    apply list_elem_of_filter. split; [by apply truthy_spec | done].
Qed.

Lemma sheet_keywords_stripped (col_values : list pystr) :
  Forall (fun k => strip k = k ∧ k ≠ [])
    (get_keywords_from_sheet col_values).
Proof.
  apply Forall_forall. intros k (cell & _ & <- & Hne)%sheet_keyword_cell.
  split; [apply strip_idem | done].
Qed.

(** X4: [get_keywords_from_sheet] never takes the first cell of the column
    for a keyword, and takes every other cell that is not blank, in the
    order of the sheet, with the blanks at its ends removed: a keyword
    it returns is never empty and has no blank at either end.  Reading
    a column made of a header and the keywords it returned gives the
    same keywords again. *)
Theorem sheet_keywords_are_stripped_cells (col_values : list pystr) :
  (∀ k, k ∈ get_keywords_from_sheet col_values
        ↔ ∃ cell, cell ∈ drop 1 col_values ∧ strip cell = k ∧ k ≠ [])
  ∧ Forall (fun k => strip k = k ∧ k ≠ [])
      (get_keywords_from_sheet col_values)
  ∧ length (get_keywords_from_sheet col_values) ≤ length col_values - 1
  ∧ get_keywords_from_sheet (take 1 col_values) = []
  ∧ (∀ header cells cells',
       get_keywords_from_sheet (header :: cells ++ cells')
       = get_keywords_from_sheet (header :: cells)
         ++ get_keywords_from_sheet (header :: cells'))
  ∧ ∀ header,
      get_keywords_from_sheet (header :: get_keywords_from_sheet col_values)
      = get_keywords_from_sheet col_values.
Proof.
  pose proof (sheet_keywords_stripped col_values) as Hall.
  split; [apply sheet_keyword_cell|]. split; [done|].
  split; [|split; [|split]].
  - unfold get_keywords_from_sheet. rewrite length_fmap.
    etrans; [apply length_filter|]. by rewrite length_drop.
  - by destruct col_values.
  - intros header cells cells'. rewrite !sheet_keywords_cells.
    by rewrite filter_app, fmap_app.
  - intros header. rewrite sheet_keywords_cells.
    by apply stripped_keywords_stay.
Qed.

End SheetLaws.

(** ** The progress file over a run of saves *)

Module ProgressLaws.
Import PyStr Progress PyStrFacts ProgressFacts.

Lemma saves_snoc ks k f :
  saves (ks ++ [k]) f = save_completed_keyword k (saves ks f).
Proof. unfold saves. by rewrite foldl_app. Qed.

Lemma load_saves ks : ∀ f,
  closed_file f → Forall no_linebreak ks →
  load_completed_keywords (saves ks f)
  = load_completed_keywords f ∪ list_to_set (strip <$> ks).
Proof.
  induction ks as [|k ks IH] using rev_ind; intros f Hf Hks.
  - simpl. by rewrite (right_id_L ∅ (∪)).
  - apply Forall_app in Hks as [Hks [Hk _]%Forall_cons].
    rewrite saves_snoc, load_save by (by try apply closed_saves).
    rewrite IH by done.
    rewrite fmap_app, list_to_set_app_L. simpl.
    by rewrite (right_id_L ∅ (∪)), (assoc_L (∪)).
Qed.

(** X5: After any number of saves to a progress file that is missing,
    or empty, or ends with a line feed, the keywords loaded are the
    ones loaded before together with the stripped forms of the keywords
    saved, as long as no saved keyword holds a line break.  So no
    keyword that was loaded before is lost, the order of the saves
    makes no difference, and saving the same keywords once more adds
    nothing. *)
Theorem load_after_saves (keywords : list pystr) (f : file) :
  closed_file f → Forall no_linebreak keywords →
  load_completed_keywords (saves keywords f)
  = load_completed_keywords f ∪ list_to_set (strip <$> keywords)
  ∧ load_completed_keywords f ⊆ load_completed_keywords (saves keywords f)
  ∧ (∀ keywords', keywords' ≡ₚ keywords →
       load_completed_keywords (saves keywords' f)
       = load_completed_keywords (saves keywords f))
  ∧ load_completed_keywords (saves keywords (saves keywords f))
    = load_completed_keywords (saves keywords f).
Proof.
  intros Hf Hks.
  assert (E : load_completed_keywords (saves keywords f)
              = load_completed_keywords f
                ∪ list_to_set (strip <$> keywords)) by (by apply load_saves).
  split; [done|]. split; [|split].
  - rewrite E. apply union_subseteq_l.
  - intros keywords' Hp. rewrite E, load_saves; [|done|].
    + f_equal. apply list_to_set_perm_L. by rewrite Hp.
    + by rewrite Hp.
  - rewrite load_saves by (by try apply closed_saves).
    rewrite E, <- (assoc_L (∪)). by rewrite (idemp_L (∪)).
Qed.

(** A keyword given letter by letter has no line break in it. *)
Ltac no_linebreak_literal :=
  split; intros H%list_elem_of_In; vm_compute in H;
  repeat (destruct H as [H|H]; [discriminate|]); done.

(** Two keywords, the first with blanks around it. *)
Definition saved_example : list pystr :=
  [str " plumbers "; str "electricians"].

Lemma load_after_saves_witness :
  closed_file None
  ∧ Forall no_linebreak saved_example
  ∧ load_completed_keywords (saves saved_example None)
    = load_completed_keywords None
      ∪ list_to_set (strip <$> saved_example).
Proof.
  assert (H : Forall no_linebreak saved_example).
  { constructor; [no_linebreak_literal|].
    constructor; [no_linebreak_literal | constructor]. }
  split; [apply closed_missing|]. split; [exact H|].
  exact (proj1 (load_after_saves saved_example None closed_missing H)).
Defined.

Lemma no_linebreak_app a b :
  no_linebreak a → no_linebreak b → no_linebreak (a ++ b).
Proof.
  intros [H1 H2] [H3 H4].
  split; intros [H|H]%elem_of_app; done.
Qed.

(** Where a line that is not blank is put before a stripped keyword,
    the stripped form of the whole is not the keyword. *)
Lemma strip_behind_text last k :
  ¬ blank last → strip k = k → strip (last ++ k) ≠ k.
Proof.
  intros Hnb Hk. destruct k as [|c k].
  - rewrite app_nil_r. intros H0.
    destruct (strip_split last) as (pre & post & E & Hpre & Hpost).
    apply Hnb. rewrite E, H0. by apply Forall_app.
  - destruct (lstrip_split last) as (pre & E & Hpre).
    assert (Hl : lstrip last ≠ []).
    { intros H0. apply Hnb. by rewrite E, H0, app_nil_r. }
    assert (Ht : tight (c :: k)) by (rewrite <- Hk; apply tight_strip).
    pose proof (head_ok_lstrip last) as Hh.
    assert (E' : strip (last ++ c :: k) = lstrip last ++ c :: k).
    { rewrite E at 1.
      replace ((pre ++ lstrip last) ++ c :: k)
        with (pre ++ (lstrip last ++ c :: k) ++ [])
        by (by rewrite app_nil_r, <- app_assoc).
      apply strip_unique; [done | constructor |].
      split.
      - by destruct (lstrip last).
      - rewrite rev_app_distr. destruct Ht as [_ Hr].
        destruct (rev (c :: k)) as [|c' r] eqn:Er; [|exact Hr].
        simpl in Er. by destruct (rev k). }
    rewrite E'. intros H. apply (f_equal length) in H.
    rewrite length_app in H. destruct (lstrip last); [done|].
    simpl in H. lia.
Qed.

(** X6: A progress file whose last line is not finished, as an editor may
    leave it: the keyword saved next is written behind that line, and
    what is loaded afterwards is one keyword made of the two.  A
    stripped keyword saved behind a line that is not blank is
    therefore not among the keywords loaded, unless it was before. *)
Theorem save_behind_unfinished_line (pre last k : pystr) :
  closed pre → no_linebreak last → no_linebreak k →
  load_completed_keywords (save_completed_keyword k (Some (pre ++ last)))
  = load_completed_keywords (Some pre) ∪ {[strip (last ++ k)]}
  ∧ (¬ blank last → strip k = k →
     k ∉ load_completed_keywords (Some pre) →
     k ∉ load_completed_keywords
           (save_completed_keyword k (Some (pre ++ last)))).
Proof.
  intros Hpre Hl Hk.
  assert (E : load_completed_keywords
                (save_completed_keyword k (Some (pre ++ last)))
              = load_completed_keywords (Some pre) ∪ {[strip (last ++ k)]}).
  { rewrite <- (load_save (last ++ k) (Some pre));
      [|done|by apply no_linebreak_app].
    unfold save_completed_keyword. simpl. by rewrite <- !app_assoc. }
  split; [done|]. intros Hnb Hs Hout. rewrite E.
  intros [H|H%elem_of_singleton]%elem_of_union; [done|].
  by apply (strip_behind_text last k).
Qed.

Lemma save_behind_unfinished_line_witness :
  closed (str "plumbers" ++ [LF])
  ∧ no_linebreak (str "roofers")
  ∧ no_linebreak (str "electricians")
  ∧ load_completed_keywords
      (save_completed_keyword (str "electricians")
         (Some ((str "plumbers" ++ [LF]) ++ str "roofers")))
    = load_completed_keywords (Some (str "plumbers" ++ [LF]))
      ∪ {[strip (str "roofers" ++ str "electricians")]}.
Proof.
  assert (H0 : closed (str "plumbers" ++ [LF]))
    by (right; by exists (str "plumbers")).
  assert (H1 : no_linebreak (str "roofers")) by no_linebreak_literal.
  assert (H2 : no_linebreak (str "electricians")) by no_linebreak_literal.
  split; [exact H0|]. split; [exact H1|]. split; [exact H2|].
  exact (proj1 (save_behind_unfinished_line (str "plumbers" ++ [LF])
                  (str "roofers") (str "electricians") H0 H1 H2)).
Defined.

End ProgressLaws.

(** ** The rounds of the CAPTCHA wait *)

Module CaptchaLaws.
Import PyStr Progress Notify Captcha Orchestrator CaptchaFacts.




End CaptchaLaws.

(** ** The rating line *)

Module RatingLaws.
Import PyStr Re Parser PyStrFacts ProgressFacts ReFacts SearchFacts.
Import GreedyFacts ParserFacts PhoneFacts DetailsFacts.

(** *** Splitting at the middle dot *)

Lemma split_cons sep s : ∃ p rest, split sep s = p :: rest.
Proof.
  induction s as [|c s (p & rest & IH)]; simpl; [by eexists _, _|].
  destruct (Ascii.eqb c sep); [by eexists _, _|].
  rewrite IH. by eexists _, _.
Qed.

Lemma split_head_length sep s p rest :
  split sep s = p :: rest → length p ≤ length s.
Proof.
  revert p rest. induction s as [|c s IH]; intros p rest; simpl.
  - intros [= <- _]. done.
  - destruct (Ascii.eqb c sep); [intros [= <- _]; simpl; lia|].
    destruct (split sep s) as [|h t] eqn:E.
    + intros [= <- _]. simpl. lia.
    + intros [= <- _]. simpl. specialize (IH h t eq_refl). lia.
Qed.

Lemma split_more sep s :
  1 < length (split sep s) ↔ sep ∈ s.
Proof.
  induction s as [|c s IH]; simpl.
  - split; [lia | by intros ?%elem_of_nil].
  - destruct (Ascii.eqb_spec c sep) as [->|Hne].
    + split; [intros _; apply list_elem_of_here|]. intros _.
      destruct (split_cons sep s) as (p & rest & ->). simpl. lia.
    + destruct (split sep s) as [|h t] eqn:E.
      * destruct (split_cons sep s) as (p & rest & E'). congruence.
      * rewrite elem_of_cons. split.
        -- intros H. right. apply IH. simpl in *. lia.
        -- intros [H|H]; [congruence|]. apply IH in H. simpl in *. lia.
Qed.

(** *** The first decimal of a text *)

(** The first place, from the left, where a digit, a point and a digit
    follow one another. *)
Fixpoint first_decimal (s : pystr) : option (ascii * ascii) :=
  match s with
  | [] => None
  | a :: s' =>
      match s' with
      | p :: b :: _ =>
          if is_digit a && Ascii.eqb p "." && is_digit b then Some (a, b)
          else first_decimal s'
      | _ => first_decimal s'
      end
  end.

(** The value of the digits [a] and [b] read as [a.b]. *)
Definition decimal (ab : ascii * ascii) : Q :=
  Qred (Qplus (inject_Z (digit_val ab.1)) (Qmake (digit_val ab.2) 10)).

Lemma take_front {A} (l rest : list A) n :
  n = length l → take (length (l ++ rest) - length rest) (l ++ rest) = l.
Proof.
  intros ->. rewrite length_app.
  replace (length l + length rest - length rest) with (length l) by lia.
  apply take_app_length.
Qed.

Lemma rating_here s :
  match_here false rating_re s
  = match s with
    | a :: p :: b :: rest =>
        if is_digit a && Ascii.eqb p "." && is_digit b
        then Some (rest, [(1, [a; p; b])])
        else None
    | _ => None
    end.
Proof.
  unfold match_here, rating_re, digit.
  destruct s as [|a [|p [|b rest]]]; cbn [run chr_eq].
  - done.
  - by destruct (is_digit a).
  - destruct (is_digit a); [|done]. by destruct (Ascii.eqb p ".").
  - destruct (is_digit a); [|done]. destruct (Ascii.eqb p "."); [|done].
    destruct (is_digit b); [|done]. cbn [andb].
    change (a :: p :: b :: rest) with ([a; p; b] ++ rest).
    by rewrite (take_front [a; p; b] rest 3).
Qed.

(** What line 209 stores for a first part [p0]. *)
Definition rating_value (p0 : pystr) : option Q :=
  match search false rating_re p0 with
  | Some r_match =>
      match group 1 r_match with
      | Some g => match py_float g with Ok v => Some v | Raise _ => None end
      | None => None
      end
  | None => None
  end.

Lemma digit_val_range c : is_digit c = true → (0 ≤ digit_val c ≤ 9)%Z.
Proof.
  unfold is_digit, digit_val. intros [H1 H2]%andb_true_iff.
  apply Nat.leb_le in H1, H2. lia.
Qed.

Lemma py_float_decimal a b :
  is_digit a = true → is_digit b = true →
  py_float [a; "."%char; b] = Ok (decimal (a, b)).
Proof. intros Ha Hb. unfold py_float. by rewrite Ha, Hb. Qed.

Lemma search_rating s : ∀ i,
  match search_from false rating_re i s with
  | Some m =>
      ∃ a b, first_decimal s = Some (a, b)
             ∧ group 1 m = Some [a; "."%char; b]
             ∧ is_digit a = true ∧ is_digit b = true
  | None => first_decimal s = None
  end.
Proof.
  induction s as [|a s IH]; intros i; cbn [search_from].
  - by rewrite rating_here.
  - rewrite rating_here. cbn [first_decimal].
    destruct s as [|p [|b rest]]; try apply (IH (S i)).
    destruct (is_digit a) eqn:Ha; [|apply (IH (S i))].
    destruct (Ascii.eqb_spec p ".") as [->|Hp]; [|apply (IH (S i))].
    destruct (is_digit b) eqn:Hb; [|apply (IH (S i))].
    cbn [andb]. by exists a, b.
Qed.

Lemma rating_value_first p0 :
  rating_value p0 = decimal <$> first_decimal p0.
Proof.
  unfold rating_value, search.
  pose proof (search_rating p0 0) as H.
  destruct (search_from false rating_re 0 p0) as [m|].
  - destruct H as (a & b & -> & -> & Ha & Hb).
    by rewrite py_float_decimal.
  - by rewrite H.
Qed.

Lemma first_decimal_digits s a b :
  first_decimal s = Some (a, b) →
  is_digit a = true ∧ is_digit b = true
  ∧ ∃ pre post, s = pre ++ [a; "."%char; b] ++ post.
Proof.
  induction s as [|c s IH]; [done|]. cbn [first_decimal].
  assert (Hrec : first_decimal s = Some (a, b) →
                 is_digit a = true ∧ is_digit b = true
                 ∧ ∃ pre post, c :: s = pre ++ [a; "."%char; b] ++ post).
  { intros (Ha & Hb & pre & post & ->)%IH. repeat split; try done.
    by exists (c :: pre), post. }
  destruct s as [|p [|d rest]]; try done.
  destruct (is_digit c) eqn:Hc; [|done].
  destruct (Ascii.eqb_spec p ".") as [->|Hp]; [|done].
  destruct (is_digit d) eqn:Hd; [|done].
  cbn [andb]. intros [= <- <-]. repeat split; try done.
  by exists [], rest.
Qed.

Lemma decimal_range a b :
  is_digit a = true → is_digit b = true →
  (0 <= decimal (a, b))%Q ∧ (decimal (a, b) <= 99 # 10)%Q.
Proof.
  intros Ha%digit_val_range Hb%digit_val_range. unfold decimal. simpl.
  rewrite !Qred_correct. unfold Qle, Qplus, inject_Z. simpl. lia.
Qed.

(** *** The review count *)

(** The pattern of the first group of [reviews_re]. *)
Definition count_re : regex :=
  Alt (Seq (Rep digit 1 (Some 3))
         (Rep (Grp 2 (Seq (Chr ",") (Rep digit 3 (Some 3)))) 0 None))
      (Rep digit 1 None).

(** A digit or a comma. *)
Definition count_char (c : ascii) : Prop :=
  is_digit c = true ∨ c = ","%char.

(** What the first group of [reviews_re] can hold: digits and commas,
    a digit first. *)
Definition count_token (g : pystr) : Prop :=
  (∃ c g', g = c :: g' ∧ is_digit c = true) ∧ Forall count_char g.

Lemma all_count_char w : all is_digit w → Forall count_char w.
Proof.
  unfold all. intros H. eapply Forall_impl; [exact H|]. intros c Hc. by left.
Qed.

Lemma count_lang g : lang false count_re g → count_token g.
Proof.
  unfold count_re, digit. intros [H|H]%lang_alt.
  - apply lang_seq in H as (u & v & -> & Hu & Hv).
    apply lang_rep_cls in Hu as (Hu & Hlen & _).
    destruct Hv as (ws & -> & Hws & _).
    assert (Hv : Forall count_char (concat ws)).
    { induction Hws as [|w ws Hw _ IH]; [constructor|].
      simpl. apply Forall_app. split; [|done].
      apply lang_grp, lang_seq in Hw as (x & d & -> & (c & -> & Hc) & Hd).
      apply lang_rep_cls in Hd as (Hd & _).
      simpl. constructor; [|by apply all_count_char].
      right. unfold chr_eq in Hc. by apply Ascii.eqb_eq in Hc. }
    split.
    + destruct u as [|c u]; [simpl in Hlen; lia|].
      exists c, (u ++ concat ws). split; [done|].
      unfold all in Hu. by apply Forall_cons in Hu as [? _].
    + apply Forall_app. split; [by apply all_count_char | done].
  - apply lang_rep_cls in H as (Hu & Hlen & _). split.
    + destruct g as [|c u]; [simpl in Hlen; lia|].
      exists c, u. split; [done|].
      unfold all in Hu. by apply Forall_cons in Hu as [? _].
    + by apply all_count_char.
Qed.

Lemma reviews_here s rest cs :
  match_here false reviews_re s = Some (rest, cs) →
  ∃ g, s = "("%char :: g ++ ")"%char :: rest
       ∧ lookup_cap 1 cs = Some g ∧ count_token g.
Proof.
  unfold match_here, reviews_re. fold count_re. cbn [run].
  destruct s as [|x s']; [done|].
  destruct (chr_eq false "(" x) eqn:Hx; [|done].
  intros H. apply run_sound in H as (w & s1 & cs1 & -> & Hw & Hk & _).
  destruct s1 as [|y s2]; [done|].
  destruct (chr_eq false ")" y) eqn:Hy; [|done].
  injection Hk as <- <-.
  unfold chr_eq in Hx, Hy. apply Ascii.eqb_eq in Hx as ->, Hy as ->.
  exists w.
  change (S (length s2)) with (length (")"%char :: s2)).
  rewrite (take_front w _ (length w)) by done.
  split; [done|]. split; [done | by apply count_lang].
Qed.

Lemma search_reviews s :
  ∀ i m, search_from false reviews_re i s = Some m →
    ∃ pre g post, s = pre ++ "("%char :: g ++ ")"%char :: post
                  ∧ group 1 m = Some g ∧ count_token g.
Proof.
  induction s as [|c s IH]; intros i m; cbn [search_from].
  - destruct (match_here false reviews_re []) as [[rest cs]|] eqn:E; [|done].
    by apply reviews_here in E as (g & ? & _).
  - destruct (match_here false reviews_re (c :: s)) as [[rest cs]|] eqn:E.
    + intros [= <-]. apply reviews_here in E as (g & E & Hg & Ht).
      exists [], g, rest. split; [done|]. split; [exact Hg | exact Ht].
    + intros (pre & g & post & -> & Hg & Ht)%IH.
      exists (c :: pre), g, post. split; [done|]. by split.
Qed.

Lemma digits_val_acc s : ∀ acc,
  (0 ≤ acc)%Z →
  (0 ≤ fold_left (fun acc c => (10 * acc + digit_val c)%Z) s acc)%Z.
Proof.
  induction s as [|c s IH]; intros acc Hacc; simpl; [done|].
  apply IH. unfold digit_val. lia.
Qed.

Lemma digit_not_comma c : is_digit c = true → c ≠ ","%char.
Proof. by intros H ->. Qed.

Lemma int_of_count g :
  count_token g → length g ≤ max_str_digits →
  ∃ n, py_int (remove_char "," g) = Ok n ∧ (0 ≤ n)%Z
       ∧ n = digits_val (remove_char "," g).
Proof.
  intros [(c & g' & -> & Hc) Hall] Hlen. unfold py_int, remove_char.
  rewrite filter_cons_True by (by apply digit_not_comma).
  cbn [truthy andb].
  assert (Hd : forallb is_digit (c :: filter (fun c => c ≠ ","%char) g')
               = true).
  { apply forallb_forall. intros x Hx%list_elem_of_In.
    apply elem_of_cons in Hx as [->|Hx]; [done|].
    apply list_elem_of_filter in Hx as [Hne Hx].
    apply Forall_cons in Hall as [_ Hall]. rewrite Forall_forall in Hall.
    by destruct (Hall x Hx). }
  rewrite Hd.
  assert (Hl : length (c :: filter (fun c => c ≠ ","%char) g')
               ≤ max_str_digits).
  { simpl in *. pose proof (length_filter (fun c => c ≠ ","%char) g'). lia. }
  apply Nat.ltb_ge in Hl. rewrite Hl.
  eexists. split; [done|]. split; [|done].
  unfold digits_val. by apply digits_val_acc.
Qed.

(** What line 210 stores for a first part [p0]. *)
Definition reviews_value (p0 : pystr) : option Z :=
  match search false reviews_re p0 with
  | Some rev_match =>
      match group 1 rev_match with
      | Some g =>
          match py_int (remove_char "," g) with
          | Ok n => Some n
          | Raise _ => None
          end
      | None => None
      end
  | None => None
  end.

(** *** The second block on a rating line *)

Lemma rating_block_value el line p0 rest :
  rating_span el = Ok line → split middle_dot line = p0 :: rest →
  length line ≤ max_str_digits →
  rating_fields (fst (rating_block el (fresh [])))
  = (rating_value p0, reviews_value p0, strip <$> head rest)
  ∧ (is_Some (reviews_value p0) ↔ is_Some (search false reviews_re p0)).
Proof.
  intros Hs Hp Hl.
  assert (Hp0 : length p0 ≤ max_str_digits).
  { pose proof (split_head_length _ _ _ _ Hp). lia. }
  unfold rating_block, rating_value, reviews_value, search.
  rewrite Hs. unfold mbind, M_bind, lift, item, group_or.
  rewrite Hp. cbn [lookup list_lookup].
  pose proof (search_rating p0 0) as H1.
  pose proof (search_reviews p0 0) as H2.
  destruct (search_from false rating_re 0 p0) as [m1|];
    destruct (search_from false reviews_re 0 p0) as [m2|].
  all: try (destruct H1 as (a & b & _ & -> & Ha & Hb);
            rewrite (py_float_decimal a b Ha Hb)).
  all: try (destruct (H2 m2 eq_refl) as (pre & g & post & E & -> & Ht);
            destruct (int_of_count g Ht) as (n & -> & _);
            [rewrite E, length_app in Hp0; simpl in Hp0;
             rewrite length_app in Hp0; lia|]).
  all: destruct rest as [|p1 rest]; cbn; split; try done;
    split; intros; by eexists.
Qed.

(** X8: The second block on any rating line of at most 4300 characters,
    the longest run of digits [int] converts: the block raises nothing.
    The line is split at the middle dots.  Rating is the first digit,
    point, digit of the first part, read as a decimal, so a number
    between 0.0 and 9.9, and is absent when the first part holds no
    such three characters.  Number of Reviews, when present, is the
    number written in the first part between parentheses, its commas
    dropped, and is not negative.  Category is the second part with
    the blanks at its ends removed, and is present exactly when the
    line holds a middle dot. *)
Theorem rating_line_rule (el : WebElement) (k line : pystr) :
  rating_span el = Ok line → length line ≤ max_str_digits →
  ∃ r p0 rest,
    parse_gmb_listing el k = Ok r
    ∧ split middle_dot line = p0 :: rest
    ∧ Rating r = decimal <$> first_decimal p0
    ∧ (∀ v, Rating r = Some v → (0 <= v)%Q ∧ (v <= 99 # 10)%Q)
    ∧ (is_Some (Number_of_Reviews r)
       ↔ is_Some (search false reviews_re p0))
    ∧ (∀ n, Number_of_Reviews r = Some n →
         (0 ≤ n)%Z
         ∧ ∃ pre g post,
             p0 = pre ++ "("%char :: g ++ ")"%char :: post
             ∧ count_token g
             ∧ n = digits_val (remove_char "," g))
    ∧ Category r = strip <$> head rest
    ∧ (is_Some (Category r) ↔ middle_dot ∈ line).
Proof.
  intros Hs Hl.
  destruct (parse_fields el k) as (r & Hr & _ & _ & Hf & _).
  destruct (split_cons middle_dot line) as (p0 & rest & Hp).
  destruct (rating_block_value el line p0 rest Hs Hp Hl) as [Hv Hsome].
  rewrite Hv in Hf. injection Hf as Hrat Hrev Hcat.
  rewrite rating_value_first in Hrat.
  exists r, p0, rest. split; [done|]. split; [done|]. split; [done|].
  split.
  { intros v Hv'. rewrite Hrat in Hv'.
    destruct (first_decimal p0) as [[a b]|] eqn:Hfd; [|done].
    injection Hv' as <-.
    apply first_decimal_digits in Hfd as (Ha & Hb & _).
    by apply decimal_range. }
  split; [by rewrite Hrev|]. split.
  { intros n Hn. rewrite Hrev in Hn. unfold reviews_value, search in Hn.
    destruct (search_from false reviews_re 0 p0) as [m|] eqn:Hm; [|done].
    apply search_reviews in Hm as (pre & g & post & E & Hg & Ht).
    rewrite Hg in Hn.
    assert (Hlen : length g ≤ max_str_digits).
    { pose proof (split_head_length _ _ _ _ Hp) as Hp0.
      rewrite E, length_app in Hp0. simpl in Hp0.
      rewrite length_app in Hp0. lia. }
    destruct (int_of_count g Ht Hlen) as (n' & En & Hpos & Hval).
    rewrite En in Hn. injection Hn as <-.
    split; [done|]. by exists pre, g, post. }
  split; [done|]. rewrite Hcat.
  rewrite <- (split_more middle_dot line), Hp. simpl.
  destruct rest as [|p1 rest]; simpl; split; try lia;
    try (by intros [? ?]); intros. by eexists.
Qed.

(** The rating line of the example with other figures. *)
Definition rating_line_two_dots : pystr :=
  str "3.9 (12,345) " ++ [middle_dot] ++ str " Electrician "
  ++ [middle_dot] ++ str " Open".

Definition listing_two_dots : WebElement :=
  MkElement (Ok (str "Volt")) (Ok rating_line_two_dots) (Ok []).

Lemma rating_line_rule_witness :
  rating_span listing_two_dots = Ok rating_line_two_dots
  ∧ length rating_line_two_dots ≤ max_str_digits
  ∧ ∃ r, parse_gmb_listing listing_two_dots (str "electricians") = Ok r
         ∧ Rating r = Some (39 # 10)
         ∧ Number_of_Reviews r = Some 12345%Z
         ∧ Category r = Some (str "Electrician").
Proof.
  assert (Hlen : length rating_line_two_dots ≤ max_str_digits)
    by (apply Nat.leb_le; by vm_compute).
  split; [reflexivity|]. split; [exact Hlen|].
  destruct (rating_line_rule listing_two_dots (str "electricians")
              rating_line_two_dots eq_refl Hlen)
    as (r & p0 & rest & Hr & Hp & Hrat & _ & _ & _ & Hcat & _).
  exists r. split; [done|].
  vm_compute in Hp. injection Hp as <- <-.
  split; [rewrite Hrat; by vm_compute|].
  split; [|rewrite Hcat; by vm_compute].
  vm_compute in Hr. by injection Hr as <-.
Defined.

End RatingLaws.

(** ** The fields of a record *)

Module ParserLaws.
Import PyStr Re Parser PyStrFacts ProgressFacts ReFacts SearchFacts.
Import GreedyFacts ParserFacts PhoneFacts DetailsFacts.

(** *** The address *)

(** The test of lines 222 and 223 on a stripped block: not passed by,
    and longer than 15 characters. *)
Definition address_like (data : ListingData) (text : pystr) : bool :=
  negb (skipped data text) && (15 <? length text).

Lemma address_loop_find texts :
  ∀ d, address_loop (Ok <$> texts) d
       = match List.find (address_like d) (strip <$> texts) with
         | Some a => set_Address (Some a) d
         | None => (d, Ok tt)
         end.
Proof.
  induction texts as [|t texts IH]; intros d; [done|].
  cbn [fmap list_fmap address_loop List.find].
  unfold mbind, M_bind, lift, get, address_like. cbn zeta.
  destruct (skipped d (strip t)); [apply IH|]. simpl.
  destruct (15 <? length (strip t)); [done | apply IH].
Qed.

Lemma div_texts_readable divs :
  ∀ d ts, snd (div_texts divs d) = Ok ts → ∃ texts, divs = Ok <$> texts.
Proof.
  induction divs as [|div rest IH]; intros d ts; cbn [div_texts].
  - by exists [].
  - unfold mbind, M_bind, lift. destruct div as [c|e]; [|done].
    assert (Hr : ∀ ts', snd (div_texts rest d) = Ok ts' →
                        ∃ texts, Ok c :: rest = Ok <$> texts).
    { intros ts' H. destruct (IH d ts' H) as [texts ->]. by exists (c :: texts). }
    destruct (truthy c); [|apply Hr].
    destruct (div_texts rest d) as [d' [ts'|e]] eqn:E; [|done].
    intros _. apply (Hr ts'). done.
Qed.

(** The third block either leaves the dictionary as it was, or has
    read every child block. *)
Lemma details_block_cases el d :
  fst (details_block el d) = d
  ∨ ∃ texts, child_divs el = Ok (Ok <$> texts).
Proof.
  unfold details_block, mbind, M_bind, lift.
  destruct (child_divs el) as [divs|e]; [|by left].
  pose proof (div_texts_pure divs d) as Hp.
  pose proof (div_texts_readable divs d) as Hr.
  destruct (div_texts divs d) as [d' [ts|e]]; simpl in *; [|by left].
  right. destruct (Hr ts eq_refl) as [texts ->]. by exists texts.
Qed.

(** A fragment whose child blocks can all be read: the dictionary that
    reaches the scan for the address. *)
Lemma parse_readable el k texts :
  child_divs el = Ok (Ok <$> texts) →
  ∃ d, parse_gmb_listing el k = Ok (fst (address_loop (Ok <$> texts) d))
       ∧ Address d = None
       ∧ Phone_Number d = phone_value (full_text texts).
Proof.
  intros Hd. rewrite parse_unfold.
  pose proof (before_details el k) as H0.
  set (d2 := fst (rating_block el (fst (name_block el (fresh k))))) in *.
  injection H0 as Hy Hp Ha.
  destruct (years_stmt_spec (full_text texts) d2)
    as (d3 & E3 & _ & Hp3 & Ha3 & _).
  destruct (phone_stmt_spec (full_text texts) d3)
    as (d4 & E4 & _ & _ & Ha4 & Hp4).
  exists d4. split; [|split].
  - f_equal. unfold details_block. rewrite Hd. unfold mbind, M_bind, lift.
    rewrite div_texts_ok. fold (full_text texts). by rewrite E3, E4.
  - by rewrite Ha4, Ha3.
  - apply Hp4. by rewrite Hp3.
Qed.

Lemma skipped_phone d d' text :
  Phone_Number d = Phone_Number d' → skipped d text = skipped d' text.
Proof. unfold skipped. by intros ->. Qed.

Lemma address_like_phone d d' l :
  Phone_Number d' = Phone_Number d →
  List.find (address_like d') l = List.find (address_like d) l.
Proof.
  intros Hd. induction l as [|t l IH]; [done|].
  cbn [List.find]. unfold address_like at 1 3.
  rewrite (skipped_phone d' d _ Hd). by rewrite IH.
Qed.

Lemma address_readable el k texts :
  child_divs el = Ok (Ok <$> texts) →
  ∃ r, parse_gmb_listing el k = Ok r
       ∧ Phone_Number r = phone_value (full_text texts)
       ∧ Address r = List.find (address_like r) (strip <$> texts).
Proof.
  intros Hd. destruct (parse_readable el k texts Hd) as (d & -> & Ha & Hp).
  eexists. split; [reflexivity|]. rewrite address_loop_find.
  destruct (List.find (address_like d) (strip <$> texts)) as [a|] eqn:Hf.
  - cbn. split; [done|]. by rewrite (address_like_phone d) by done.
  - cbn. split; [done|]. by rewrite Hf.
Qed.





(** *** The shape of the fields of the third block *)

Lemma blank_no_digit w : blank w → List.filter is_digit w = [].
Proof.
  induction 1 as [|c w Hc _ IH]; [done|]. simpl.
  destruct (is_digit c) eqn:Hd; [|done].
  apply digit_not_space in Hd. congruence.
Qed.

Lemma digits_of_strip w :
  List.filter is_digit (strip w) = List.filter is_digit w.
Proof.
  destruct (strip_split w) as (pre & post & E & Hpre & Hpost).
  rewrite E at 2. rewrite !List.filter_app.
  by rewrite (blank_no_digit pre), (blank_no_digit post), app_nil_r.
Qed.

Lemma all_strip f w : all f w → all f (strip w).
Proof.
  intros H. destruct (strip_split w) as (pre & post & E & _).
  rewrite E in H. unfold all in *.
  by apply Forall_app in H as [_ [H _]%Forall_app].
Qed.

Lemma phone_value_shape ft p :
  phone_value ft = Some p →
  8 ≤ length (List.filter is_digit p) ∧ all digit_or_space p ∧ strip p = p.
Proof.
  unfold phone_value.
  destruct (search false phone_re ft) as [m|] eqn:Hs; [|done].
  apply search_sound in Hs as (_ & _ & _ & Hw & _).
  apply phone_lang in Hw. rewrite (phone_test _ Hw).
  destruct (Nat.leb_spec 8 (length (List.filter is_digit (m_text m))))
    as [Hlen|]; [|done].
  intros [= <-]. split; [by rewrite digits_of_strip|].
  split; [by apply all_strip, token_chars | apply strip_idem].
Qed.

Lemma plus_sign_plus c : plus_sign c = true → c = "+"%char.
Proof.
  destruct c as [[] [] [] [] [] [] [] []]; vm_compute; congruence.
Qed.

Lemma years_value_shape ft g :
  years_value ft = Some g →
  ∃ ds p, g = ds ++ p ∧ ds ≠ [] ∧ all is_digit ds
          ∧ (p = [] ∨ p = str "+").
Proof.
  intros (ds & p & -> & Hds & Hne & Hp)%ParserClaims.years_token_shape.
  exists ds, p. repeat split; try done.
  destruct Hp as [->|(c & -> & ->%plus_sign_plus)]; [by left | by right].
Qed.

(** The fields of the third block of any fragment: none, or the ones
    of a fragment whose child blocks were all read. *)
Lemma details_of_any el k :
  ∃ r, parse_gmb_listing el k = Ok r
       ∧ (details_fields r = (None, None, None)
          ∨ ∃ texts, child_divs el = Ok (Ok <$> texts)
                     ∧ Years_in_Business r = years_value (full_text texts)
                     ∧ Phone_Number r = phone_value (full_text texts)
                     ∧ Address r
                       = List.find (address_like r) (strip <$> texts)).
Proof.
  destruct (parse_fields el k) as (r & Hr & _ & _ & _ & Hd).
  exists r. split; [done|].
  destruct (details_block_cases el (fresh [])) as [E|[texts Ht]].
  - left. by rewrite Hd, E.
  - right. exists texts. split; [done|].
    destruct (parse_details el k texts Ht) as (r1 & Hr1 & Hy & Hp).
    destruct (address_readable el k texts Ht) as (r2 & Hr2 & _ & Ha).
    rewrite Hr in Hr1, Hr2. injection Hr1 as <-. injection Hr2 as <-.
    done.
Qed.

(** X11: Whatever the fragment holds, the two fields cut from the joined
    child text have the shape of their patterns.  Years in Business,
    when present, is one or more decimal digits with at most one plus
    sign behind them.  Phone Number, when present, holds nothing but
    decimal digits and blanks, at least eight digits among them, and
    begins and ends with a digit. *)
Theorem years_and_phone_have_the_shape_of_their_patterns (el : WebElement)
    (k : pystr) :
  ∃ r, parse_gmb_listing el k = Ok r
       ∧ (∀ g, Years_in_Business r = Some g →
            ∃ ds p, g = ds ++ p ∧ ds ≠ [] ∧ all is_digit ds
                    ∧ (p = [] ∨ p = str "+"))
       ∧ (∀ p, Phone_Number r = Some p →
            8 ≤ length (List.filter is_digit p)
            ∧ all digit_or_space p
            ∧ strip p = p
            ∧ (∃ c, head p = Some c ∧ is_digit c = true)
            ∧ (∃ c, last p = Some c ∧ is_digit c = true)).
Proof.
  destruct (details_of_any el k) as (r & Hr & Hd).
  exists r. split; [done|].
  destruct Hd as [[= Hy Hp _]|(texts & _ & Hy & Hp & _)].
  - rewrite Hy, Hp. by split.
  - split.
    + intros g Hg. rewrite Hy in Hg. by apply years_value_shape in Hg.
    + intros p Hph. rewrite Hp in Hph.
      apply phone_value_shape in Hph as (Hlen & Hall & Hs).
      split; [done|]. split; [done|]. split; [done|].
      pose proof (tight_strip p) as [Hh Hl]. rewrite Hs in Hh, Hl.
      assert (Hd : ∀ c, c ∈ p → is_space c = false → is_digit c = true).
      { intros c Hc Hsp. unfold all in Hall. rewrite Forall_forall in Hall.
        apply Hall in Hc. unfold digit_or_space in Hc.
        rewrite Hsp, orb_false_r in Hc. done. }
      split.
      * destruct p as [|c p]; [simpl in Hlen; lia|].
        exists c. split; [done|]. apply Hd; [apply list_elem_of_here|done].
      * destruct (rev p) as [|c q] eqn:Er.
        { apply (f_equal (@length ascii)) in Er.
          rewrite length_rev in Er. destruct p; [simpl in Hlen; lia|done]. }
        exists c. split.
        -- rewrite <- (rev_involutive p), Er. simpl. by rewrite last_snoc.
        -- apply Hd; [|done]. apply list_elem_of_In, in_rev.
           rewrite Er. by left.
Qed.

(** X10: The address of any fragment, when the record has one, is a child
    block with the blanks at its ends removed, longer than 15
    characters, that holds none of the words that make the scan pass a
    block by, and not the phone number of the record. *)
Theorem address_is_long_and_plain (el : WebElement) (k : pystr) :
  ∃ r, parse_gmb_listing el k = Ok r
       ∧ ∀ a, Address r = Some a →
           15 < length a ∧ strip a = a
           ∧ (∃ texts t, child_divs el = Ok (Ok <$> texts)
                         ∧ t ∈ texts ∧ a = strip t)
           ∧ contains (str "years in business") (lower a) = false
           ∧ contains [middle_dot] a = false
           ∧ contains (str "Open") a = false
           ∧ contains (str "Closes") a = false
           ∧ contains (str "On-site services") a = false
           ∧ ∀ p, Phone_Number r = Some p → contains p a = false.
Proof.
  destruct (details_of_any el k) as (r & Hr & Hd).
  exists r. split; [done|]. intros a Ha.
  destruct Hd as [[= _ _ Hno]|(texts & Ht & _ & Hp & Hf)]; [congruence|].
  rewrite Hf in Ha. apply find_some in Ha as [Hin Hlike].
  apply list_elem_of_In, list_elem_of_fmap in Hin as (t & -> & Hin).
  unfold address_like in Hlike.
  apply andb_true_iff in Hlike as [Hsk Hlen].
  apply negb_true_iff in Hsk. apply Nat.ltb_lt in Hlen.
  unfold skipped in Hsk.
  repeat (apply orb_false_iff in Hsk as [Hsk ?]).
  split; [done|]. split; [apply strip_idem|].
  split; [by exists texts, t|].
  repeat (split; [done|]).
  intros p Hph.
  assert (Hne : p ≠ []).
  { rewrite Hp in Hph. apply phone_value_shape in Hph as (Hl & _).
    destruct p; [simpl in Hl; lia | done]. }
  match goal with
  | H : match Phone_Number r with _ => _ end = false |- _ =>
      rewrite Hph in H; apply andb_false_iff in H as [H|H];
        [by destruct p | done]
  end.
Qed.

End ParserLaws.

(** ** The log and the progress file of a run *)

Module RunLaws.
Import PyStr Parser Progress Notify Captcha Orchestrator.
Import PyStrFacts ProgressFacts CaptchaFacts ParserFacts DetailsFacts.
Import PaginationFacts RunFacts.
Import SheetLaws ProgressLaws.

(** The keywords saved, in the order of the log. *)
Definition saved (evs : list event) : list pystr :=
  omap (fun ev => match ev with EvSaved k => Some k | _ => None end) evs.

(** An event of the work on keyword [k]. *)
Definition concerns (k : pystr) (ev : event) : Prop :=
  match ev with
  | EvConsoleAlert k' | EvSaved k' | EvPage k' _ => k' = k
  | EvEmail subject body => subject = email_subject ∧ body = email_body k
  | EvSkipped _ | EvCrashed _ => False
  end.

(** The outcomes after which the keyword is saved. *)
Definition marks_done (o : outcome) : bool :=
  match o with
  | CaptchaTimedOut | ExpandNotFound | Scraped => true
  | SearchBoxNotFound | Crashed _ | Waiting => false
  end.

(** The outcomes after which the loop goes on. *)
Definition goes_on (o : outcome) : bool :=
  match o with
  | Crashed _ | Waiting => false
  | _ => true
  end.

(** What the work on one keyword adds to the log. *)
Record step (cfg : Config) (k : pystr) (o : outcome) (st st' : RunState)
    (evs : list event) : Prop := MkStep {
  step_trace : trace st' = trace st ++ evs;
  step_file : progress_file st' = saves (saved evs) (progress_file st);
  step_saved : saved evs = if marks_done o then [k] else [];
  step_concerns : Forall (concerns k) evs;
  step_alerts : alerts evs ≤ 1;
  step_emails :
    emails evs = if ENABLE_EMAIL_NOTIFICATIONS cfg then alerts evs else 0
}.

Lemma saved_app evs evs' : saved (evs ++ evs') = saved evs ++ saved evs'.
Proof. unfold saved. apply omap_app. Qed.

Lemma saved_pages k l : saved (EvPage k <$> l) = [].
Proof. by induction l. Qed.

Lemma alerts_pages k l : alerts (EvPage k <$> l) = 0.
Proof. by induction l. Qed.

Lemma emails_pages k l : emails (EvPage k <$> l) = 0.
Proof. by induction l. Qed.

Lemma concerns_pages k l : Forall (concerns k) (EvPage k <$> l).
Proof. induction l; by constructor. Qed.

Lemma wait_loop_events cfg env k fuel :
  ∀ j sent,
    Forall (concerns k) (fst (wait_loop cfg env k fuel j sent))
    ∧ saved (fst (wait_loop cfg env k fuel j sent)) = []
    ∧ alerts (fst (wait_loop cfg env k fuel j sent)) ≤ 1.
Proof.
  intros j sent.
  assert (H1 : ∀ fuel j sent,
             Forall (concerns k) (fst (wait_loop cfg env k fuel j sent))
             ∧ saved (fst (wait_loop cfg env k fuel j sent)) = []).
  { clear. induction fuel as [|fuel IH]; intros j sent; simpl; [done|].
    destruct (_ <? _)%Z; [|done].
    destruct (iframe_present env j); simpl; [|done].
    specialize (IH (S j) true).
    destruct (wait_loop cfg env k fuel (S j) true) as [evs r].
    simpl in *. destruct IH as [IH1 IH2].
    rewrite saved_app, IH2, app_nil_r.
    unfold alert, send_error_email.
    destruct sent; [done|].
    destruct (ENABLE_EMAIL_NOTIFICATIONS cfg); simpl;
      (split; [|done]); repeat constructor; done. }
  destruct (H1 fuel j sent) as [Ha Hb]. split; [done|]. split; [done|].
  pose proof (wait_loop_spec cfg env k fuel j sent) as H.
  destruct (wait_loop cfg env k fuel j sent) as [evs r]. simpl.
  destruct H as [_ H].
  assert (Ho : ∀ n, owed sent n ≤ 1).
  { intros n. unfold owed. destruct sent; simpl; lia. }
  destruct r as [[|]|].
  - destruct H as (n & _ & _ & _ & _ & ->). apply Ho.
  - destruct H as (n & _ & _ & _ & ->). apply Ho.
  - destruct H as (_ & ->). apply Ho.
Qed.

Lemma step_silent cfg k o st : marks_done o = false → step cfg k o st st [].
Proof.
  intros Ho. split; try done.
  - by rewrite app_nil_r.
  - by rewrite Ho.
  - unfold alerts. simpl. lia.
  - by destruct (ENABLE_EMAIL_NOTIFICATIONS cfg).
Qed.

Lemma step_save cfg k o st evs :
  marks_done o = true →
  Forall (concerns k) evs → saved evs = [] →
  alerts evs ≤ 1 →
  emails evs = (if ENABLE_EMAIL_NOTIFICATIONS cfg then alerts evs else 0) →
  ∀ st1, trace st1 = trace st ++ evs →
         progress_file st1 = progress_file st →
         step cfg k o st (save k st1) (evs ++ [EvSaved k]).
Proof.
  intros Ho Hc Hs Ha He st1 Ht Hp. split.
  - simpl. by rewrite Ht, <- app_assoc.
  - simpl. by rewrite saved_app, Hs, Hp.
  - by rewrite saved_app, Hs, Ho.
  - apply Forall_app. split; [done | by repeat constructor].
  - rewrite alerts_app. simpl. change (alerts [EvSaved k]) with 0. lia.
  - rewrite emails_app, alerts_app, He.
    change (alerts [EvSaved k]) with 0. change (emails [EvSaved k]) with 0.
    destruct (ENABLE_EMAIL_NOTIFICATIONS cfg); lia.
Qed.

Lemma step_quiet cfg k o st evs :
  marks_done o = false →
  Forall (concerns k) evs → saved evs = [] →
  alerts evs ≤ 1 →
  emails evs = (if ENABLE_EMAIL_NOTIFICATIONS cfg then alerts evs else 0) →
  ∀ st1, trace st1 = trace st ++ evs →
         progress_file st1 = progress_file st →
         step cfg k o st st1 evs.
Proof.
  intros Ho Hc Hs Ha He st1 Ht Hp. split; try done.
  - by rewrite Hs, Hp.
  - by rewrite Hs, Ho.
Qed.

(** Lines 261 to 291 behind some notices [evs0]. *)
Lemma expand_step cfg s k st st0 evs0 :
  trace st0 = trace st ++ evs0 → progress_file st0 = progress_file st →
  Forall (concerns k) evs0 → saved evs0 = [] → alerts evs0 ≤ 1 →
  emails evs0
  = (if ENABLE_EMAIL_NOTIFICATIONS cfg then alerts evs0 else 0) →
  ∃ evs, step cfg k (fst (expand_and_scrape s k st0)) st
           (snd (expand_and_scrape s k st0)) evs
         ∧ (fst (expand_and_scrape s k st0) = ExpandNotFound
            ∨ fst (expand_and_scrape s k st0) = Scraped
            ∨ ∃ e, fst (expand_and_scrape s k st0) = Crashed e).
Proof.
  intros Ht Hp Hc Hs Ha He. unfold expand_and_scrape.
  destruct (more_button s) as [[]|e].
  - destruct (pagination_spec s k MAX_GMB_PAGES_TO_SCRAPE 1 st0 (le_n 1))
      as (n & new & Ht1 & Hp1 & _).
    pose proof (concerns_pages k (seq 1 n)) as Pc.
    pose proof (saved_pages k (seq 1 n)) as Ps.
    pose proof (alerts_pages k (seq 1 n)) as Pa.
    pose proof (emails_pages k (seq 1 n)) as Pe.
    set (pages := EvPage k <$> seq 1 n) in *.
    assert (Hc1 : Forall (concerns k) (evs0 ++ pages)).
    { by apply Forall_app. }
    assert (Hs1 : saved (evs0 ++ pages) = []).
    { by rewrite saved_app, Hs, Ps. }
    assert (Ha1 : alerts (evs0 ++ pages) ≤ 1).
    { rewrite alerts_app, Pa. lia. }
    assert (He1 : emails (evs0 ++ pages)
                  = if ENABLE_EMAIL_NOTIFICATIONS cfg
                    then alerts (evs0 ++ pages) else 0).
    { rewrite emails_app, alerts_app, He, Pa, Pe.
      destruct (ENABLE_EMAIL_NOTIFICATIONS cfg); lia. }
    destruct (pagination s k (seq 1 MAX_GMB_PAGES_TO_SCRAPE) st0)
      as [st1 [e|]]; simpl in *.
    + exists (evs0 ++ pages). split; [|right; right; by exists e].
      apply step_quiet; try done.
      * by rewrite Ht1, Ht, <- app_assoc.
      * by rewrite Hp1.
    + exists ((evs0 ++ pages) ++ [EvSaved k]). split; [|right; by left].
      apply step_save; try done.
      * by rewrite Ht1, Ht, <- app_assoc.
      * by rewrite Hp1.
  - destruct (decide (e = TimeoutException)) as [->|Hne].
    + exists (evs0 ++ [EvSaved k]). split; [|by left].
      by apply step_save.
    + assert (E : (match e with
                   | TimeoutException => (ExpandNotFound, save k st0)
                   | _ => (Crashed e, st0)
                   end) = (Crashed e, st0)) by (by destruct e).
      rewrite E. exists evs0. split; [|right; right; by exists e].
      by apply step_quiet.
Qed.

(** Lines 248 to 291. *)
Lemma process_step cfg fuel s k st :
  ∃ evs, step cfg k (fst (process_keyword cfg fuel s k st)) st
           (snd (process_keyword cfg fuel s k st)) evs
         ∧ (fst (process_keyword cfg fuel s k st) = SearchBoxNotFound
            ↔ page_load s = Ok tt ∧ search_box s = Raise TimeoutException).
Proof.
  unfold process_keyword, find_and_type_in_search_box.
  destruct (page_load s) as [[]|e0].
  2: { exists []. split; [by apply step_silent|]. split; [done|].
       by intros [? _]. }
  destruct (search_box s) as [[]|e].
  2: { destruct e; exists []; (split; [by apply step_silent|]);
         split; try done; by intros [_ ?]. }
  assert (Hx : ∀ st0 evs0,
             trace st0 = trace st ++ evs0 →
             progress_file st0 = progress_file st →
             Forall (concerns k) evs0 → saved evs0 = [] → alerts evs0 ≤ 1 →
             emails evs0
             = (if ENABLE_EMAIL_NOTIFICATIONS cfg then alerts evs0 else 0) →
             ∃ evs, step cfg k (fst (expand_and_scrape s k st0)) st
                      (snd (expand_and_scrape s k st0)) evs
                    ∧ (fst (expand_and_scrape s k st0) = SearchBoxNotFound
                       ↔ Ok tt = Ok tt
                         ∧ @Ok unit tt = Raise TimeoutException)).
  { intros st0 evs0 H1 H2 H3 H4 H5 H6.
    destruct (expand_step cfg s k st st0 evs0 H1 H2 H3 H4 H5 H6)
      as (evs & Hstep & Ho).
    exists evs. split; [done|]. split; [|by intros [_ ?]].
    intros E. rewrite E in Ho. by destruct Ho as [|[|[? ?]]]. }
  destruct (captcha_detected s).
  - unfold handle_captcha.
    destruct (wait_loop_events cfg (captcha s) k fuel 0 false)
      as (Hc & Hs & Ha).
    pose proof (wait_loop_spec cfg (captcha s) k fuel 0 false) as Hw.
    destruct (wait_loop cfg (captcha s) k fuel 0 false) as [evs0 r].
    simpl in Hc, Hs, Ha. destruct Hw as [He _].
    destruct r as [[|]|].
    + by apply (Hx (log evs0 st) evs0).
    + exists (evs0 ++ [EvSaved k]). split; [|split; [done | by intros [_ ?]]].
      by apply (step_save cfg k CaptchaTimedOut st evs0).
    + exists evs0. split; [|split; [done | by intros [_ ?]]].
      by apply step_quiet.
  - apply (Hx st []); try done.
    + by rewrite app_nil_r.
    + unfold alerts. simpl. lia.
    + by destruct (ENABLE_EMAIL_NOTIFICATIONS cfg).
Qed.

Lemma process_goes_on cfg fuel s k st :
  goes_on (fst (process_keyword cfg fuel s k st)) = true →
  page_load s = Ok tt.
Proof.
  unfold process_keyword. by destruct (page_load s) as [[]|e0].
Qed.

(** *** The records of a keyword *)

(** The record of a listing. *)
Definition parsed (k : pystr) (el : WebElement) : ListingData :=
  match parse_gmb_listing el k with
  | Ok r => r
  | Raise _ => fresh k
  end.

(** The records of some listings that are kept. *)
Definition kept_records (k : pystr) (els : list WebElement)
    : list ListingData :=
  List.filter has_name (parsed k <$> els).

Lemma collect_in_order k els :
  ∀ data, collect k els data = Ok (data ++ kept_records k els).
Proof.
  induction els as [|el els IH]; intros data; cbn [collect].
  - unfold kept_records. simpl. by rewrite app_nil_r.
  - unfold kept_records, parsed. cbn [fmap list_fmap List.filter].
    destruct (parse_fields el k) as (r & -> & _).
    fold (parsed k). fold (kept_records k els).
    rewrite IH. destruct (has_name r); [|done].
    by rewrite <- app_assoc.
Qed.

Lemma pagination_in_order s k len :
  ∀ a st, 1 ≤ a →
    ∃ n, n ≤ len
      ∧ trace (fst (pagination s k (seq a len) st))
        = trace st ++ (EvPage k <$> seq a n)
      ∧ all_gmb_data (fst (pagination s k (seq a len) st))
        = all_gmb_data st
          ++ concat ((fun j => kept_records k (listings (pages s j)))
                     <$> seq (a - 1) n).
Proof.
  induction len as [|len IH]; intros a st Ha.
  - exists 0. simpl. by rewrite !app_nil_r.
  - cbn [seq pagination].
    destruct (listings (pages s (a - 1))) as [|el els] eqn:Hl.
    + exists 1. split; [lia|]. cbn. rewrite Hl. by rewrite app_nil_r.
    + rewrite <- Hl. rewrite collect_in_order.
      destruct (next_button (pages s (a - 1))) as [[]|e].
      * match goal with
        | |- context [pagination s k (seq (S a) len) ?st1] =>
            destruct (IH (S a) st1) as (n & Hn & Ht & Hd); [lia|]
        end.
        exists (S n). split; [lia|].
        replace (S a - 1) with a in Hd by lia. rewrite Ht, Hd.
        replace (seq (a - 1) (S n)) with ((a - 1) :: seq a n)
          by (cbn [seq]; do 2 f_equal; lia).
        cbn. by rewrite <- !app_assoc.
      * exists 1. split; [lia|].
        assert (E : fst (match e with
                         | NoSuchElementException =>
                             (MkState (progress_file (log [EvPage k a] st))
                                (all_gmb_data (log [EvPage k a] st)
                                 ++ kept_records k
                                      (listings (pages s (a - 1))))
                                (trace (log [EvPage k a] st)), None)
                         | _ =>
                             (MkState (progress_file (log [EvPage k a] st))
                                (all_gmb_data (log [EvPage k a] st)
                                 ++ kept_records k
                                      (listings (pages s (a - 1))))
                                (trace (log [EvPage k a] st)), Some e)
                         end)
                    = MkState (progress_file st)
                        (all_gmb_data st
                         ++ kept_records k (listings (pages s (a - 1))))
                        (trace st ++ [EvPage k a])).
        { by destruct e. }
        rewrite E. cbn. by rewrite app_nil_r.
Qed.

(** X12: The pagination loop keeps the records in the order in which the
    browser shows the listings: page after page, and on a page listing
    after listing.  After the pages 1 to [n] that it logs, the result
    set is what it was before, followed by the records of the listings
    of those pages that have a name, nothing added and nothing else
    left out; this holds too when the loop is left by an exception of
    the next-page control, whose page is the last one collected. *)
Theorem records_are_kept_in_page_order (s : Session) (keyword : pystr)
    (st : RunState) :
  ∃ n, n ≤ MAX_GMB_PAGES_TO_SCRAPE
    ∧ trace (fst (pagination s keyword (seq 1 MAX_GMB_PAGES_TO_SCRAPE) st))
      = trace st ++ (EvPage keyword <$> seq 1 n)
    ∧ all_gmb_data
        (fst (pagination s keyword (seq 1 MAX_GMB_PAGES_TO_SCRAPE) st))
      = all_gmb_data st
        ++ concat ((fun j => kept_records keyword (listings (pages s j)))
                   <$> seq 0 n)
    ∧ ∀ el, parse_gmb_listing el keyword = Ok (parsed keyword el).
Proof.
  destruct (pagination_in_order s keyword MAX_GMB_PAGES_TO_SCRAPE 1 st
              (le_n 1)) as (n & Hn & Ht & Hd).
  exists n. by repeat split.
Qed.

(** *** The keyword loop *)

(** The keywords of the list that were not loaded as completed. *)
Definition attempted (completed : gset pystr) (todo : list (nat * pystr))
    : list (nat * pystr) :=
  List.filter (fun p => bool_decide (p.2 ∉ completed)) todo.

(** Whether the wait for the search box ended with the box. *)
Definition box_found (s : Session) : bool :=
  match search_box s with
  | Raise TimeoutException => false
  | _ => true
  end.

(** The keywords of the list the run searched for. *)
Definition searched (world : nat → Session) (completed : gset pystr)
    (todo : list (nat * pystr)) : list pystr :=
  snd <$> List.filter (fun p => box_found (world p.1))
            (attempted completed todo).

(** An event of the loop over the list [todo]. *)
Definition loop_event (completed : gset pystr) (todo : list (nat * pystr))
    (ev : event) : Prop :=
  match ev with
  | EvSkipped k => k ∈ completed ∧ ∃ i, (i, k) ∈ todo
  | EvCrashed _ => False
  | _ => ∃ i k, (i, k) ∈ todo ∧ (k ∉ completed) ∧ concerns k ev
  end.

Lemma loop_event_further completed p todo ev :
  loop_event completed todo ev → loop_event completed (p :: todo) ev.
Proof.
  destruct ev; simpl; try done;
    try (intros (i & k & Hin & H); exists i, k;
         split; [by apply list_elem_of_further | done]).
  intros (Hc & i & Hin). split; [done|]. exists i.
  by apply list_elem_of_further.
Qed.

Lemma loop_event_here completed i k todo ev :
  k ∉ completed → concerns k ev →
  loop_event completed ((i, k) :: todo) ev.
Proof.
  intros Hk Hc. destruct ev; simpl in *; try done;
    exists i, k; (split; [apply list_elem_of_here | done]).
Qed.

Lemma keyword_loop_log cfg fuel world completed todo :
  ∀ st, ∃ evs,
    trace (snd (keyword_loop cfg fuel world completed todo st))
    = trace st ++ evs
    ∧ progress_file (snd (keyword_loop cfg fuel world completed todo st))
      = saves (saved evs) (progress_file st)
    ∧ Forall (loop_event completed todo) evs
    ∧ alerts evs ≤ length (attempted completed todo)
    ∧ emails evs
      = (if ENABLE_EMAIL_NOTIFICATIONS cfg then alerts evs else 0)
    ∧ (fst (keyword_loop cfg fuel world completed todo st) = Exhausted →
       saved evs = searched world completed todo).
Proof.
  induction todo as [|[i k] rest IH]; intros st; cbn [keyword_loop].
  - exists []. rewrite app_nil_r. repeat split; try done.
    by destruct (ENABLE_EMAIL_NOTIFICATIONS cfg).
  - unfold searched, attempted. cbn [List.filter snd].
    fold (attempted completed rest).
    destruct (decide (k ∈ completed)) as [Hin|Hout].
    + rewrite bool_decide_eq_false_2 by (intros H; by apply H).
      fold (searched world completed rest).
      destruct (IH (log [EvSkipped k] st))
        as (evs & Ht & Hp & Hall & Ha & He & Hs).
      exists (EvSkipped k :: evs). simpl in Ht, Hp.
      split; [by rewrite Ht, <- app_assoc|]. split; [done|].
      split.
      { constructor.
        - split; [done|]. exists i. apply list_elem_of_here.
        - eapply Forall_impl; [exact Hall|].
          intros ev. apply loop_event_further. }
      split; [done|]. split; [done|]. done.
    + rewrite bool_decide_eq_true_2 by done.
      destruct (process_step cfg fuel (world i) k st)
        as (evs1 & [Ht1 Hp1 Hs1 Hc1 Ha1 He1] & Hbox).
      pose proof (process_goes_on cfg fuel (world i) k st) as Hload.
      assert (Hall1 : Forall (loop_event completed ((i, k) :: rest)) evs1).
      { eapply Forall_impl; [exact Hc1|].
        intros ev. by apply loop_event_here. }
      destruct (process_keyword cfg fuel (world i) k st) as [o st1].
      cbn [fst snd] in *.
      assert (Hstop : goes_on o = false →
                ∃ evs, trace st1 = trace st ++ evs
                  ∧ progress_file st1 = saves (saved evs) (progress_file st)
                  ∧ Forall (loop_event completed ((i, k) :: rest)) evs
                  ∧ alerts evs
                    ≤ length ((i, k) :: attempted completed rest)
                  ∧ emails evs
                    = (if ENABLE_EMAIL_NOTIFICATIONS cfg
                       then alerts evs else 0)).
      { intros _. exists evs1. repeat split; try done. simpl. lia. }
      assert (Hgo : goes_on o = true →
                ∃ evs,
                  trace (snd (keyword_loop cfg fuel world completed rest st1))
                  = trace st ++ evs
                  ∧ progress_file
                      (snd (keyword_loop cfg fuel world completed rest st1))
                    = saves (saved evs) (progress_file st)
                  ∧ Forall (loop_event completed ((i, k) :: rest)) evs
                  ∧ alerts evs
                    ≤ length ((i, k) :: attempted completed rest)
                  ∧ emails evs
                    = (if ENABLE_EMAIL_NOTIFICATIONS cfg
                       then alerts evs else 0)
                  ∧ (fst (keyword_loop cfg fuel world completed rest st1)
                     = Exhausted →
                     saved evs
                     = snd <$> List.filter
                                 (fun p => box_found (world p.1))
                                 ((i, k) :: attempted completed rest))).
      { intros Hon.
        destruct (IH st1) as (evs & Ht & Hp & Hall & Ha & He & Hs).
        exists (evs1 ++ evs).
        split; [by rewrite Ht, Ht1, <- app_assoc|].
        split.
        { rewrite Hp, Hp1, saved_app. unfold saves. by rewrite foldl_app. }
        split.
        { apply Forall_app. split; [done|].
          eapply Forall_impl; [exact Hall|].
          intros ev. apply loop_event_further. }
        split; [rewrite alerts_app; simpl; lia|].
        split.
        { rewrite emails_app, alerts_app, He, He1.
          destruct (ENABLE_EMAIL_NOTIFICATIONS cfg); lia. }
        intros Hex. rewrite saved_app, (Hs Hex), Hs1.
        cbn [List.filter fst snd].
        assert (Eb : box_found (world i) = marks_done o).
        { unfold box_found. specialize (Hload Hon).
          destruct (marks_done o) eqn:Hm.
          - assert (Hne : search_box (world i) ≠ Raise TimeoutException).
            { intros Hsb. assert (o = SearchBoxNotFound) as ->
                by (by apply Hbox). done. }
            destruct (search_box (world i)) as [[]|[]]; done.
          - assert (o = SearchBoxNotFound) as Ho by (by destruct o).
            apply Hbox in Ho as [_ ->]. done. }
        rewrite Eb. fold (searched world completed rest).
        by destruct (marks_done o). }
      destruct o; cbn [fst snd];
        try (apply Hgo; reflexivity);
        destruct (Hstop eq_refl) as (evs & H1 & H2 & H3 & H4 & H5);
        exists evs; repeat split; try done.
Qed.

(** *** A whole run *)

(** What the outer handler adds to the log. *)
Definition crash_report (cfg : Config) (e : ending) : list event :=
  match e with
  | Aborted e => EvCrashed e :: send_error_email cfg crash_subject crash_body
  | Exhausted | Stuck => []
  end.

Lemma main_log cfg fuel world progress col_values :
  ∃ evs,
    trace (final (main cfg fuel world progress col_values))
    = evs ++ crash_report cfg (ended (main cfg fuel world progress col_values))
    ∧ progress_file (final (main cfg fuel world progress col_values))
      = saves (saved evs) progress
    ∧ Forall (loop_event (load_completed_keywords progress)
                (enumerate (get_keywords_from_sheet col_values))) evs
    ∧ alerts evs
      ≤ length (attempted (load_completed_keywords progress)
                  (enumerate (get_keywords_from_sheet col_values)))
    ∧ emails evs
      = (if ENABLE_EMAIL_NOTIFICATIONS cfg then alerts evs else 0)
    ∧ (ended (main cfg fuel world progress col_values) = Exhausted →
       saved evs
       = searched world (load_completed_keywords progress)
           (enumerate (get_keywords_from_sheet col_values))).
Proof.
  unfold main.
  destruct (keyword_loop_log cfg fuel world
              (load_completed_keywords progress)
              (enumerate (get_keywords_from_sheet col_values))
              (MkState progress [] []))
    as (evs & Ht & Hp & Hall & Ha & He & Hs).
  destruct (keyword_loop cfg fuel world _ _ _) as [e st].
  cbn [fst snd trace progress_file] in *. rewrite app_nil_l in Ht.
  exists evs. destruct e; cbn [final ended crash_report trace progress_file log];
    rewrite ?app_nil_r; repeat split; try done.
  by rewrite Ht.
Qed.

Lemma saved_crash_report cfg e : saved (crash_report cfg e) = [].
Proof.
  destruct e; try done. simpl. unfold send_error_email.
  by destruct (ENABLE_EMAIL_NOTIFICATIONS cfg).
Qed.

Lemma saved_elem k evs : k ∈ saved evs ↔ EvSaved k ∈ evs.
Proof.
  unfold saved. rewrite list_elem_of_omap. split.
  - intros (ev & Hin & Hev). destruct ev; try done. by injection Hev as ->.
  - intros Hin. by exists (EvSaved k).
Qed.

(** The text of the file after a run of saves. *)
Lemma saves_text ks : ∀ f,
  default [] (saves ks f)
  = default [] f ++ concat ((fun k => k ++ [LF]) <$> ks).
Proof.
  induction ks as [|k ks IH]; intros f; simpl.
  - by rewrite app_nil_r.
  - rewrite IH. simpl. by rewrite <- !app_assoc.
Qed.

Lemma concerns_one k k' ev : concerns k ev → concerns k' ev → k = k'.
Proof.
  destruct ev; simpl; try congruence; try done.
  intros [_ ->] [_ E]. unfold email_body in E.
  repeat (apply app_inv_head in E). by apply app_inv_tail in E.
Qed.

Lemma crash_report_concerns cfg e k :
  Forall (fun ev => ¬ concerns k ev) (crash_report cfg e).
Proof.
  destruct e; try constructor; [by intros ?|].
  unfold send_error_email.
  destruct (ENABLE_EMAIL_NOTIFICATIONS cfg); constructor; [|constructor].
  intros [E _]. by vm_compute in E.
Qed.

Lemma loop_event_concerns completed todo k ev :
  loop_event completed todo ev → concerns k ev →
  (k ∉ completed) ∧ ∃ i, (i, k) ∈ todo.
Proof.
  intros Hl Hk.
  destruct ev; cbn [loop_event] in Hl; try (by destruct Hk);
    destruct Hl as (i & k' & Hin & Hout & Hc);
    assert (k' = k) as -> by exact (concerns_one _ _ _ Hc Hk);
    (split; [done | by exists i]).
Qed.

(** X13: The progress file is only ever added to.  At the end of a run,
    however it ended, the file is what it was at the start followed by
    one line for every keyword the log reports as saved, in that order.
    Every keyword saved is a keyword of the sheet that was not loaded
    as completed; every keyword skipped was loaded as completed; and a
    keyword that is worked on in any way is one that was not. *)
Theorem progress_file_is_only_added_to (cfg : Config) (fuel : nat)
    (world : nat → Session) (progress : file) (col_values : list pystr) :
  progress_file (final (main cfg fuel world progress col_values))
  = saves (saved (trace (final (main cfg fuel world progress col_values))))
      progress
  ∧ default [] (progress_file
                  (final (main cfg fuel world progress col_values)))
    = default [] progress
      ++ concat ((fun k => k ++ [LF])
                 <$> saved (trace (final (main cfg fuel world progress
                                            col_values))))
  ∧ (∀ k ev, ev ∈ trace (final (main cfg fuel world progress col_values)) →
       concerns k ev →
       k ∈ get_keywords_from_sheet col_values
       ∧ k ∉ load_completed_keywords progress)
  ∧ (∀ k, EvSkipped k
          ∈ trace (final (main cfg fuel world progress col_values)) →
       k ∈ get_keywords_from_sheet col_values
       ∧ k ∈ load_completed_keywords progress).
Proof.
  destruct (main_log cfg fuel world progress col_values)
    as (evs & Ht & Hp & Hall & _).
  assert (Hs : saved (trace (final (main cfg fuel world progress col_values)))
               = saved evs).
  { by rewrite Ht, saved_app, saved_crash_report, app_nil_r. }
  rewrite Hs. split; [done|]. split; [by rewrite Hp, saves_text|].
  rewrite Forall_forall in Hall. split.
  - intros k ev Hev Hk. rewrite Ht in Hev.
    apply elem_of_app in Hev as [Hev|Hev].
    + destruct (loop_event_concerns _ _ k ev (Hall ev Hev) Hk)
        as (Hout & i & Hi).
      split; [by apply enumerate_elem in Hi | done].
    + pose proof (crash_report_concerns cfg
                    (ended (main cfg fuel world progress col_values)) k)
        as Hc.
      rewrite Forall_forall in Hc. by apply Hc in Hev.
  - intros k Hev. rewrite Ht in Hev.
    apply elem_of_app in Hev as [Hev|Hev].
    + apply Hall in Hev as (Hin & i & Hi).
      split; [by apply enumerate_elem in Hi | done].
    + exfalso. revert Hev. destruct (ended _); simpl;
        rewrite ?elem_of_nil; try done.
      unfold send_error_email.
      destruct (ENABLE_EMAIL_NOTIFICATIONS cfg);
        rewrite !elem_of_cons, ?elem_of_nil; intros H;
        repeat destruct H as [H|H]; done.
Qed.

Lemma main_data cfg fuel world progress col_values d :
  d ∈ all_gmb_data (final (main cfg fuel world progress col_values)) →
  Keyword d ∉ load_completed_keywords progress.
Proof.
  unfold main.
  destruct (keyword_loop_data cfg fuel world
              (load_completed_keywords progress)
              (enumerate (get_keywords_from_sheet col_values))
              (MkState progress [] [])) as (new & E & Hnew).
  destruct (keyword_loop cfg fuel world _ _ _) as [e st]. simpl in E.
  rewrite Forall_forall in Hnew.
  assert (H : d ∈ all_gmb_data st → Keyword d ∉ load_completed_keywords progress).
  { rewrite E. intros Hd. by destruct (Hnew d Hd) as (_ & Hc & _). }
  by destruct e.
Qed.

(** X14: A keyword that one run has saved is not worked on by the next.
    Where the progress file a run starts from is missing, or empty, or
    ends with a line feed, and no keyword of the sheet holds a line
    break, the keywords loaded from the file the run leaves are those
    loaded at its start and those it saved; and a run that starts from
    the file it left, with whatever sheet and browser, logs nothing
    about a keyword saved before (no page, no notice, no second
    save) and keeps no record of it. *)
Theorem saved_keywords_are_skipped_by_the_next_run (cfg : Config)
    (fuel : nat) (world : nat → Session) (progress : file)
    (col_values : list pystr) :
  closed_file progress →
  Forall no_linebreak (get_keywords_from_sheet col_values) →
  load_completed_keywords
    (progress_file (final (main cfg fuel world progress col_values)))
  = load_completed_keywords progress
    ∪ list_to_set
        (saved (trace (final (main cfg fuel world progress col_values))))
  ∧ ∀ k, EvSaved k ∈ trace (final (main cfg fuel world progress col_values)) →
      ∀ cfg' fuel' world' col_values',
        (∀ ev,
           ev ∈ trace (final (main cfg' fuel' world'
                                (progress_file
                                   (final (main cfg fuel world progress
                                             col_values)))
                                col_values')) →
           ¬ concerns k ev)
        ∧ (∀ d,
             d ∈ all_gmb_data
                   (final (main cfg' fuel' world'
                             (progress_file
                                (final (main cfg fuel world progress
                                          col_values)))
                             col_values')) →
             Keyword d ≠ k).
Proof.
  intros Hclosed Hnl.
  destruct (main_log cfg fuel world progress col_values)
    as (evs & Ht & Hp & Hall & _).
  set (run := main cfg fuel world progress col_values) in *.
  assert (Hs : saved (trace (final run)) = saved evs).
  { by rewrite Ht, saved_app, saved_crash_report, app_nil_r. }
  assert (Hsheet : Forall (fun k => k ∈ get_keywords_from_sheet col_values)
                     (saved evs)).
  { apply Forall_forall. intros k Hk%saved_elem.
    rewrite Forall_forall in Hall.
    destruct (loop_event_concerns _ _ k _ (Hall _ Hk) eq_refl)
      as (_ & i & Hi).
    by apply enumerate_elem in Hi. }
  assert (Hclean : Forall no_linebreak (saved evs)).
  { eapply Forall_impl; [exact Hsheet|]. intros k Hk.
    rewrite Forall_forall in Hnl. by apply Hnl. }
  assert (Hstrip : strip <$> saved evs = saved evs).
  { pose proof (sheet_keywords_stripped col_values) as Hst.
    rewrite Forall_forall in Hst.
    clear -Hsheet Hst. induction Hsheet as [|k ks Hk _ IH]; [done|].
    rewrite fmap_cons, IH. by destruct (Hst k Hk) as [-> _]. }
  assert (Hload : load_completed_keywords (progress_file (final run))
                  = load_completed_keywords progress
                    ∪ list_to_set (saved (trace (final run)))).
  { by rewrite Hs, Hp, load_saves, Hstrip. }
  split; [done|].
  intros k Hk cfg' fuel' world' col_values'.
  assert (Hin : k ∈ load_completed_keywords (progress_file (final run))).
  { rewrite Hload. apply elem_of_union. right.
    apply elem_of_list_to_set. by apply saved_elem. }
  split.
  - intros ev Hev Hc.
    destruct (main_log cfg' fuel' world' (progress_file (final run))
                col_values') as (evs' & Ht' & _ & Hall' & _).
    rewrite Ht' in Hev. apply elem_of_app in Hev as [Hev|Hev].
    + rewrite Forall_forall in Hall'.
      by destruct (loop_event_concerns _ _ k ev (Hall' ev Hev) Hc).
    + pose proof (crash_report_concerns cfg'
                    (ended (main cfg' fuel' world'
                              (progress_file (final run)) col_values')) k)
        as Hcr.
      rewrite Forall_forall in Hcr. by apply Hcr in Hev.
  - intros d Hd <-. by apply main_data in Hd.
Qed.

(** The run of the examples: one keyword, scraped from one page. *)
Definition run_example : RunResult :=
  main RunClaims.config_example 100 (fun _ => RunClaims.session_scraped)
    None RunClaims.sheet.

Lemma sheet_example :
  get_keywords_from_sheet RunClaims.sheet = [RunClaims.kw].
Proof. by vm_compute. Qed.

Lemma sheet_example_clean :
  Forall no_linebreak (get_keywords_from_sheet RunClaims.sheet).
Proof.
  rewrite sheet_example. constructor; [|constructor].
  exact (proj2 ProgressClaims.clean_plumbers).
Qed.

Lemma saved_keywords_are_skipped_by_the_next_run_witness :
  closed_file None
  ∧ Forall no_linebreak (get_keywords_from_sheet RunClaims.sheet)
  ∧ EvSaved RunClaims.kw ∈ trace (final run_example)
  ∧ RunClaims.kw ∈ load_completed_keywords (progress_file (final run_example))
  ∧ ∀ ev,
      ev ∈ trace (final (main RunClaims.config_example 100
                           (fun _ => RunClaims.session_scraped)
                           (progress_file (final run_example))
                           RunClaims.sheet)) →
      ¬ concerns RunClaims.kw ev.
Proof.
  assert (Hs : EvSaved RunClaims.kw ∈ trace (final run_example)).
  { assert (E : trace (final run_example)
                = [EvPage RunClaims.kw 1; EvSaved RunClaims.kw])
      by (by vm_compute).
    rewrite E. apply list_elem_of_further, list_elem_of_here. }
  split; [apply closed_missing|]. split; [apply sheet_example_clean|].
  split; [exact Hs|].
  destruct (saved_keywords_are_skipped_by_the_next_run
              RunClaims.config_example 100
              (fun _ => RunClaims.session_scraped) None RunClaims.sheet
              closed_missing sheet_example_clean) as [Hl Hn].
  split.
  - unfold run_example. rewrite Hl. apply elem_of_union. right.
    apply elem_of_list_to_set. by apply saved_elem.
  - exact (proj1 (Hn RunClaims.kw Hs RunClaims.config_example 100
                    (fun _ => RunClaims.session_scraped) RunClaims.sheet)).
Defined.

(** X15: A run that gets through its list saves each keyword it searched
    for: the keywords saved are, in the order of the sheet and as often
    as the sheet lists them, the keywords that were not loaded as
    completed and whose search box was found.  The set of completed
    keywords is read once, before the loop, so a keyword the sheet
    lists twice is searched and saved twice. *)
Theorem a_finished_run_saves_what_it_searched (cfg : Config) (fuel : nat)
    (world : nat → Session) (progress : file) (col_values : list pystr) :
  ended (main cfg fuel world progress col_values) = Exhausted →
  saved (trace (final (main cfg fuel world progress col_values)))
  = searched world (load_completed_keywords progress)
      (enumerate (get_keywords_from_sheet col_values)).
Proof.
  intros Hex.
  destruct (main_log cfg fuel world progress col_values)
    as (evs & Ht & _ & _ & _ & _ & Hs).
  rewrite Ht, saved_app, saved_crash_report, app_nil_r. by apply Hs.
Qed.

Lemma a_finished_run_saves_what_it_searched_witness :
  ended run_example = Exhausted
  ∧ saved (trace (final run_example))
    = searched (fun _ => RunClaims.session_scraped)
        (load_completed_keywords None)
        (enumerate (get_keywords_from_sheet RunClaims.sheet))
  ∧ saved (trace (final run_example)) = [RunClaims.kw].
Proof.
  assert (He : ended run_example = Exhausted) by (by vm_compute).
  split; [exact He|]. split; [|by vm_compute].
  exact (a_finished_run_saves_what_it_searched RunClaims.config_example 100
           (fun _ => RunClaims.session_scraped) None RunClaims.sheet He).
Defined.







End RunLaws.
